(** * bayestar: grid evaluation of stellar posteriors (src/star_exact.cpp)

    A shallow embedding of the per-star grid-marginalisation engine and of
    the smoothing-kernel construction, with the properties the specification
    states about them.

    Numeric model.  A C++ [double] is an extended real: a finite value is a
    real number and the four operations and the square root are exact on
    finite values (no rounding, no overflow, no underflow), while the IEEE
    special values [+inf], [-inf] and [NaN] are kept, with the IEEE rules for
    them.  [exp] and [pow] leave the range of the finite doubles at moderate
    arguments, and do so here: below [2^-1075] their value is [0], from
    [2^1024] on it is [+inf].  Zero carries no sign: a division of a non-zero
    finite value by zero is decided by the sign of the numerator, as it is
    for the positive zero that [x*x] and [x - x] produce.  A C++ [int] is an
    integer of [Z] between [INT_MIN] and [INT_MAX]: the conversion [(int)x]
    of a non-finite [x] or of a value outside that range, an [int]
    multiplication or addition that leaves it, the dereference of an end
    iterator and an access outside an image have no defined behaviour and
    are the outcome [Undefined]; [std::vector::at] outside the vector is the
    outcome [Throws]. *)

From Stdlib Require Import Reals Lra Lia ZArith List Bool Psatz.
Import ListNotations.

Local Open Scope R_scope.

(** ** Doubles *)

Inductive double : Type :=
| Fin (r : R)
| PInf
| NInf
| NaN.

Declare Scope dbl_scope.
Delimit Scope dbl_scope with dbl.
Bind Scope dbl_scope with double.

Definition signed_inf (positive : bool) : double :=
  if positive then PInf else NInf.

(** [inf * r], for the infinity of the given sign and a finite [r]. *)
Definition inf_times (positive : bool) (r : R) : double :=
  if Rlt_dec 0 r then signed_inf positive
  else if Rlt_dec r 0 then signed_inf (negb positive)
  else NaN.

Definition dneg (x : double) : double :=
  match x with
  | Fin a => Fin (- a)
  | PInf => NInf
  | NInf => PInf
  | NaN => NaN
  end.

Definition dadd (x y : double) : double :=
  match x, y with
  | NaN, _ | _, NaN => NaN
  | Fin a, Fin b => Fin (a + b)
  | PInf, NInf | NInf, PInf => NaN
  | PInf, _ | _, PInf => PInf
  | NInf, _ | _, NInf => NInf
  end.

Definition dsub (x y : double) : double := dadd x (dneg y).

Definition dmul (x y : double) : double :=
  match x, y with
  | NaN, _ | _, NaN => NaN
  | Fin a, Fin b => Fin (a * b)
  | Fin a, PInf | PInf, Fin a => inf_times true a
  | Fin a, NInf | NInf, Fin a => inf_times false a
  | PInf, PInf | NInf, NInf => PInf
  | PInf, NInf | NInf, PInf => NInf
  end.

Definition ddiv (x y : double) : double :=
  match x, y with
  | NaN, _ | _, NaN => NaN
  | Fin a, Fin b =>
      if Req_dec_T b 0 then inf_times true a else Fin (a / b)
  | Fin _, PInf | Fin _, NInf => Fin 0
  | PInf, Fin b => if Rlt_dec b 0 then NInf else PInf
  | NInf, Fin b => if Rlt_dec b 0 then PInf else NInf
  | _, _ => NaN
  end.

Definition dsqrt (x : double) : double :=
  match x with
  | Fin a => if Rlt_dec a 0 then NaN else Fin (sqrt a)
  | PInf => PInf
  | NInf | NaN => NaN
  end.

(** The logarithms of [2^-1075], at and below which a positive value is
    rounded to zero, and of [2^1024], from which on a value is rounded to
    [+inf]. *)
Definition ln_underflow : R := -1075 * ln 2.

Definition ln_overflow : R := 1024 * ln 2.

(** [exp(x)]: [0] when the exponential is at most [2^-1075], [+inf] when it
    is at least [2^1024]. *)
Definition dexp (x : double) : double :=
  match x with
  | Fin a =>
      if Rle_dec a ln_underflow then Fin 0
      else if Rle_dec ln_overflow a then PInf
      else Fin (exp a)
  | PInf => PInf
  | NInf => Fin 0
  | NaN => NaN
  end.

(** [pow(10., x)], with the same two limits. *)
Definition dpow10 (x : double) : double :=
  match x with
  | Fin a =>
      if Rle_dec (a * ln 10) ln_underflow then Fin 0
      else if Rle_dec ln_overflow (a * ln 10) then PInf
      else Fin (Rpower 10 a)
  | PInf => PInf
  | NInf => Fin 0
  | NaN => NaN
  end.

Definition dceil (x : double) : double :=
  match x with
  | Fin a => Fin (IZR (Zceil a))
  | _ => x
  end.

(** [x < y]; every comparison with [NaN] is false. *)
Definition dlt (x y : double) : bool :=
  match x, y with
  | NaN, _ | _, NaN => false
  | Fin a, Fin b => if Rlt_dec a b then true else false
  | NInf, NInf | PInf, _ | _, NInf => false
  | NInf, _ | _, PInf => true
  end.

Definition dgt (x y : double) : bool := dlt y x.

(** [x >= y]. *)
Definition dge (x y : double) : bool :=
  match x, y with
  | NaN, _ | _, NaN => false
  | Fin a, Fin b => if Rle_dec b a then true else false
  | PInf, _ | _, NInf => true
  | NInf, _ | _, PInf => false
  end.

Definition isnan (x : double) : bool :=
  match x with NaN => true | _ => false end.

Definition isinf (x : double) : bool :=
  match x with PInf | NInf => true | _ => false end.

Definition is_finite (x : double) : Prop :=
  match x with Fin _ => True | _ => False end.

(** [(double)i]. *)
Definition of_int (i : Z) : double := Fin (IZR i).

Infix "+" := dadd : dbl_scope.
Infix "-" := dsub : dbl_scope.
Infix "*" := dmul : dbl_scope.
Infix "/" := ddiv : dbl_scope.
Notation "- x" := (dneg x) : dbl_scope.
Infix "<?" := dlt : dbl_scope.
Infix ">?" := dgt (at level 70) : dbl_scope.

(** Reduces an equation between tuples of finite doubles to equations
    between reals. *)
Ltac fin_eq :=
  repeat match goal with
         | |- (_, _) = (_, _) => apply f_equal2
         | |- Fin _ = Fin _ => apply f_equal
         end.

(** ** Outcomes of a call *)

Inductive outcome (A : Type) : Type :=
| Returns (a : A)
| Throws
| Undefined.

Arguments Returns {A} a.
Arguments Throws {A}.
Arguments Undefined {A}.

Definition bind {A B : Type} (c : outcome A) (k : A -> outcome B) : outcome B :=
  match c with
  | Returns a => k a
  | Throws => Throws
  | Undefined => Undefined
  end.

Notation "x <- c ;; k" := (bind c (fun x => k))
  (at level 61, c at next level, right associativity).
Notation "' p <- c ;; k" := (bind c (fun p => k))
  (at level 61, p pattern, c at next level, right associativity).

(** The range of [int]. *)
Definition INT_MIN : Z := -2147483648.

Definition INT_MAX : Z := 2147483647.

Definition in_int (z : Z) : bool := ((INT_MIN <=? z) && (z <=? INT_MAX))%Z.

(** The value of an [int] expression whose exact value is [z]: outside the
    range of [int] the signed overflow has no defined behaviour. *)
Definition int_ (z : Z) : outcome Z :=
  if in_int z then Returns z else Undefined.

(** [(int)x] for a double [x]: truncation toward zero, undefined when the
    truncated value is not an [int]. *)
Definition Ztrunc (a : R) : Z :=
  if Rlt_dec a 0 then Zceil a else Zfloor a.

Definition to_int (x : double) : outcome Z :=
  match x with
  | Fin a => int_ (Ztrunc a)
  | _ => Undefined
  end.

(** ** Data (src/data.h) *)

(** [TStellarData::TMagnitudes]: the fields the grid evaluation reads.  An
    array [double a[NBANDS]] is its index function on [0 .. NBANDS-1]. *)
Record TMagnitudes : Type := {
  pi : double;
  pierr : double;
  m : nat -> double;
  err : nat -> double
}.

(** [TSED]: absolute magnitude per band of one stellar type. *)
Record TSED : Type := {
  absmag : nat -> double
}.

(** [TExtinctionModel]: the extinction coefficient of a band at a slope. *)
Record TExtinctionModel : Type := {
  get_A : double -> nat -> double
}.

(** [TStellarModel]: the stellar-type library.  [get_sed] yields the SED of a
    cell with its [Mr] and [FeH], or nothing when the cell is not in the
    library. *)
Record TStellarModel : Type := {
  get_N_Mr : nat;
  get_N_FeH : nat;
  get_sed : nat -> nat -> option (TSED * double * double);
  get_log_lf : double -> double
}.

(** [TGalacticLOSModel]. *)
Record TGalacticLOSModel : Type := {
  log_prior_emp : double -> double -> double -> double
}.

(** ** Images and grids *)

(** [cv::Mat]: a dense [rows] by [cols] array.  The type [floating_t] of its
    entries is declared outside src/; the entries are doubles here. *)
Record Mat : Type := {
  rows : Z;
  cols : Z;
  at_ : Z -> Z -> double
}.

(** [cv::Mat::zeros]. *)
Definition zeros (r c : Z) : Mat :=
  {| rows := r; cols := c; at_ := fun _ _ => Fin 0 |}.

Definition in_mat (img : Mat) (i j : Z) : bool :=
  ((0 <=? i) && (i <? rows img) && (0 <=? j) && (j <? cols img))%Z.

(** [img.at(i, j) += v], at an index inside the image. *)
Definition mat_add (img : Mat) (i j : Z) (v : double) : Mat :=
  {| rows := rows img;
     cols := cols img;
     at_ := fun i' j' =>
       if ((i' =? i) && (j' =? j))%Z then dadd (at_ img i j) v else at_ img i' j' |}.

(** [img.at(i, j) += v]: outside the image the write is undefined. *)
Definition add_at (img : Mat) (i j : Z) (v : double) : outcome Mat :=
  if in_mat img i j then Returns (mat_add img i j v) else Undefined.

(** The values [0, 1, ..., n-1] of a loop counter. *)
Definition Zrange (n : Z) : list Z := map Z.of_nat (seq 0 (Z.to_nat n)).

(** [TRect]: the geometry of the (E, mu) grid; an array of two is its index
    function on [0, 1]. *)
Record TRect : Type := {
  rect_min : nat -> double;
  rect_max : nat -> double;
  N_bins : nat -> Z;
  dx : nat -> double
}.

(** Modelled from the spec: the constructor [TRect(min, max, N_bins)] is
    declared outside src/.  Section 3 of the specification: axis minima and
    maxima, bin counts and bin widths per axis; the bin width of an axis is
    its extent divided by its bin count. *)
Definition TRect_new (min max : nat -> double) (N_bins : nat -> Z) : TRect :=
  {| rect_min := min;
     rect_max := max;
     N_bins := N_bins;
     dx := fun i => ddiv (dsub (max i) (min i)) (of_int (N_bins i)) |}.

(** [TImgStack]: one image per star and the geometry they share. *)
Record TImgStack : Type := {
  img : list Mat;
  rect : TRect
}.

Fixpoint list_set {A : Type} (l : list A) (k : nat) (x : A) : list A :=
  match l, k with
  | [], _ => []
  | _ :: t, O => x :: t
  | h :: t, S k' => h :: list_set t k' x
  end.

(** Modelled from the spec: [TImgStack::set_rect] is defined outside src/;
    it replaces the geometry of the stack. *)
Definition set_rect (img_stack : TImgStack) (r : TRect) : TImgStack :=
  {| img := img img_stack; rect := r |}.

(** Modelled from the spec: [TImgStack::initialize_to_zero] is defined outside
    src/.  Section 3 of the specification: a per-star surface has the shape of
    the grid geometry and is created zero-initialised before marginalisation.
    The flag tells whether the stack has an image [img_idx]. *)
Definition initialize_to_zero (img_stack : TImgStack) (img_idx : nat)
    : TImgStack * bool :=
  if (img_idx <? length (img img_stack))%nat then
    ({| img := list_set (img img_stack) img_idx
                 (zeros (N_bins (rect img_stack) 0) (N_bins (rect img_stack) 1));
        rect := rect img_stack |}, true)
  else (img_stack, false).

(** [*img_stack.img[img_idx]]. *)
Definition stack_get (img_stack : TImgStack) (img_idx : nat) : outcome Mat :=
  match nth_error (img img_stack) img_idx with
  | Some x => Returns x
  | None => Undefined
  end.

(** ** Vectors *)

(** [v.at(k)]. *)
Definition vector_at {A : Type} (v : list A) (k : nat) : outcome A :=
  match nth_error v k with
  | Some x => Returns x
  | None => Throws
  end.

Definition push_back {A : Type} (v : list A) (x : A) : list A := v ++ [x].

(** [*std::min_element(v.begin(), v.end())]: the first smallest element under
    [<]; on an empty range the end iterator is dereferenced. *)
Definition min_element (v : list double) : outcome double :=
  match v with
  | [] => Undefined
  | x :: t => Returns (fold_left (fun smallest y => if dlt y smallest then y else smallest) t x)
  end.

(** [*std::max_element(v.begin(), v.end())]. *)
Definition max_element (v : list double) : outcome double :=
  match v with
  | [] => Undefined
  | x :: t => Returns (fold_left (fun largest y => if dlt largest y then y else largest) t x)
  end.

(** The four vectors [E_ML], [mu_ML], [chi2_ML], [prior_ML]. *)
Record ML_vectors : Type := {
  E_ML : list double;
  mu_ML : list double;
  chi2_ML : list double;
  prior_ML : list double
}.

(** One recorded cell: the entries with the same index of the four vectors. *)
Record recorded : Type := {
  rc_E : double;
  rc_mu : double;
  rc_chi2 : double;
  rc_prior : double
}.

Definition vectors_of (cells : list recorded) : ML_vectors :=
  {| E_ML := map rc_E cells;
     mu_ML := map rc_mu cells;
     chi2_ML := map rc_chi2 cells;
     prior_ML := map rc_prior cells |}.

(** [TStellarData]: the stars of one pixel. *)
Record TStellarData : Type := {
  nside : Z;
  star : list TMagnitudes
}.

(** [TEBVSmoothing]; [calc_pct_smoothing] fills an empty vector with one
    width per bin. *)
Record TEBVSmoothing : Type := {
  get_pct_smoothing_max : double;
  calc_pct_smoothing : Z -> double -> double -> Z -> list double
}.

(** [LinearFitParams]: a mean vector, an inverse covariance matrix and a
    chi-square. *)
Module LinearFitParams.

Record t : Type := {
  _n_dim : nat;
  mean : nat -> double;
  inv_cov : nat -> nat -> double;
  chi2 : double
}.

(** [LinearFitParams(n_dim)]: the chi-square starts at infinity. *)
Definition new (n_dim : nat) : t :=
  {| _n_dim := n_dim;
     mean := fun _ => Fin 0;
     inv_cov := fun _ _ => Fin 0;
     chi2 := PInf |}.

End LinearFitParams.

(** ** Sample data *)

Module Sample.

(** Two bands with extinction coefficients 1 and 2. *)
Definition ext_model : TExtinctionModel :=
  {| get_A := fun _ i => match i with O => Fin 1 | _ => Fin 2 end |}.

Definition RV : double := Fin 3.1.

(** A stellar type with absolute magnitudes 4 and 5. *)
Definition sed : TSED :=
  {| absmag := fun i => match i with O => Fin 4 | _ => Fin 5 end |}.

(** That type seen without noise at distance modulus [mu] and [E = 2], with
    the error [e] in both bands: [m_i = M_i + mu + 2 * A_i]. *)
Definition star_at (mu e : R) : TMagnitudes :=
  {| pi := Fin 0; pierr := Fin 1;
     m := fun i => match i with O => Fin (4 + mu + 2 * 1) | _ => Fin (5 + mu + 2 * 2) end;
     err := fun _ => Fin e |}.

Definition star_exact : TMagnitudes := star_at 10 1.

(** The same star with both bands marked as missing. *)
Definition star_no_band : TMagnitudes := star_at 10 2e9.

(** The same star beyond the far edge of the grid of the stellar PDFs. *)
Definition star_far : TMagnitudes := star_at 25 1.

(** The same star with its second band marked as missing by an error of 1e9. *)
Definition star_one_band : TMagnitudes :=
  {| pi := Fin 0; pierr := Fin 1;
     m := fun i => match i with O => Fin 16 | _ => Fin 0 end;
     err := fun i => match i with O => Fin 1 | _ => Fin 1e9 end |}.

(** A star seen in its first band only; the error of the second band is
    infinite. *)
Definition star_single_band : TMagnitudes :=
  {| pi := Fin 0; pierr := Fin 1;
     m := fun i => match i with O => Fin 16 | _ => Fin 0 end;
     err := fun i => match i with O => Fin 1 | _ => PInf end |}.

(** A library of one stellar type. *)
Definition stellar_model : TStellarModel :=
  {| get_N_Mr := 1; get_N_FeH := 1;
     get_sed := fun _ _ => Some (sed, Fin 4, Fin 0);
     get_log_lf := fun _ => Fin 0 |}.

(** A library without any stellar type. *)
Definition empty_library : TStellarModel :=
  {| get_N_Mr := 1; get_N_FeH := 1;
     get_sed := fun _ _ => None;
     get_log_lf := fun _ => Fin 0 |}.

Definition los_model : TGalacticLOSModel :=
  {| log_prior_emp := fun _ _ _ => Fin 0 |}.

(** What the sweep records for [star_at mu e]. *)
Definition cell (mu : R) : recorded :=
  {| rc_E := Fin 2; rc_mu := Fin mu; rc_chi2 := Fin 0; rc_prior := Fin 0 |}.

(** A grid of 5 by 5 bins of width 1. *)
Definition grid : TRect :=
  {| rect_min := fun _ => Fin 0;
     rect_max := fun _ => Fin 5;
     N_bins := fun _ => 5%Z;
     dx := fun _ => Fin 1 |}.


(** A stack with one image. *)
Definition img_stack : TImgStack := {| img := [zeros 5 5]; rect := grid |}.

(** A bilinear lookup: nothing outside [min, max) on either axis, else the
    bin and the fractional offset along each axis. *)
Definition get_interpolant (r : TRect) (x1 x2 : double)
    : option (Z * Z * double * double) :=
  if dlt x1 (rect_min r 0) || dge x1 (rect_max r 0)
     || dlt x2 (rect_min r 1) || dge x2 (rect_max r 1)
  then None
  else
    let f1 := ddiv (dsub x1 (rect_min r 0)) (dx r 0) in
    let f2 := ddiv (dsub x2 (rect_min r 1)) (dx r 1) in
    match to_int f1, to_int f2 with
    | Returns i1, Returns i2 => Some (i1, i2, dsub f1 (of_int i1), dsub f2 (of_int i2))
    | _, _ => None
    end.

(** Positions outside an axis are read at its nearest end. *)
Definition borderInterpolate (p len : Z) : Z := Z.max 0 (Z.min p (len - 1)).

(** Stand-ins for [TImgStack::crop] and [TImgStack::smooth]. *)
Definition crop (s : TImgStack) (x_min x_max y_min y_max : double) : TImgStack := s.

Definition smooth (s : TImgStack) (sigma : list double) : TImgStack := s.

(** A pixel with one star. *)
Definition stellar_data : TStellarData := {| nside := 512; star := [star_far] |}.

(** A smoothing of 0.1 per bin, on three bins. *)
Definition EBV_smoothing : TEBVSmoothing :=
  {| get_pct_smoothing_max := Fin 1;
     calc_pct_smoothing := fun _ _ _ _ => [Fin 0.1; Fin 0.1; Fin 0.1] |}.

End Sample.

Section StarExact.

(** The number of passbands, a build-time constant of the repository. *)
Variable NBANDS : nat.

Local Open Scope dbl_scope.

(** ** CovarianceSolver: [star_covariance] *)

Definition star_covariance (mags_obs : TMagnitudes) (ext_model : TExtinctionModel)
    (RV : double) : double * double * double :=
  fold_left
    (fun '(inv_sigma2, A_over_sigma2, A2_over_sigma2) i =>
       let A := get_A ext_model RV i in
       let ivar := Fin 1 / (err mags_obs i * err mags_obs i) in
       (inv_sigma2 + ivar, A_over_sigma2 + A * ivar, A2_over_sigma2 + A * A * ivar))
    (seq 0 NBANDS) (Fin 0, Fin 0, Fin 0).

(** The specification's reading of the same sums, for comparison with the
    code: "errors >= 1e9 mark a band as missing and must be excluded from all
    sums", the three scalars "summed over non-missing bands only". *)
Definition covariance_non_missing (mags_obs : TMagnitudes)
    (ext_model : TExtinctionModel) (RV : double) : double * double * double :=
  fold_left
    (fun '(inv_sigma2, A_over_sigma2, A2_over_sigma2) i =>
       if dge (err mags_obs i) (Fin 1e9)
       then (inv_sigma2, A_over_sigma2, A2_over_sigma2)
       else
         let A := get_A ext_model RV i in
         let ivar := Fin 1 / (err mags_obs i * err mags_obs i) in
         (inv_sigma2 + ivar, A_over_sigma2 + A * ivar, A2_over_sigma2 + A * A * ivar))
    (seq 0 NBANDS) (Fin 0, Fin 0, Fin 0).

(** ** LinearFitSolver: [star_max_likelihood] *)

(** The first loop: the two data sums. *)
Definition ml_sums (mags_model : TSED) (mags_obs : TMagnitudes)
    (ext_model : TExtinctionModel) (RV : double) : double * double :=
  fold_left
    (fun '(dm_over_sigma2, dm_A_over_sigma2) i =>
       let A := get_A ext_model RV i in
       let ivar := Fin 1 / (err mags_obs i * err mags_obs i) in
       let dm := m mags_obs i - absmag mags_model i in
       (dm_over_sigma2 + dm * ivar, dm_A_over_sigma2 + dm * A * ivar))
    (seq 0 NBANDS) (Fin 0, Fin 0).

(** The second loop: chi-square at [(mu, E)]. *)
Definition ml_chi2 (mags_model : TSED) (mags_obs : TMagnitudes)
    (ext_model : TExtinctionModel) (mu E RV : double) : double :=
  fold_left
    (fun chi2 i =>
       let A := get_A ext_model RV i in
       let ivar := Fin 1 / (err mags_obs i * err mags_obs i) in
       let dm := m mags_obs i - absmag mags_model i in
       let delta := dm - E * A - mu in
       chi2 + delta * delta * ivar)
    (seq 0 NBANDS) (Fin 0).

(** Returns [(mu, E, chi2)]. *)
Definition star_max_likelihood (mags_model : TSED) (mags_obs : TMagnitudes)
    (ext_model : TExtinctionModel) (inv_cov_00 inv_cov_01 inv_cov_11 : double)
    (RV : double) : double * double * double :=
  let '(dm_over_sigma2, dm_A_over_sigma2) :=
    ml_sums mags_model mags_obs ext_model RV in
  let mu_0 := dm_over_sigma2 / inv_cov_00 in
  let E_0 := dm_A_over_sigma2 / inv_cov_11 in
  let C_01 := inv_cov_01 / inv_cov_00 in
  let C_10 := inv_cov_01 / inv_cov_11 in
  let C_det_inv := Fin 1 / (Fin 1 - C_01 * C_10) in
  let mu := C_det_inv * (mu_0 - C_01 * E_0) in
  let E := C_det_inv * (E_0 - C_10 * mu_0) in
  (mu, E, ml_chi2 mags_model mags_obs ext_model mu E RV).

(** ** KernelBuilder: [gaussian_filter] *)

(** The extra smoothing along each axis, taken when [add_diagonal > 0]:
    returns the new [(inv_cov_00, inv_cov_01, inv_cov_11)]. *)
Definition add_extra_smoothing (inv_cov_00 inv_cov_01 inv_cov_11 : double)
    (grid : TRect) (add_diagonal : double) : double * double * double :=
  if add_diagonal >? Fin 0 then
    let diag0 := add_diagonal * dx grid 0 in
    let diag1 := add_diagonal * dx grid 1 in
    let det := inv_cov_00 * inv_cov_11 - inv_cov_01 * inv_cov_01 in
    let cov_00 := inv_cov_11 / det in
    let cov_11 := inv_cov_00 / det in
    let cov_01 := - inv_cov_01 / det in
    let cov_00 := cov_00 + diag0 * diag0 in
    let cov_11 := cov_11 + diag1 * diag1 in
    let det := cov_00 * cov_11 - cov_01 * cov_01 in
    (cov_11 / det, - cov_01 / det, cov_00 / det)
  else (inv_cov_00, inv_cov_01, inv_cov_11).

(** Sigma along each axis, from the regularised determinant. *)
Definition filter_sigma (inv_cov_00 inv_cov_01 inv_cov_11 : double) : double * double :=
  let det := inv_cov_00 * inv_cov_11 - inv_cov_01 * inv_cov_01 + Fin 1e-5 in
  (dsqrt (inv_cov_11 / det), dsqrt (inv_cov_00 / det)).

(** [width[i] = std::max(min_width, (int)(ceil(n_sigma * sigma[i] / grid.dx[i])))]. *)
Definition filter_width (grid : TRect) (n_sigma : double) (min_width : Z)
    (sigma : double) (i : nat) : outcome Z :=
  c <- to_int (dceil (n_sigma * sigma / dx grid i)) ;;
  Returns (Z.max min_width c).

(** The weight written at [(i, j)] of the sub-sampled image. *)
Definition filter_weight (inv_cov_00 inv_cov_01 inv_cov_11 : double) (grid : TRect)
    (subsample : Z) (w0 h0 : double) (i j : Z) : double :=
  let dx_ := (of_int i - w0) * dx grid 0 / of_int subsample in
  let cxx := inv_cov_00 * dx_ * dx_ in
  let dy := (of_int j - h0) * dx grid 1 / of_int subsample in
  let cxy := inv_cov_01 * dx_ * dy in
  let cyy := inv_cov_11 * dy * dy in
  dexp (Fin (-0.5) * (cxx + Fin 2 * cxy + cyy)).

(** The two nested loops that evaluate the filter at each point of the
    zeroed sub-sampled image. *)
Definition filter_sub_image (inv_cov_00 inv_cov_01 inv_cov_11 : double) (grid : TRect)
    (subsample h w_sub h_sub : Z) (w0 h0 : double) : Mat :=
  fold_left
    (fun img_sub i =>
       fold_left
         (fun img_sub j =>
            mat_add img_sub i j
              (filter_weight inv_cov_00 inv_cov_01 inv_cov_11 grid subsample w0 h0 i j))
         (Zrange (subsample * h)%Z) img_sub)
    (Zrange w_sub) (zeros w_sub h_sub).

(** Modelled from the spec: [cv::resize] with [cv::INTER_AREA] belongs to
    OpenCV and is not under src/.  Section 9 of the specification: each
    down-sampled cell is the average of its block of the sub-sampled image
    (area decimation).  The block has [rows src / drows] by
    [cols src / dcols] cells; the average of a block without cells is the
    0/0 of the division. *)
Definition resize_area (src : Mat) (drows dcols : Z) : Mat :=
  let sr := (rows src / drows)%Z in
  let sc := (cols src / dcols)%Z in
  {| rows := drows;
     cols := dcols;
     at_ := fun r c =>
       fold_left
         (fun acc a =>
            fold_left (fun acc b => acc + at_ src (sr * r + a)%Z (sc * c + b)%Z)
              (Zrange sc) acc)
         (Zrange sr) (Fin 0)
       / of_int (sr * sc) |}.

(** [img /= x]. *)
Definition mat_div (img : Mat) (x : double) : Mat :=
  {| rows := rows img; cols := cols img; at_ := fun i j => at_ img i j / x |}.

(** The part of [gaussian_filter] after the extra smoothing: sigma and width
    along each axis, the sub-sampled image, its reduction and the
    normalisation by the value at the centre. *)
Definition build_filter (inv_cov_00 inv_cov_01 inv_cov_11 : double) (grid : TRect)
    (n_sigma : double) (min_width : Z) (subsample : Z) : outcome Mat :=
  let '(sigma0, sigma1) := filter_sigma inv_cov_00 inv_cov_01 inv_cov_11 in
  width0 <- filter_width grid n_sigma min_width sigma0 0 ;;
  width1 <- filter_width grid n_sigma min_width sigma1 1 ;;
  w <- int_ (2 * width0 + 1) ;;
  h <- int_ (2 * width1 + 1) ;;
  w_sub <- int_ (subsample * w) ;;
  h_sub <- int_ (subsample * h) ;;
  let w0 := Fin 0.5 * of_int (w_sub - 1) in
  let h0 := Fin 0.5 * of_int (h_sub - 1) in
  let img_sub :=
    filter_sub_image inv_cov_00 inv_cov_01 inv_cov_11 grid subsample h w_sub h_sub w0 h0 in
  let img_down := resize_area img_sub w h in
  Returns (mat_div img_down (at_ img_down width0 width1)).

(** The image [img] that [gaussian_filter] leaves in its output argument.
    [verbosity] only selects what is printed and is left out. *)
Definition gaussian_filter (inv_cov_00 inv_cov_01 inv_cov_11 : double) (grid : TRect)
    (n_sigma : double) (min_width : Z) (add_diagonal : double) (subsample : Z)
    : outcome Mat :=
  let '(inv_cov_00, inv_cov_01, inv_cov_11) :=
    add_extra_smoothing inv_cov_00 inv_cov_01 inv_cov_11 grid add_diagonal in
  build_filter inv_cov_00 inv_cov_01 inv_cov_11 grid n_sigma min_width subsample.

(** ** DensityConvolver *)

(** The index OpenCV reads for position [p] of an axis of length [len] when
    [p] is outside the image. *)
Variable borderInterpolate : Z -> Z -> Z.

(** Modelled from the spec: [cv::filter2D] belongs to OpenCV and is not under
    src/.  Section 4.5 of the specification: a 2D correlation of the surface
    with the kernel, same dimensions as the input; the kernel is anchored at
    its centre. *)
Definition filter2D (src kernel : Mat) : Mat :=
  {| rows := rows src;
     cols := cols src;
     at_ := fun r c =>
       fold_left
         (fun acc i =>
            fold_left
              (fun acc j =>
                 acc + at_ kernel i j
                       * at_ src (borderInterpolate (r + i - rows kernel / 2) (rows src))
                                 (borderInterpolate (c + j - cols kernel / 2) (cols src)))
              (Zrange (cols kernel)) acc)
         (Zrange (rows kernel)) (Fin 0) |}.

(** ** GridMarginalizer: [integrate_ML_solution] *)

(** The bilinear lookup of [TRect], defined outside src/: the two bin indices
    and the two fractional offsets of a point inside the grid, nothing for a
    point out of bounds. *)
Variable get_interpolant : TRect -> double -> double -> option (Z * Z * double * double).

(** The prior of one cell. *)
Definition cell_prior (stellar_model : TStellarModel) (los_model : TGalacticLOSModel)
    (mags_obs : TMagnitudes) (use_priors use_gaia : bool) (mu Mr FeH : double) : double :=
  let prior := Fin 0 in
  let prior :=
    if use_priors
    then prior + (log_prior_emp los_model mu Mr FeH + get_log_lf stellar_model Mr)
    else prior in
  if use_gaia then
    let pi_mu := dpow10 (- (mu + Fin 5) / Fin 5) in
    prior + Fin (-0.5) * (pi mags_obs - pi_mu) * (pi mags_obs - pi_mu)
            / (pierr mags_obs * pierr mags_obs)
  else prior.

(** One iteration of the inner loop over the stellar types. *)
Definition sweep_cell (stellar_model : TStellarModel) (los_model : TGalacticLOSModel)
    (mags_obs : TMagnitudes) (ext_model : TExtinctionModel)
    (inv_cov_00 inv_cov_01 inv_cov_11 : double) (use_priors use_gaia : bool)
    (RV : double) (Mr_idx : nat) (v : ML_vectors) (FeH_idx : nat) : ML_vectors :=
  match get_sed stellar_model Mr_idx FeH_idx with
  | None => v
  | Some (sed, Mr, FeH) =>
      let '(mu, E, chi2) :=
        star_max_likelihood sed mags_obs ext_model inv_cov_00 inv_cov_01 inv_cov_11 RV in
      let prior := cell_prior stellar_model los_model mags_obs use_priors use_gaia mu Mr FeH in
      {| E_ML := push_back (E_ML v) E;
         mu_ML := push_back (mu_ML v) mu;
         chi2_ML := push_back (chi2_ML v) chi2;
         prior_ML := push_back (prior_ML v) prior |}
  end.

(** The sweep of the whole grid of stellar types. *)
Definition sweep (stellar_model : TStellarModel) (los_model : TGalacticLOSModel)
    (mags_obs : TMagnitudes) (ext_model : TExtinctionModel)
    (inv_cov_00 inv_cov_01 inv_cov_11 : double) (use_priors use_gaia : bool)
    (RV : double) : ML_vectors :=
  fold_left
    (fun v Mr_idx =>
       fold_left
         (sweep_cell stellar_model los_model mags_obs ext_model
            inv_cov_00 inv_cov_01 inv_cov_11 use_priors use_gaia RV Mr_idx)
         (seq 0 (get_N_FeH stellar_model)) v)
    (seq 0 (get_N_Mr stellar_model))
    {| E_ML := []; mu_ML := []; chi2_ML := []; prior_ML := [] |}.

(** The fit and the prior of one stellar type of the library. *)
Definition fit_cell (stellar_model : TStellarModel) (los_model : TGalacticLOSModel)
    (mags_obs : TMagnitudes) (ext_model : TExtinctionModel)
    (inv_cov_00 inv_cov_01 inv_cov_11 : double) (use_priors use_gaia : bool)
    (RV : double) (t : TSED * double * double) : recorded :=
  let '(sed, Mr, FeH) := t in
  let '(mu, E, chi2) :=
    star_max_likelihood sed mags_obs ext_model inv_cov_00 inv_cov_01 inv_cov_11 RV in
  {| rc_E := E; rc_mu := mu; rc_chi2 := chi2;
     rc_prior := cell_prior stellar_model los_model mags_obs use_priors use_gaia mu Mr FeH |}.

(** The specification's reading of the first pass, for comparison with the
    code: one record (E, mu, chi2, prior) for every cell of the grid that the
    library has, in the order of the sweep. *)
Definition recorded_cells (stellar_model : TStellarModel) (los_model : TGalacticLOSModel)
    (mags_obs : TMagnitudes) (ext_model : TExtinctionModel)
    (inv_cov_00 inv_cov_01 inv_cov_11 : double) (use_priors use_gaia : bool)
    (RV : double) : list recorded :=
  flat_map
    (fun Mr_idx =>
       flat_map
         (fun FeH_idx =>
            match get_sed stellar_model Mr_idx FeH_idx with
            | None => []
            | Some t =>
                [fit_cell stellar_model los_model mags_obs ext_model
                   inv_cov_00 inv_cov_01 inv_cov_11 use_priors use_gaia RV t]
            end)
         (seq 0 (get_N_FeH stellar_model)))
    (seq 0 (get_N_Mr stellar_model)).

(** The weight of a recorded cell. *)
Definition cell_weight (chi2_min prior_max chi2 prior : double) : double :=
  let log_p := Fin (-0.5) * (chi2 - chi2_min) in
  let log_p := log_p + (prior - prior_max) in
  dexp log_p.

(** The four writes that interpolate a weight between bins. *)
Definition splat (image : Mat) (img_idx0 img_idx1 : Z) (a0 a1 p : double) : outcome Mat :=
  image <- add_at image img_idx0 img_idx1 ((Fin 1 - a0) * (Fin 1 - a1) * p) ;;
  image <- add_at image (img_idx0 + 1)%Z img_idx1 (a0 * (Fin 1 - a1) * p) ;;
  image <- add_at image img_idx0 (img_idx1 + 1)%Z ((Fin 1 - a0) * a1 * p) ;;
  add_at image (img_idx0 + 1)%Z (img_idx1 + 1)%Z (a0 * a1 * p).

(** One iteration of the loop that adds the points to the image. *)
Definition deposit_cell (grid : TRect) (v : ML_vectors) (chi2_min prior_max : double)
    (image : outcome Mat) (k : nat) : outcome Mat :=
  image <- image ;;
  E <- vector_at (E_ML v) k ;;
  mu <- vector_at (mu_ML v) k ;;
  match get_interpolant grid E mu with
  | None => Returns image
  | Some (img_idx0, img_idx1, a0, a1) =>
      chi2 <- vector_at (chi2_ML v) k ;;
      prior <- vector_at (prior_ML v) k ;;
      splat image img_idx0 img_idx1 a0 a1 (cell_weight chi2_min prior_max chi2 prior)
  end.

Definition deposit (grid : TRect) (v : ML_vectors) (chi2_min prior_max : double)
    (image : Mat) : outcome Mat :=
  fold_left (deposit_cell grid v chi2_min prior_max)
    (seq 0 (length (mu_ML v))) (Returns image).

(** The specification's reading of the second pass, for comparison with the
    code: each recorded cell inside the grid is deposited with the weight
    [exp(-1/2 (chi2 - chi2_min) + (prior - prior_max))]; a cell outside the
    grid is dropped. *)
Definition deposit_recorded (grid : TRect) (chi2_min prior_max : double)
    (image : outcome Mat) (c : recorded) : outcome Mat :=
  image <- image ;;
  match get_interpolant grid (rc_E c) (rc_mu c) with
  | None => Returns image
  | Some (img_idx0, img_idx1, a0, a1) =>
      splat image img_idx0 img_idx1 a0 a1
        (dexp (Fin (-0.5) * (rc_chi2 c - chi2_min) + (rc_prior c - prior_max)))
  end.

(** The number of passbands that are not missing. *)
Definition count_passbands (mags_obs : TMagnitudes) : Z :=
  fold_left
    (fun n_passbands i =>
       if isnan (err mags_obs i) || isinf (err mags_obs i) || (err mags_obs i >? Fin 1e9)
       then n_passbands
       else (n_passbands + 1)%Z)
    (seq 0 NBANDS) 0%Z.

(** Returns the image stack with the surface of the star in image [img_idx],
    and the minimum chi-square per passband.  A failure of
    [initialize_to_zero] is only reported, and [verbosity] is passed to
    [gaussian_filter] in the place of [subsample]. *)
Definition integrate_ML_solution (stellar_model : TStellarModel)
    (los_model : TGalacticLOSModel) (mags_obs : TMagnitudes)
    (ext_model : TExtinctionModel) (img_stack : TImgStack) (img_idx : nat)
    (use_priors use_gaia : bool) (RV : double) (verbosity : Z)
    : outcome (TImgStack * double) :=
  let '(inv_cov_00, inv_cov_01, inv_cov_11) := star_covariance mags_obs ext_model RV in
  let '(img_stack, _) := initialize_to_zero img_stack img_idx in
  let v := sweep stellar_model los_model mags_obs ext_model
             inv_cov_00 inv_cov_01 inv_cov_11 use_priors use_gaia RV in
  prior_max <- max_element (prior_ML v) ;;
  chi2_min <- min_element (chi2_ML v) ;;
  image <- stack_get img_stack img_idx ;;
  image <- deposit (rect img_stack) v chi2_min prior_max image ;;
  cov_img <- gaussian_filter inv_cov_11 inv_cov_01 inv_cov_00 (rect img_stack)
               (Fin 5) 2 (Fin 1) verbosity ;;
  let filtered_img := filter2D image cov_img in
  let img_stack :=
    {| img := list_set (img img_stack) img_idx filtered_img; rect := rect img_stack |} in
  let n_passbands := count_passbands mags_obs in
  Returns (img_stack, chi2_min / of_int n_passbands).

(** ** BatchEvaluator: [grid_eval_stars] *)

(** [TImgStack::crop] and [TImgStack::smooth], defined outside src/. *)
Variable crop : TImgStack -> double -> double -> double -> double -> TImgStack.
Variable smooth : TImgStack -> list double -> TImgStack.

(** The loop [sigma_pix[i] *= (double)i]. *)
Definition scale_by_index (sigma_pix : list double) : list double :=
  fold_left
    (fun sigma_pix i =>
       match nth_error sigma_pix i with
       | Some x => list_set sigma_pix i (x * of_int (Z.of_nat i))
       | None => sigma_pix
       end)
    (seq 0 (length sigma_pix)) sigma_pix.

(** The loop over all stars. *)
Definition eval_all_stars (los_model : TGalacticLOSModel) (ext_model : TExtinctionModel)
    (stellar_model : TStellarModel) (stellar_data : TStellarData)
    (img_stack : TImgStack) (chi2 : list double)
    (use_priors use_gaia : bool) (RV : double) (verbosity : Z)
    : outcome (TImgStack * list double) :=
  fold_left
    (fun state i =>
       '(img_stack, chi2) <- state ;;
       mags_obs <- vector_at (star stellar_data) i ;;
       '(img_stack, chi2_min) <-
         integrate_ML_solution stellar_model los_model mags_obs ext_model
           img_stack i use_priors use_gaia RV verbosity ;;
       Returns (img_stack, push_back chi2 chi2_min))
    (seq 0 (length (star stellar_data))) (Returns (img_stack, chi2)).

(** The second smoothing pass, along the reddening axis. *)
Definition smooth_EBV (EBV_smoothing : TEBVSmoothing) (stellar_data : TStellarData)
    (img_stack : TImgStack) : TImgStack :=
  if get_pct_smoothing_max EBV_smoothing >? Fin 0 then
    let sigma_pix :=
      calc_pct_smoothing EBV_smoothing (nside stellar_data)
        (rect_min (rect img_stack) 0) (rect_max (rect img_stack) 0)
        (N_bins (rect img_stack) 0) in
    smooth img_stack (scale_by_index sigma_pix)
  else img_stack.

(** The time per star of the three stages and of the whole call, from the
    four readings of the clock. *)
Definition elapsed_per_star (t_start t_smooth t_write t_end : double) (n_stars : Z)
    : list double :=
  [ (t_smooth - t_start) / of_int n_stars;
    (t_write - t_smooth) / of_int n_stars;
    (t_end - t_write) / of_int n_stars;
    (t_end - t_start) / of_int n_stars ].

(** The grid of the stellar PDFs: [min], [max] and [N_bins] of (E, DM). *)
Definition stellar_pdf_rect : TRect :=
  TRect_new (fun i => match i with O => Fin (-0.2) | _ => Fin 3.75 end)
            (fun i => match i with O => Fin 7.2 | _ => Fin 19.25 end)
            (fun i => match i with O => 740%Z | _ => 124%Z end).

(** The image stack and the chi-square vector the call leaves in its output
    arguments [img_stack] and [chi2], with the times it reports when
    [verbosity >= 1].  [now] gives the four readings of
    [std::chrono::steady_clock]; the file written when [save_surfs] is set
    holds the final images and changes nothing here. *)
Definition grid_eval_stars (now : nat -> double)
    (los_model : TGalacticLOSModel) (ext_model : TExtinctionModel)
    (stellar_model : TStellarModel) (stellar_data : TStellarData)
    (EBV_smoothing : TEBVSmoothing) (img_stack : TImgStack) (chi2 : list double)
    (use_priors use_gaia : bool) (RV : double) (verbosity : Z)
    : outcome (TImgStack * list double * list double) :=
  let t_start := now 0%nat in
  let rect := stellar_pdf_rect in
  let img_stack := set_rect img_stack rect in
  let n_stars := length (star stellar_data) in
  let chi2 := [] in
  '(img_stack, chi2) <-
    eval_all_stars los_model ext_model stellar_model stellar_data img_stack chi2
      use_priors use_gaia RV verbosity ;;
  let img_stack := crop img_stack (Fin 0) (Fin 7) (Fin 4) (Fin 19) in
  let t_smooth := now 1%nat in
  let img_stack := smooth_EBV EBV_smoothing stellar_data img_stack in
  let t_write := now 2%nat in
  let t_end := now 3%nat in
  let report :=
    if (1 <=? verbosity)%Z
    then elapsed_per_star t_start t_smooth t_write t_end (Z.of_nat n_stars)
    else [] in
  Returns (img_stack, chi2, report).

(** ** The other functions of star_exact.cpp and data.h *)

(** [calc_star_chi2]: the chi-square of a stellar fit at a given distance
    modulus and reddening. *)
Definition calc_star_chi2 (mags_obs : TMagnitudes) (ext_model : TExtinctionModel)
    (mags_model : TSED) (mu E RV : double) : double :=
  fold_left
    (fun chi2 i =>
       let A := get_A ext_model RV i in
       let ivar := Fin 1 / (err mags_obs i * err mags_obs i) in
       let dm := m mags_obs i - absmag mags_model i in
       let delta := dm - E * A - mu in
       chi2 + delta * delta * ivar)
    (seq 0 NBANDS) (Fin 0).

(** The overload of [star_max_likelihood] that returns [LinearFitParams]: one
    loop for the five sums, the closed-form solution, the inverse covariance
    and the chi-square at the solution. *)
Definition star_max_likelihood_params (mags_model : TSED) (mags_obs : TMagnitudes)
    (ext_model : TExtinctionModel) (RV : double) : LinearFitParams.t :=
  let '(inv_sigma2, A_over_sigma2, A2_over_sigma2, dm_over_sigma2, dm_A_over_sigma2) :=
    fold_left
      (fun '(inv_sigma2, A_over_sigma2, A2_over_sigma2,
             dm_over_sigma2, dm_A_over_sigma2) i =>
         let A := get_A ext_model RV i in
         let ivar := Fin 1 / (err mags_obs i * err mags_obs i) in
         let dm := m mags_obs i - absmag mags_model i in
         (inv_sigma2 + ivar, A_over_sigma2 + A * ivar, A2_over_sigma2 + A * A * ivar,
          dm_over_sigma2 + dm * ivar, dm_A_over_sigma2 + dm * A * ivar))
      (seq 0 NBANDS) (Fin 0, Fin 0, Fin 0, Fin 0, Fin 0) in
  let mu_0 := dm_over_sigma2 / inv_sigma2 in
  let E_0 := dm_A_over_sigma2 / A2_over_sigma2 in
  let C_01 := A_over_sigma2 / inv_sigma2 in
  let C_10 := A_over_sigma2 / A2_over_sigma2 in
  let C_det_inv := Fin 1 / (Fin 1 - C_01 * C_10) in
  let mu := C_det_inv * (mu_0 - C_01 * E_0) in
  let E := C_det_inv * (E_0 - C_10 * mu_0) in
  let chi2 :=
    fold_left
      (fun chi2 i =>
         let A := get_A ext_model RV i in
         let ivar := Fin 1 / (err mags_obs i * err mags_obs i) in
         let dm := m mags_obs i - absmag mags_model i in
         let delta := dm - E * A - mu in
         chi2 + delta * delta * ivar)
      (seq 0 NBANDS) (Fin 0) in
  {| LinearFitParams._n_dim := 2;
     LinearFitParams.mean := fun k => match k with O => mu | _ => E end;
     LinearFitParams.inv_cov :=
       fun j k =>
         match j, k with
         | O, O => inv_sigma2
         | O, _ => A_over_sigma2
         | _, O => A_over_sigma2
         | _, _ => A2_over_sigma2
         end;
     LinearFitParams.chi2 := chi2 |}.

(** The weight the first overload of [gaussian_filter] adds at [(i, j)]. *)
Definition params_weight (p : LinearFitParams.t) (grid : TRect) (width0 width1 i j : Z)
    : double :=
  let dx_ := of_int (i - width0) * dx grid 0 in
  let cxx := LinearFitParams.inv_cov p 0 0 * dx_ * dx_ in
  let dy := of_int (j - width1) * dx grid 1 in
  let cxy := LinearFitParams.inv_cov p 0 1 * dx_ * dy in
  let cyy := LinearFitParams.inv_cov p 1 1 * dy * dy in
  dexp (Fin (-0.5) * (cxx + Fin 2 * cxy + cyy)).

(** The overload of [gaussian_filter] that takes [LinearFitParams]: no extra
    smoothing, no sub-sampling and no normalisation; [n_sigma] is not used. *)
Definition gaussian_filter_params (p : LinearFitParams.t) (grid : TRect)
    (n_sigma : double) (min_width : Z) : outcome Mat :=
  let det :=
    LinearFitParams.inv_cov p 0 0 * LinearFitParams.inv_cov p 1 1
    - LinearFitParams.inv_cov p 0 1 * LinearFitParams.inv_cov p 1 0 + Fin 1e-5 in
  let sigma0 := dsqrt (LinearFitParams.inv_cov p 1 1 / det) in
  let sigma1 := dsqrt (LinearFitParams.inv_cov p 0 0 / det) in
  c0 <- to_int (dceil (sigma0 / dx grid 0)) ;;
  c1 <- to_int (dceil (sigma1 / dx grid 1)) ;;
  let width0 := Z.max min_width c0 in
  let width1 := Z.max min_width c1 in
  w <- int_ (2 * width0 + 1) ;;
  h <- int_ (2 * width1 + 1) ;;
  Returns
    (fold_left
       (fun img_ i =>
          fold_left
            (fun img_ j => mat_add img_ i j (params_weight p grid width0 width1 i j))
            (Zrange h) img_)
       (Zrange w)
       (zeros w h)).

(** [log(x)]. *)
Definition dlog (x : double) : double :=
  match x with
  | Fin a => if Rlt_dec 0 a then Fin (ln a)
             else if Rlt_dec a 0 then NaN else NInf
  | PInf => PInf
  | NInf | NaN => NaN
  end.

(** What the constructor [TMagnitudes(_m, _err)] of src/data.h sets. *)
Record TMagnitudes_set : Type := {
  set_m : nat -> double;
  set_err : nat -> double;
  set_maglimit : nat -> double;
  set_maglim_width : nat -> double;
  set_EBV : double;
  set_lnL_norm : double
}.

(** The constructor [TMagnitudes(_m, _err)]: missing bands, those with an
    error of 9e9 or more, are left out of [lnL_norm]. *)
Definition TMagnitudes_new (_m _err : nat -> double) : TMagnitudes_set :=
  {| set_m := _m;
     set_err := _err;
     set_maglimit := fun _ => Fin 23;
     set_maglim_width := fun _ => Fin 0.20;
     set_EBV := Fin 1;
     set_lnL_norm :=
       fold_left
         (fun lnL_norm i =>
            if _err i <? Fin 9e9
            then lnL_norm + (Fin 0.9189385332 + dlog (_err i))
            else lnL_norm)
         (seq 0 NBANDS) (Fin 0) |}.

(** ** Notions used in the statements *)

(** The sum of [f] over the indices of [l]. *)
Definition Rsum (f : nat -> R) (l : list nat) : R :=
  fold_right (fun i s => (f i + s)%R) 0%R l.

(** A star whose photometry is finite on the bands of [l]: errors [e] that
    are not zero, magnitudes [mo], and a model with finite coefficients [a]
    and absolute magnitudes [M]. *)
Record finite_on (l : list nat) (mags_obs : TMagnitudes) (mags_model : TSED)
    (ext_model : TExtinctionModel) (RV : double) (e mo M a : nat -> R) : Prop := {
  fin_err : forall i, In i l -> err mags_obs i = Fin (e i);
  fin_err_nz : forall i, In i l -> e i <> 0%R;
  fin_m : forall i, In i l -> m mags_obs i = Fin (mo i);
  fin_absmag : forall i, In i l -> absmag mags_model i = Fin (M i);
  fin_A : forall i, In i l -> get_A ext_model RV i = Fin (a i)
}.

(** A finite positive value, a finite value that is not negative. *)
Definition pos_fin (d : double) : Prop := exists v : R, d = Fin v /\ (0 < v)%R.

Definition nonneg_fin (d : double) : Prop := exists v : R, d = Fin v /\ (0 <= v)%R.

(** Some cell of the block of the sub-sampled image that is reduced to the
    centre bin of the kernel holds a positive weight: the value the kernel
    is normalised by is not zero. *)
Definition centre_has_weight (inv_cov_00 inv_cov_01 inv_cov_11 : double) (grid : TRect)
    (subsample width0 width1 : Z) : Prop :=
  exists x y : Z,
    (0 <= x < subsample)%Z /\ (0 <= y < subsample)%Z
    /\ pos_fin (filter_weight inv_cov_00 inv_cov_01 inv_cov_11 grid subsample
                  (Fin 0.5 * of_int (subsample * (2 * width0 + 1) - 1))
                  (Fin 0.5 * of_int (subsample * (2 * width1 + 1) - 1))
                  (subsample * width0 + x) (subsample * width1 + y)).

(** Whether the grid has bins for a recorded cell. *)
Definition in_grid (grid : TRect) (c : recorded) : bool :=
  match get_interpolant grid (rc_E c) (rc_mu c) with
  | Some _ => true
  | None => false
  end.

(** The stack and the chi-squares of a call, without the times it reports. *)
Definition results (r : outcome (TImgStack * list double * list double))
    : outcome (TImgStack * list double) :=
  match r with
  | Returns (img_stack, chi2, _) => Returns (img_stack, chi2)
  | Throws => Throws
  | Undefined => Undefined
  end.

(** The surface and the chi-square per passband of one star on a grid. *)
Definition star_surface (stellar_model : TStellarModel)
    (los_model : TGalacticLOSModel) (mags_obs : TMagnitudes)
    (ext_model : TExtinctionModel) (grid : TRect)
    (use_priors use_gaia : bool) (RV : double) (verbosity : Z)
    : outcome (Mat * double) :=
  let inv_cov := star_covariance mags_obs ext_model RV in
  let cells :=
    recorded_cells stellar_model los_model mags_obs ext_model
      (fst (fst inv_cov)) (snd (fst inv_cov)) (snd inv_cov) use_priors use_gaia RV in
  prior_max <- max_element (map rc_prior cells) ;;
  chi2_min <- min_element (map rc_chi2 cells) ;;
  image <- fold_left (deposit_recorded grid chi2_min prior_max) cells
             (Returns (zeros (N_bins grid 0) (N_bins grid 1))) ;;
  cov_img <- gaussian_filter (snd inv_cov) (snd (fst inv_cov)) (fst (fst inv_cov)) grid
               (Fin 5) 2 (Fin 1) verbosity ;;
  Returns (filter2D image cov_img, chi2_min / of_int (count_passbands mags_obs)).

(** Two states of the loop that differ at most in the images of the stars
    that are still to be evaluated. *)
Definition agree (n k : nat) (stA stB : outcome (TImgStack * list double)) : Prop :=
  match stA, stB with
  | Returns (sA, cA), Returns (sB, cB) =>
      rect sA = rect sB /\ length (img sA) = n /\ length (img sB) = n
      /\ firstn k (img sA) = firstn k (img sB) /\ cA = cB
  | Throws, Throws => True
  | Undefined, Undefined => True
  | _, _ => False
  end.

(** * Properties *)

(** ** Finite arithmetic *)

Lemma ddiv_Fin (a b : R) : b <> 0%R -> Fin a / Fin b = Fin (a / b).
Proof.
  intros Hb. unfold ddiv. destruct (Req_dec_T b 0) as [E|_]; [contradiction|reflexivity].
Qed.

Lemma ddiv_Fin_zero (a : R) : Fin a / Fin 0 = inf_times true a.
Proof.
  unfold ddiv. destruct (Req_dec_T 0 0) as [_|N]; [reflexivity|contradiction N; reflexivity].
Qed.

Lemma dsub_Fin (a b : R) : Fin a - Fin b = Fin (a - b).
Proof. reflexivity. Qed.

Lemma dadd_Fin (a b : R) : Fin a + Fin b = Fin (a + b).
Proof. reflexivity. Qed.

Lemma dmul_Fin (a b : R) : Fin a * Fin b = Fin (a * b).
Proof. reflexivity. Qed.

Lemma dadd_0_l (x : double) : Fin 0 + x = x.
Proof. destruct x; simpl; try reflexivity. f_equal. lra. Qed.

Lemma dlt_Fin_true (a b : R) : (a < b)%R -> (Fin a <? Fin b) = true.
Proof. intros H. unfold dlt. destruct (Rlt_dec a b); [reflexivity|contradiction]. Qed.

Lemma dlt_Fin_false (a b : R) : (b <= a)%R -> (Fin a <? Fin b) = false.
Proof. intros H. unfold dlt. destruct (Rlt_dec a b); [lra|reflexivity]. Qed.

Lemma inf_times_pos (s : bool) (r : R) : (0 < r)%R -> inf_times s r = signed_inf s.
Proof. intros H. unfold inf_times. destruct (Rlt_dec 0 r); [reflexivity|contradiction]. Qed.

Lemma inf_times_neg (s : bool) (r : R) : (r < 0)%R -> inf_times s r = signed_inf (negb s).
Proof.
  intros H. unfold inf_times.
  destruct (Rlt_dec 0 r); [lra|]. destruct (Rlt_dec r 0); [reflexivity|contradiction].
Qed.

Lemma inf_times_zero (s : bool) : inf_times s 0 = NaN.
Proof.
  unfold inf_times. destruct (Rlt_dec 0 0); [lra|]. destruct (Rlt_dec 0 0); [lra|reflexivity].
Qed.

Lemma dsqrt_Fin (a : R) : (0 <= a)%R -> dsqrt (Fin a) = Fin (sqrt a).
Proof. intros H. unfold dsqrt. destruct (Rlt_dec a 0); [lra|reflexivity]. Qed.


Lemma dmul_1_l (x : double) : Fin 1 * x = x.
Proof.
  destruct x as [r| | |]; cbn [dmul]; try reflexivity.
  - f_equal. lra.
  - unfold inf_times. destruct (Rlt_dec 0 1); [reflexivity|lra].
  - unfold inf_times. destruct (Rlt_dec 0 1); [reflexivity|lra].
Qed.

Lemma ddiv_1_r (x : double) : x / Fin 1 = x.
Proof.
  destruct x as [r| | |]; cbn [ddiv]; try reflexivity.
  - destruct (Req_dec_T 1 0); [lra|]. f_equal. field.
  - destruct (Rlt_dec 1 0); [lra|reflexivity].
  - destruct (Rlt_dec 1 0); [lra|reflexivity].
Qed.

Lemma in_range_true (n x : Z) : (0 <= x < n)%Z -> ((0 <=? x) && (x <? n))%Z = true.
Proof. intros H. apply andb_true_iff. split; [apply Z.leb_le|apply Z.ltb_lt]; lia. Qed.

(** A positive semidefinite quadratic form is not negative. *)
Lemma psd_form_nonneg (a b c x y : R) :
  (0 <= a)%R -> (0 <= c)%R -> (0 <= a * c - b * b)%R ->
  (0 <= a * x * x + 2 * (b * x * y) + c * y * y)%R.
Proof.
  intros Ha Hc Hd.
  assert (Hy : (0 <= y * y)%R) by apply Rle_0_sqr.
  destruct (Req_dec a 0) as [Hz|Hnz].
  - assert (Hb2 : (0 <= b * b)%R) by apply Rle_0_sqr.
    assert (Hb : b = 0%R).
    { assert (Hbb : (b * b = 0)%R) by (rewrite Hz in Hd; lra).
      apply Rmult_integral in Hbb. destruct Hbb; assumption. }
    rewrite Hz, Hb.
    assert (0 <= c * (y * y))%R by (apply Rmult_le_pos; assumption). lra.
  - assert (Hpos : (0 < a)%R) by lra.
    apply (Rmult_le_reg_l a); [exact Hpos|]. rewrite Rmult_0_r.
    replace (a * (a * x * x + 2 * (b * x * y) + c * y * y))%R
      with ((a * x + b * y) * (a * x + b * y) + (a * c - b * b) * (y * y))%R by ring.
    assert (0 <= (a * x + b * y) * (a * x + b * y))%R by apply Rle_0_sqr.
    assert (0 <= (a * c - b * b) * (y * y))%R by (apply Rmult_le_pos; assumption).
    lra.
Qed.

Lemma exp_nonpos (x : R) : (x <= 0)%R -> (0 < exp x <= 1)%R.
Proof.
  intros Hx. split; [apply exp_pos|].
  destruct (Req_dec x 0) as [->|Hnz]; [rewrite exp_0; apply Rle_refl|].
  apply Rlt_le. rewrite <- exp_0. apply exp_increasing. lra.
Qed.

Lemma ln_2_bounds : (1 / 2 < ln 2 < 1)%R.
Proof.
  split.
  - pose proof ln_lt_2. lra.
  - rewrite <- (ln_exp 1). apply ln_increasing; [lra|].
    pose proof (exp_ineq1 1). lra.
Qed.

Lemma dexp_Fin (a : R) :
  (ln_underflow < a < ln_overflow)%R -> dexp (Fin a) = Fin (exp a).
Proof.
  intros [Hl Hu]. unfold dexp.
  destruct (Rle_dec a ln_underflow); [lra|].
  destruct (Rle_dec ln_overflow a); [lra|reflexivity].
Qed.

Lemma dexp_0 : dexp (Fin 0) = Fin 1.
Proof.
  rewrite dexp_Fin; [rewrite exp_0; reflexivity|].
  unfold ln_underflow, ln_overflow. pose proof ln_2_bounds. lra.
Qed.


(** The exponential of a value that is not positive lies in [0, 1]. *)
Lemma dexp_nonpos (a : R) :
  (a <= 0)%R -> exists v : R, dexp (Fin a) = Fin v /\ (0 <= v <= 1)%R.
Proof.
  intros H. unfold dexp.
  destruct (Rle_dec a ln_underflow); [exists 0%R; split; [reflexivity|lra]|].
  destruct (Rle_dec ln_overflow a) as [Ho|_].
  - exfalso. unfold ln_overflow in Ho. pose proof ln_2_bounds. nra.
  - exists (exp a). split; [reflexivity|]. pose proof (exp_nonpos a H). lra.
Qed.

(** Down to [-537] it is not rounded to zero. *)
Lemma dexp_moderate (a : R) :
  (-537 <= a <= 0)%R -> exists v : R, dexp (Fin a) = Fin v /\ (0 < v <= 1)%R.
Proof.
  intros [Hl Hu]. exists (exp a). split; [|apply exp_nonpos; exact Hu].
  apply dexp_Fin. unfold ln_underflow, ln_overflow. pose proof ln_2_bounds. nra.
Qed.

Lemma int_in (z : Z) : (INT_MIN <= z <= INT_MAX)%Z -> int_ z = Returns z.
Proof.
  intros [Hl Hu]. unfold int_, in_int.
  rewrite (proj2 (Z.leb_le _ _) Hl), (proj2 (Z.leb_le _ _) Hu). reflexivity.
Qed.


Lemma int_Returns (z z' : Z) :
  int_ z = Returns z' -> z' = z /\ (INT_MIN <= z <= INT_MAX)%Z.
Proof.
  unfold int_, in_int.
  destruct (INT_MIN <=? z)%Z eqn:E1; destruct (z <=? INT_MAX)%Z eqn:E2;
    cbn [andb]; intros H; try discriminate.
  injection H as <-. apply Z.leb_le in E1. apply Z.leb_le in E2. repeat split; assumption.
Qed.

Lemma int_no_throw (z : Z) : int_ z <> Throws.
Proof. unfold int_. destruct (in_int z); discriminate. Qed.

Lemma ddiv_zero_not_finite (x : double) : ~ is_finite (x / Fin 0).
Proof.
  destruct x as [a| | |]; cbn [ddiv is_finite].
  - destruct (Req_dec_T 0 0) as [_|N]; [|contradiction N; reflexivity].
    unfold inf_times.
    destruct (Rlt_dec 0 a); [intros []|]. destruct (Rlt_dec a 0); intros [].
  - destruct (Rlt_dec 0 0); intros [].
  - destruct (Rlt_dec 0 0); intros [].
  - intros [].
Qed.

Lemma ddiv_0_0 : Fin 0 / Fin 0 = NaN.
Proof.
  cbn [ddiv]. destruct (Req_dec_T 0 0) as [_|N]; [|contradiction N; reflexivity].
  unfold inf_times. destruct (Rlt_dec 0 0); [lra|reflexivity].
Qed.

(** ** Sums over the bands *)

Lemma Rsum_nil (f : nat -> R) : Rsum f [] = 0%R.
Proof. reflexivity. Qed.

Lemma Rsum_cons (f : nat -> R) (k : nat) (l : list nat) :
  Rsum f (k :: l) = (f k + Rsum f l)%R.
Proof. reflexivity. Qed.

Lemma Rsum_ext (f g : nat -> R) (l : list nat) :
  (forall i, In i l -> f i = g i) -> Rsum f l = Rsum g l.
Proof.
  induction l as [|k l IH]; intros H; simpl; [reflexivity|].
  rewrite (H k) by (left; reflexivity).
  rewrite IH; [reflexivity|]. intros i Hi. apply H. right. exact Hi.
Qed.

Lemma Rsum_plus (f g : nat -> R) (l : list nat) :
  Rsum (fun i => (f i + g i)%R) l = (Rsum f l + Rsum g l)%R.
Proof. induction l as [|k l IH]; simpl; [lra|rewrite IH; lra]. Qed.

Lemma Rsum_scal (c : R) (f : nat -> R) (l : list nat) :
  Rsum (fun i => (c * f i)%R) l = (c * Rsum f l)%R.
Proof. induction l as [|k l IH]; simpl; [lra|rewrite IH; lra]. Qed.

Lemma Rsum_nonneg (f : nat -> R) (l : list nat) :
  (forall i, In i l -> (0 <= f i)%R) -> (0 <= Rsum f l)%R.
Proof.
  induction l as [|k l IH]; intros H; simpl; [lra|].
  assert (0 <= f k)%R by (apply H; left; reflexivity).
  assert (0 <= Rsum f l)%R by (apply IH; intros i Hi; apply H; right; exact Hi).
  lra.
Qed.

Lemma Rsum_pos (f : nat -> R) (l : list nat) :
  l <> [] -> (forall i, In i l -> (0 < f i)%R) -> (0 < Rsum f l)%R.
Proof.
  destruct l as [|k l]; [congruence|]. intros _ H. simpl.
  assert (0 < f k)%R by (apply H; left; reflexivity).
  assert (0 <= Rsum f l)%R.
  { apply Rsum_nonneg. intros i Hi. apply Rlt_le, H. right. exact Hi. }
  lra.
Qed.

Lemma Rsum_zero_terms (f : nat -> R) (l : list nat) :
  (forall i, In i l -> (0 <= f i)%R) -> Rsum f l = 0%R ->
  forall i, In i l -> f i = 0%R.
Proof.
  induction l as [|k l IH]; intros Hf Hs i Hi; [contradiction|].
  simpl in Hs.
  assert (0 <= f k)%R by (apply Hf; left; reflexivity).
  assert (0 <= Rsum f l)%R by (apply Rsum_nonneg; intros j Hj; apply Hf; right; exact Hj).
  destruct Hi as [<-|Hi]; [lra|].
  apply IH; [intros j Hj; apply Hf; right; exact Hj|lra|exact Hi].
Qed.

Lemma Rsum_all_zero (f : nat -> R) (l : list nat) :
  (forall i, In i l -> f i = 0%R) -> Rsum f l = 0%R.
Proof.
  induction l as [|k l IH]; intros H; simpl; [reflexivity|].
  rewrite (H k) by (left; reflexivity).
  rewrite IH; [lra|]. intros i Hi. apply H. right. exact Hi.
Qed.

Lemma finite_on_tail k l mags_obs mags_model ext_model RV e mo M a :
  finite_on (k :: l) mags_obs mags_model ext_model RV e mo M a ->
  finite_on l mags_obs mags_model ext_model RV e mo M a.
Proof.
  intros [H1 H2 H3 H4 H5].
  split; intros i Hi; [apply H1|apply H2|apply H3|apply H4|apply H5]; right; exact Hi.
Qed.

Lemma ivar_Fin (x : R) : x <> 0%R -> Fin 1 / (Fin x * Fin x) = Fin (1 / (x * x)).
Proof. intros Hx. rewrite dmul_Fin. apply ddiv_Fin. nra. Qed.

Section BandLoops.

Variables (mags_obs : TMagnitudes) (mags_model : TSED) (ext_model : TExtinctionModel).
Variables (RV : double) (e mo M a : nat -> R).

Let w (i : nat) : R := (1 / (e i * e i))%R.
Let dm (i : nat) : R := (mo i - M i)%R.

Lemma covariance_loop (l : list nat) (x y z : R) :
  finite_on l mags_obs mags_model ext_model RV e mo M a ->
  fold_left
    (fun '(inv_sigma2, A_over_sigma2, A2_over_sigma2) i =>
       let A := get_A ext_model RV i in
       let ivar := Fin 1 / (err mags_obs i * err mags_obs i) in
       (inv_sigma2 + ivar, A_over_sigma2 + A * ivar, A2_over_sigma2 + A * A * ivar))
    l (Fin x, Fin y, Fin z)
  = (Fin (x + Rsum w l), Fin (y + Rsum (fun i => a i * w i) l),
     Fin (z + Rsum (fun i => a i * a i * w i) l))%R.
Proof.
  revert x y z. induction l as [|k l IH]; intros x y z H; cbn [fold_left]; cbv beta iota zeta;
    rewrite ?Rsum_nil, ?Rsum_cons.
  - fin_eq; lra.
  - rewrite (fin_err _ _ _ _ _ _ _ _ _ H k), (fin_A _ _ _ _ _ _ _ _ _ H k)
      by (left; reflexivity).
    rewrite ivar_Fin by (apply (fin_err_nz _ _ _ _ _ _ _ _ _ H); left; reflexivity).
    rewrite !dmul_Fin, !dadd_Fin.
    rewrite IH by (eapply finite_on_tail; exact H).
    unfold w. fin_eq; lra.
Qed.

Lemma ml_sums_loop (l : list nat) (x y : R) :
  finite_on l mags_obs mags_model ext_model RV e mo M a ->
  fold_left
    (fun '(dm_over_sigma2, dm_A_over_sigma2) i =>
       let A := get_A ext_model RV i in
       let ivar := Fin 1 / (err mags_obs i * err mags_obs i) in
       let dm := m mags_obs i - absmag mags_model i in
       (dm_over_sigma2 + dm * ivar, dm_A_over_sigma2 + dm * A * ivar))
    l (Fin x, Fin y)
  = (Fin (x + Rsum (fun i => dm i * w i) l),
     Fin (y + Rsum (fun i => dm i * a i * w i) l))%R.
Proof.
  revert x y. induction l as [|k l IH]; intros x y H; cbn [fold_left]; cbv beta iota zeta;
    rewrite ?Rsum_nil, ?Rsum_cons.
  - fin_eq; lra.
  - rewrite (fin_err _ _ _ _ _ _ _ _ _ H k), (fin_A _ _ _ _ _ _ _ _ _ H k),
      (fin_m _ _ _ _ _ _ _ _ _ H k), (fin_absmag _ _ _ _ _ _ _ _ _ H k)
      by (left; reflexivity).
    rewrite ivar_Fin by (apply (fin_err_nz _ _ _ _ _ _ _ _ _ H); left; reflexivity).
    rewrite dsub_Fin, !dmul_Fin, !dadd_Fin.
    rewrite IH by (eapply finite_on_tail; exact H).
    unfold w, dm. fin_eq; lra.
Qed.

Lemma chi2_loop (l : list nat) (mu E x : R) :
  finite_on l mags_obs mags_model ext_model RV e mo M a ->
  fold_left
    (fun chi2 i =>
       let A := get_A ext_model RV i in
       let ivar := Fin 1 / (err mags_obs i * err mags_obs i) in
       let dm := m mags_obs i - absmag mags_model i in
       let delta := dm - Fin E * A - Fin mu in
       chi2 + delta * delta * ivar)
    l (Fin x)
  = Fin (x + Rsum (fun i => (dm i - E * a i - mu) * (dm i - E * a i - mu) * w i) l)%R.
Proof.
  revert x. induction l as [|k l IH]; intros x H; cbn [fold_left]; cbv beta iota zeta;
    rewrite ?Rsum_nil, ?Rsum_cons.
  - fin_eq; lra.
  - rewrite (fin_err _ _ _ _ _ _ _ _ _ H k), (fin_A _ _ _ _ _ _ _ _ _ H k),
      (fin_m _ _ _ _ _ _ _ _ _ H k), (fin_absmag _ _ _ _ _ _ _ _ _ H k)
      by (left; reflexivity).
    rewrite ivar_Fin by (apply (fin_err_nz _ _ _ _ _ _ _ _ _ H); left; reflexivity).
    rewrite !dsub_Fin, !dmul_Fin, !dsub_Fin, !dmul_Fin, !dadd_Fin.
    rewrite IH by (eapply finite_on_tail; exact H).
    unfold w, dm. fin_eq; lra.
Qed.

End BandLoops.

Lemma in_seq_0 (n i : nat) : In i (seq 0 n) <-> (i < n)%nat.
Proof. rewrite in_seq. lia. Qed.

(** ** LinearFitSolver recovers the parameters of noiseless photometry *)

(** The closed-form solution on noiseless photometry. *)
Lemma noiseless_fit
    (mags_obs : TMagnitudes) (mags_model : TSED) (ext_model : TExtinctionModel)
    (RV : double) (e M a : nat -> R) (mu_true E_true c00 c01 c11 : R) :
  finite_on (seq 0 NBANDS) mags_obs mags_model ext_model RV e
    (fun i => M i + mu_true + E_true * a i)%R M a ->
  (forall i, (i < NBANDS)%nat -> (0 < e i)%R) ->
  star_covariance mags_obs ext_model RV = (Fin c00, Fin c01, Fin c11) ->
  (c00 * c11 - c01 * c01 <> 0)%R ->
  star_max_likelihood mags_model mags_obs ext_model (Fin c00) (Fin c01) (Fin c11) RV
  = (Fin mu_true, Fin E_true, Fin 0).
Proof.
  intros Hfin Hpos Hcov Hdet.
  set (mo := fun i => (M i + mu_true + E_true * a i)%R) in *.
  set (l := seq 0 NBANDS) in *.
  set (w := fun i => (1 / (e i * e i))%R).
  assert (Hw : forall i, In i l -> (0 < w i)%R).
  { intros i Hi. apply in_seq_0 in Hi. specialize (Hpos i Hi).
    unfold w. apply Rdiv_lt_0_compat; nra. }
  unfold star_covariance in Hcov. fold l in Hcov.
  rewrite (covariance_loop _ _ _ _ _ _ _ _ _ _ _ _ Hfin) in Hcov.
  fold w in Hcov. rewrite !Rplus_0_l in Hcov.
  injection Hcov as H00 H01 H11.
  change (Rsum (fun i => (a i * w i)%R) l = c01) in H01.
  change (Rsum (fun i => (a i * a i * w i)%R) l = c11) in H11.
  (* the two diagonal sums are positive *)
  assert (Hne : l <> []).
  { intros Hl. rewrite Hl in H00, H01, H11. simpl in H00, H01, H11.
    subst. apply Hdet. lra. }
  assert (P00 : (0 < c00)%R) by (rewrite <- H00; apply Rsum_pos; assumption).
  assert (N11 : (0 <= c11)%R).
  { rewrite <- H11. apply Rsum_nonneg. intros i Hi. specialize (Hw i Hi).
    cbv beta. assert (0 <= a i * a i)%R by nra. nra. }
  assert (P11 : (0 < c11)%R).
  { destruct (Req_dec c11 0) as [Z|NZ]; [exfalso|lra].
    apply Hdet. rewrite Z, <- H01.
    rewrite (Rsum_all_zero (fun i => (a i * w i)%R)); [lra|].
    intros i Hi.
    assert (Hz : (a i * a i * w i = 0)%R).
    { apply (Rsum_zero_terms (fun i => (a i * a i * w i)%R) l); trivial.
      - intros j Hj. specialize (Hw j Hj). cbv beta.
        assert (0 <= a j * a j)%R by nra. nra.
      - rewrite H11. exact Z. }
    specialize (Hw i Hi). nra. }
  (* the two data sums *)
  assert (D0 : Rsum (fun i => ((mo i - M i) * w i)%R) l
               = (mu_true * c00 + E_true * c01)%R).
  { rewrite <- H00, <- H01, <- !Rsum_scal, <- Rsum_plus.
    apply Rsum_ext. intros i _. unfold mo. ring. }
  assert (D1 : Rsum (fun i => ((mo i - M i) * a i * w i)%R) l
               = (mu_true * c01 + E_true * c11)%R).
  { rewrite <- H01, <- H11, <- !Rsum_scal, <- Rsum_plus.
    apply Rsum_ext. intros i _. unfold mo. ring. }
  assert (Hc : (1 - c01 / c00 * (c01 / c11) <> 0)%R).
  { intros Hc. apply Hdet.
    replace (c00 * c11 - c01 * c01)%R
      with (c00 * c11 * (1 - c01 / c00 * (c01 / c11)))%R by (field; lra).
    rewrite Hc. ring. }
  unfold star_max_likelihood, ml_sums. fold l.
  rewrite (ml_sums_loop _ _ _ _ _ _ _ _ _ _ _ Hfin).
  unfold w in D0, D1. rewrite D0, D1, !Rplus_0_l.
  cbv zeta.
  rewrite !ddiv_Fin by lra. rewrite !dmul_Fin, !dsub_Fin.
  rewrite ddiv_Fin by exact Hc. rewrite !dmul_Fin.
  replace (1 / (1 - c01 / c00 * (c01 / c11))
           * ((mu_true * c00 + E_true * c01) / c00
              - c01 / c00 * ((mu_true * c01 + E_true * c11) / c11)))%R
    with mu_true.
  2:{ field. repeat split; try lra; intros Hz; apply Hdet; lra. }
  replace (1 / (1 - c01 / c00 * (c01 / c11))
           * ((mu_true * c01 + E_true * c11) / c11
              - c01 / c11 * ((mu_true * c00 + E_true * c01) / c00)))%R
    with E_true.
  2:{ field. repeat split; try lra; intros Hz; apply Hdet; lra. }
  unfold ml_chi2. fold l.
  rewrite (chi2_loop _ _ _ _ _ _ _ _ _ _ _ _ Hfin).
  rewrite Rsum_all_zero; [fin_eq; lra|].
  intros i _. unfold mo. ring.
Qed.

(** C2.  A star whose magnitudes are generated without noise from a SED at
    [(mu_true, E_true)], [m_i = M_i + mu_true + E_true * A_i], with finite
    positive errors: when the normal equations are not degenerate,
    [star_max_likelihood] against that SED returns [(mu_true, E_true)] and a
    chi-square of zero. *)
Theorem star_max_likelihood_recovers_truth
    (mags_obs : TMagnitudes) (mags_model : TSED) (ext_model : TExtinctionModel)
    (RV : double) (e M a : nat -> R) (mu_true E_true c00 c01 c11 : R) :
  (forall i, (i < NBANDS)%nat -> err mags_obs i = Fin (e i) /\ (0 < e i)%R) ->
  (forall i, (i < NBANDS)%nat -> absmag mags_model i = Fin (M i)) ->
  (forall i, (i < NBANDS)%nat -> get_A ext_model RV i = Fin (a i)) ->
  (forall i, (i < NBANDS)%nat ->
     m mags_obs i = Fin (M i + mu_true + E_true * a i)) ->
  star_covariance mags_obs ext_model RV = (Fin c00, Fin c01, Fin c11) ->
  (c00 * c11 - c01 * c01 <> 0)%R ->
  star_max_likelihood mags_model mags_obs ext_model (Fin c00) (Fin c01) (Fin c11) RV
  = (Fin mu_true, Fin E_true, Fin 0).
Proof.
  intros Herr Hmod HA Hobs Hcov Hdet.
  apply (noiseless_fit mags_obs mags_model ext_model RV e M a); trivial.
  - split; intros i Hi; apply in_seq_0 in Hi.
    + apply Herr; exact Hi.
    + destruct (Herr i Hi) as [_ H]. lra.
    + apply Hobs; exact Hi.
    + apply Hmod; exact Hi.
    + apply HA; exact Hi.
  - intros i Hi. apply Herr. exact Hi.
Qed.

(** ** The sums range over every band *)

(** C1, as amended.  For a star with finite, non-zero errors the sums of
    [star_covariance] and of [star_max_likelihood] range over all [NBANDS]
    bands, band [i] entering with the weight [1 / err_i^2]; a band whose error
    is at least 1e9 has a weight that is positive and at most 1e-18. *)
Theorem band_sums_cover_every_band
    (mags_obs : TMagnitudes) (mags_model : TSED) (ext_model : TExtinctionModel)
    (RV : double) (e mo M a : nat -> R) :
  finite_on (seq 0 NBANDS) mags_obs mags_model ext_model RV e mo M a ->
  star_covariance mags_obs ext_model RV
  = (Fin (Rsum (fun i => 1 / (e i * e i)) (seq 0 NBANDS)),
     Fin (Rsum (fun i => a i * (1 / (e i * e i))) (seq 0 NBANDS)),
     Fin (Rsum (fun i => a i * a i * (1 / (e i * e i))) (seq 0 NBANDS)))%R
  /\ ml_sums mags_model mags_obs ext_model RV
     = (Fin (Rsum (fun i => (mo i - M i) * (1 / (e i * e i))) (seq 0 NBANDS)),
        Fin (Rsum (fun i => (mo i - M i) * a i * (1 / (e i * e i))) (seq 0 NBANDS)))%R
  /\ (forall mu E : R,
        ml_chi2 mags_model mags_obs ext_model (Fin mu) (Fin E) RV
        = Fin (Rsum (fun i => (mo i - M i - E * a i - mu) * (mo i - M i - E * a i - mu)
                              * (1 / (e i * e i))) (seq 0 NBANDS))%R)
  /\ (forall k, (k < NBANDS)%nat -> (1e9 <= e k)%R ->
        (0 < 1 / (e k * e k) <= 1e-18)%R).
Proof.
  intros Hfin. split; [|split; [|split]].
  - unfold star_covariance.
    rewrite (covariance_loop _ _ _ _ _ _ _ _ _ _ _ _ Hfin). fin_eq; lra.
  - unfold ml_sums.
    rewrite (ml_sums_loop _ _ _ _ _ _ _ _ _ _ _ Hfin). fin_eq; lra.
  - intros mu E. unfold ml_chi2.
    rewrite (chi2_loop _ _ _ _ _ _ _ _ _ _ _ _ Hfin). fin_eq; lra.
  - intros k _ Hk. assert (0 < e k * e k)%R by nra. split.
    + apply Rdiv_lt_0_compat; lra.
    + replace 1e-18%R with (1 / 1e18)%R by lra.
      unfold Rdiv. rewrite !Rmult_1_l. apply Rinv_le_contravar; nra.
Qed.

(** ** Loops that fill an image *)

Lemma In_Zrange (n x : Z) : In x (Zrange n) <-> (0 <= x < n)%Z.
Proof.
  unfold Zrange. rewrite in_map_iff. split.
  - intros [k [<- Hk]]. apply in_seq in Hk. lia.
  - intros Hx. exists (Z.to_nat x). split; [lia|]. apply in_seq. lia.
Qed.

Lemma NoDup_Zrange (n : Z) : NoDup (Zrange n).
Proof.
  unfold Zrange. generalize (seq_NoDup (Z.to_nat n) 0).
  induction 1 as [|k l Hk Hl IH]; cbn [map]; constructor; [|exact IH].
  rewrite in_map_iff. intros [k' [Hkk' Hin]].
  apply Nat2Z.inj in Hkk'. subst k'. exact (Hk Hin).
Qed.

Lemma existsb_Zrange (n x : Z) :
  existsb (Z.eqb x) (Zrange n) = ((0 <=? x) && (x <? n))%Z.
Proof.
  destruct (existsb (Z.eqb x) (Zrange n)) eqn:E.
  - apply existsb_exists in E. destruct E as [y [Hy Hxy]].
    apply Z.eqb_eq in Hxy. subst y. apply In_Zrange in Hy.
    symmetry. apply andb_true_iff. split; [apply Z.leb_le|apply Z.ltb_lt]; lia.
  - symmetry. apply not_true_is_false. intros H.
    apply andb_true_iff in H. destruct H as [H1 H2].
    apply Z.leb_le in H1. apply Z.ltb_lt in H2.
    assert (Hin : existsb (Z.eqb x) (Zrange n) = true).
    { apply existsb_exists. exists x. split; [apply In_Zrange; lia|apply Z.eqb_refl]. }
    congruence.
Qed.

Lemma existsb_notin (x : Z) (l : list Z) : ~ In x l -> existsb (Z.eqb x) l = false.
Proof.
  intros H. apply not_true_is_false. intros E. apply H.
  apply existsb_exists in E. destruct E as [y [Hy Hxy]].
  apply Z.eqb_eq in Hxy. subst y. exact Hy.
Qed.

(** A loop over the columns [l] of row [i] adds [f j] at column [j]. *)
Lemma row_loop (f : Z -> double) (i : Z) (l : list Z) :
  NoDup l -> forall img_ : Mat,
  let r := fold_left (fun img_ j => mat_add img_ i j (f j)) l img_ in
  rows r = rows img_ /\ cols r = cols img_ /\
  forall i' j',
    at_ r i' j'
    = if ((i' =? i)%Z && existsb (Z.eqb j') l)%bool
      then at_ img_ i' j' + f j' else at_ img_ i' j'.
Proof.
  induction 1 as [|a l Ha Hl IH]; intros img_; cbn [fold_left existsb].
  - repeat split. intros i' j'. rewrite andb_false_r. reflexivity.
  - destruct (IH (mat_add img_ i a (f a))) as [Hr [Hc Hat]].
    cbv zeta. rewrite Hr, Hc. repeat split. intros i' j'. rewrite Hat.
    cbn [mat_add at_].
    destruct (Z.eqb_spec i' i) as [->|Hi]; cbn [andb]; [|reflexivity].
    destruct (Z.eqb_spec j' a) as [->|Hj]; cbn [orb andb].
    + rewrite (existsb_notin a l Ha). reflexivity.
    + reflexivity.
Qed.

(** Two nested loops over the rows [li] and the columns [lj] add [f i j] at
    [(i, j)]. *)
Lemma grid_loop (f : Z -> Z -> double) (lj : list Z) (li : list Z) :
  NoDup lj -> NoDup li -> forall img_ : Mat,
  let r := fold_left
             (fun img_ i => fold_left (fun img_ j => mat_add img_ i j (f i j)) lj img_)
             li img_ in
  rows r = rows img_ /\ cols r = cols img_ /\
  forall i' j',
    at_ r i' j'
    = if (existsb (Z.eqb i') li && existsb (Z.eqb j') lj)%bool
      then at_ img_ i' j' + f i' j' else at_ img_ i' j'.
Proof.
  intros Hlj. induction 1 as [|a li Ha Hli IH]; intros img_; cbn [fold_left existsb].
  - repeat split.
  - destruct (row_loop (f a) a lj Hlj img_) as [Hr1 [Hc1 Hat1]].
    destruct (IH (fold_left (fun img_ j => mat_add img_ a j (f a j)) lj img_))
      as [Hr [Hc Hat]].
    cbv zeta. rewrite Hr, Hc, Hr1, Hc1. repeat split. intros i' j'.
    rewrite Hat, Hat1.
    destruct (Z.eqb_spec i' a) as [->|Hi]; cbn [orb andb].
    + rewrite (existsb_notin a li Ha). cbn [andb]. reflexivity.
    + reflexivity.
Qed.

(** ** Conversions to [int] *)

Lemma Ztrunc_IZR (z : Z) : Ztrunc (IZR z) = z.
Proof.
  unfold Ztrunc. destruct (Rlt_dec (IZR z) 0).
  - unfold Zceil. rewrite ZfloorNZ. lia.
  - apply ZfloorZ.
Qed.

(** ** KernelBuilder on a positive semidefinite inverse covariance *)

Lemma filter_sigma_Fin (a b c : R) :
  (0 <= a)%R -> (0 <= c)%R -> (0 <= a * c - b * b)%R ->
  filter_sigma (Fin a) (Fin b) (Fin c)
  = (Fin (sqrt (c / (a * c - b * b + 1e-5))), Fin (sqrt (a / (a * c - b * b + 1e-5)))).
Proof.
  intros Ha Hc Hd. unfold filter_sigma.
  rewrite !dmul_Fin, dsub_Fin, dadd_Fin.
  rewrite !ddiv_Fin by lra.
  rewrite !dsqrt_Fin; [reflexivity| |].
  - apply Rle_mult_inv_pos; lra.
  - apply Rle_mult_inv_pos; lra.
Qed.

Lemma Zceil_IZR (z : Z) : Zceil (IZR z) = z.
Proof. apply Zceil_eq. lra. Qed.

Lemma filter_width_Fin (grid : TRect) (ns s d : R) (min_width : Z) (i : nat) :
  dx grid i = Fin d -> d <> 0%R ->
  (INT_MIN <= Zceil (ns * s / d) <= INT_MAX)%Z ->
  filter_width grid (Fin ns) min_width (Fin s) i
  = Returns (Z.max min_width (Zceil (ns * s / d))).
Proof.
  intros Hd Hnz Hr. unfold filter_width.
  rewrite Hd, dmul_Fin, ddiv_Fin by exact Hnz.
  cbn [dceil to_int]. rewrite Ztrunc_IZR, int_in by exact Hr. reflexivity.
Qed.


(** The weight at the sub-cell [(i, j)]. *)
Lemma filter_weight_Fin (a b c : R) (grid : TRect) (d0 d1 w0 h0 : R)
    (subsample i j : Z) :
  dx grid 0 = Fin d0 -> dx grid 1 = Fin d1 -> subsample <> 0%Z ->
  filter_weight (Fin a) (Fin b) (Fin c) grid subsample (Fin w0) (Fin h0) i j
  = dexp (Fin (-0.5 * (a * ((IZR i - w0) * d0 / IZR subsample)
                         * ((IZR i - w0) * d0 / IZR subsample)
                       + 2 * (b * ((IZR i - w0) * d0 / IZR subsample)
                                * ((IZR j - h0) * d1 / IZR subsample))
                       + c * ((IZR j - h0) * d1 / IZR subsample)
                           * ((IZR j - h0) * d1 / IZR subsample)))).
Proof.
  intros H0 H1 Hs. unfold filter_weight, of_int. rewrite H0, H1.
  assert (Hnz : IZR subsample <> 0%R) by (apply not_0_IZR; exact Hs).
  cbv zeta.
  rewrite !dsub_Fin, !dmul_Fin, !ddiv_Fin by exact Hnz.
  rewrite !dmul_Fin, !dadd_Fin, !dmul_Fin.
  reflexivity.
Qed.

(** On a positive semidefinite inverse covariance every weight lies in
    [0, 1]. *)
Lemma filter_weight_nonneg (a b c : R) (grid : TRect) (d0 d1 w0 h0 : R)
    (subsample i j : Z) :
  (0 <= a)%R -> (0 <= c)%R -> (0 <= a * c - b * b)%R ->
  dx grid 0 = Fin d0 -> dx grid 1 = Fin d1 -> subsample <> 0%Z ->
  exists v : R,
    filter_weight (Fin a) (Fin b) (Fin c) grid subsample (Fin w0) (Fin h0) i j = Fin v
    /\ (0 <= v <= 1)%R.
Proof.
  intros Ha Hc Hd H0 H1 Hs.
  rewrite (filter_weight_Fin a b c grid d0 d1 w0 h0 subsample i j H0 H1 Hs).
  apply dexp_nonpos.
  pose proof (psd_form_nonneg a b c ((IZR i - w0) * d0 / IZR subsample)
                ((IZR j - h0) * d1 / IZR subsample) Ha Hc Hd).
  lra.
Qed.

(** The sub-cell [(s - 1) / 2] of the block in the middle: at the centre of
    the kernel when [s] is odd, half a sub-cell before it when [s] is
    even. *)
Lemma centre_offset (s width : Z) :
  (0 < s)%Z ->
  let k := ((s - 1) / 2)%Z in
  (0 <= k < s)%Z
  /\ (- (1 / 2) <= IZR (s * width + k) - 0.5 * IZR (s * (2 * width + 1) - 1) <= 0)%R
  /\ (Z.odd s = true ->
      (IZR (s * width + k) - 0.5 * IZR (s * (2 * width + 1) - 1) = 0)%R).
Proof.
  intros Hs k.
  assert (Hk : (2 * k <= s - 1 < 2 * k + 2)%Z).
  { unfold k. pose proof (Z.div_mod (s - 1) 2 ltac:(lia)).
    pose proof (Z.mod_pos_bound (s - 1) 2 ltac:(lia)). lia. }
  assert (E : (IZR (s * width + k) - 0.5 * IZR (s * (2 * width + 1) - 1)
               = IZR k - (IZR s - 1) / 2)%R).
  { rewrite minus_IZR, plus_IZR, !mult_IZR, plus_IZR, mult_IZR. lra. }
  assert (H1 : (2 * IZR k <= IZR s - 1)%R).
  { rewrite <- mult_IZR, <- minus_IZR. apply IZR_le. lia. }
  assert (H2 : (IZR s - 1 <= 2 * IZR k + 1)%R).
  { replace (2 * IZR k + 1)%R with (IZR (2 * k + 1))
      by (rewrite plus_IZR, mult_IZR; reflexivity).
    rewrite <- minus_IZR. apply IZR_le. lia. }
  split; [lia|]. split; [rewrite E; lra|].
  intros Hodd. rewrite E.
  apply Z.odd_spec in Hodd. destruct Hodd as [q Hq].
  assert (Hkq : (2 * k = s - 1)%Z) by lia.
  assert (H3 : (2 * IZR k = IZR s - 1)%R).
  { rewrite <- mult_IZR, <- minus_IZR. f_equal. exact Hkq. }
  lra.
Qed.

(** The weight at that sub-cell is positive: it is [exp(0)] when [s] is
    odd, and it is not rounded to zero when the quadratic form is moderate
    over half a bin. *)
Lemma filter_weight_centre (a b c : R) (grid : TRect) (d0 d1 : R)
    (s width0 width1 : Z) :
  (0 <= a)%R -> (0 <= c)%R -> (0 <= a * c - b * b)%R ->
  dx grid 0 = Fin d0 -> dx grid 1 = Fin d1 -> (0 < d0)%R -> (0 < d1)%R ->
  (0 < s)%Z ->
  (Z.odd s = true \/ (a * d0 * d0 + c * d1 * d1 <= 200)%R) ->
  pos_fin (filter_weight (Fin a) (Fin b) (Fin c) grid s
             (Fin (0.5 * IZR (s * (2 * width0 + 1) - 1)))
             (Fin (0.5 * IZR (s * (2 * width1 + 1) - 1)))
             (s * width0 + (s - 1) / 2) (s * width1 + (s - 1) / 2)).
Proof.
  intros Ha Hc Hd H0 H1 Hd0 Hd1 Hs Hcen.
  rewrite (filter_weight_Fin a b c grid d0 d1 _ _ s _ _ H0 H1) by lia.
  destruct (centre_offset s width0 Hs) as [_ [Ht0 Ho0]].
  destruct (centre_offset s width1 Hs) as [_ [Ht1 Ho1]].
  set (t0 := (IZR (s * width0 + (s - 1) / 2)
              - 0.5 * IZR (s * (2 * width0 + 1) - 1))%R) in *.
  set (t1 := (IZR (s * width1 + (s - 1) / 2)
              - 0.5 * IZR (s * (2 * width1 + 1) - 1))%R) in *.
  assert (Hsr : (1 <= IZR s)%R) by (apply IZR_le; lia).
  assert (Hinv : (0 < / IZR s <= 1)%R).
  { split; [apply Rinv_0_lt_compat; lra|].
    rewrite <- Rinv_1. apply Rinv_le_contravar; lra. }
  set (x := (t0 * d0 / IZR s)%R). set (y := (t1 * d1 / IZR s)%R).
  assert (Hq : (0 <= a * x * x + 2 * (b * x * y) + c * y * y)%R)
    by (apply psd_form_nonneg; assumption).
  assert (Hexp : (-537 <= -0.5 * (a * x * x + 2 * (b * x * y) + c * y * y) <= 0)%R).
  { split; [|lra].
    destruct Hcen as [Hodd|Hbound].
    - assert (Ex : x = 0%R) by (unfold x; rewrite (Ho0 Hodd); unfold Rdiv; ring).
      assert (Ey : y = 0%R) by (unfold y; rewrite (Ho1 Hodd); unfold Rdiv; ring).
      rewrite Ex, Ey. lra.
    - set (u0 := (t0 * / IZR s)%R). set (u1 := (t1 * / IZR s)%R).
      assert (Hu0 : (- (1 / 2) <= u0 <= 0)%R) by (unfold u0; nra).
      assert (Hu1 : (- (1 / 2) <= u1 <= 0)%R) by (unfold u1; nra).
      assert (Ex : x = (u0 * d0)%R) by (unfold x, u0, Rdiv; ring).
      assert (Ey : y = (u1 * d1)%R) by (unfold y, u1, Rdiv; ring).
      assert (Hu0' : (u0 * u0 <= 1 / 4)%R) by nra.
      assert (Hu1' : (u1 * u1 <= 1 / 4)%R) by nra.
      assert (Hxx : (x * x <= d0 * d0 / 4)%R).
      { rewrite Ex. replace (u0 * d0 * (u0 * d0))%R with (u0 * u0 * (d0 * d0))%R by ring.
        assert (0 <= d0 * d0)%R by nra. nra. }
      assert (Hyy : (y * y <= d1 * d1 / 4)%R).
      { rewrite Ey. replace (u1 * d1 * (u1 * d1))%R with (u1 * u1 * (d1 * d1))%R by ring.
        assert (0 <= d1 * d1)%R by nra. nra. }
      pose proof (psd_form_nonneg a b c x (- y) Ha Hc Hd) as Hm.
      assert (Hax : (a * (x * x) <= a * (d0 * d0 / 4))%R)
        by (apply Rmult_le_compat_l; assumption).
      assert (Hcy : (c * (y * y) <= c * (d1 * d1 / 4))%R)
        by (apply Rmult_le_compat_l; assumption).
      lra. }
  destruct (dexp_moderate _ Hexp) as [v [Ev Hv]].
  exists v. split; [exact Ev|lra].
Qed.

Lemma centre_has_weight_moderate (a b c : R) (grid : TRect) (d0 d1 : R)
    (s width0 width1 : Z) :
  (0 <= a)%R -> (0 <= c)%R -> (0 <= a * c - b * b)%R ->
  dx grid 0 = Fin d0 -> dx grid 1 = Fin d1 -> (0 < d0)%R -> (0 < d1)%R ->
  (0 < s)%Z ->
  (Z.odd s = true \/ (a * d0 * d0 + c * d1 * d1 <= 200)%R) ->
  centre_has_weight (Fin a) (Fin b) (Fin c) grid s width0 width1.
Proof.
  intros Ha Hc Hd H0 H1 Hd0 Hd1 Hs Hcen.
  destruct (centre_offset s width0 Hs) as [Hk _].
  exists ((s - 1) / 2)%Z, ((s - 1) / 2)%Z. split; [exact Hk|]. split; [exact Hk|].
  exact (filter_weight_centre a b c grid d0 d1 s width0 width1
           Ha Hc Hd H0 H1 Hd0 Hd1 Hs Hcen).
Qed.
(** ** Sums over a block of an image *)

Lemma row_sum (g : Z -> double) (l : list Z) (u : R) :
  (forall y, In y l -> nonneg_fin (g y)) ->
  exists v : R,
    fold_left (fun acc y => acc + g y) l (Fin u) = Fin v /\ (u <= v)%R
    /\ forall y, In y l -> pos_fin (g y) -> (u < v)%R.
Proof.
  revert u. induction l as [|x l IH]; intros u H; cbn [fold_left].
  - exists u. split; [reflexivity|]. split; [lra|]. intros y [].
  - destruct (H x (or_introl eq_refl)) as [gx [Egx Hgx]].
    rewrite Egx, dadd_Fin.
    destruct (IH (u + gx)%R) as [v [Ev [Hle Hpos]]];
      [intros y Hy; apply H; right; exact Hy|].
    exists v. split; [exact Ev|]. split; [lra|].
    intros y [<-|Hy] [gy [Egy Hgy]].
    + rewrite Egx in Egy. injection Egy as <-. lra.
    + assert (u + gx < v)%R by (apply (Hpos y Hy); exists gy; split; assumption). lra.
Qed.

Lemma block_sum (f : Z -> Z -> double) (la lb : list Z) (u : R) :
  (forall x y, In x la -> In y lb -> nonneg_fin (f x y)) ->
  exists v : R,
    fold_left (fun acc x => fold_left (fun acc y => acc + f x y) lb acc) la (Fin u)
    = Fin v
    /\ (u <= v)%R
    /\ forall x y, In x la -> In y lb -> pos_fin (f x y) -> (u < v)%R.
Proof.
  revert u. induction la as [|x la IH]; intros u H; cbn [fold_left].
  - exists u. split; [reflexivity|]. split; [lra|]. intros x y [].
  - destruct (row_sum (f x) lb u) as [u' [Eu' [Hle' Hpos']]];
      [intros y Hy; apply H; [left; reflexivity|exact Hy]|].
    rewrite Eu'.
    destruct (IH u') as [v [Ev [Hle Hpos]]];
      [intros x' y Hx' Hy; apply H; [right; exact Hx'|exact Hy]|].
    exists v. split; [exact Ev|]. split; [lra|].
    intros x' y [<-|Hx'] Hy Hp.
    + pose proof (Hpos' y Hy Hp). lra.
    + pose proof (Hpos x' y Hx' Hy Hp). lra.
Qed.

(** A cell of a block-averaged image of values that are finite and not
    negative is finite and not negative, and positive when a cell of its
    block is. *)
Lemma resize_area_block (src : Mat) (s drows dcols : Z) :
  (0 < s)%Z -> (0 < drows)%Z -> (0 < dcols)%Z ->
  rows src = (s * drows)%Z -> cols src = (s * dcols)%Z ->
  (forall i j, (0 <= i < rows src)%Z -> (0 <= j < cols src)%Z ->
     nonneg_fin (at_ src i j)) ->
  forall r c, (0 <= r < drows)%Z -> (0 <= c < dcols)%Z ->
  exists v : R,
    at_ (resize_area src drows dcols) r c = Fin v /\ (0 <= v)%R
    /\ forall x y, (0 <= x < s)%Z -> (0 <= y < s)%Z ->
         pos_fin (at_ src (s * r + x) (s * c + y)) -> (0 < v)%R.
Proof.
  intros Hs Hr Hc Hrows Hcols Hsrc r c Hri Hci.
  unfold resize_area. cbn [at_].
  rewrite Hrows, Hcols, !Z.div_mul by lia.
  destruct (block_sum (fun x y => at_ src (s * r + x)%Z (s * c + y)%Z)
              (Zrange s) (Zrange s) 0) as [v [Ev [Hle Hpos]]].
  { intros x y Hx Hy. apply In_Zrange in Hx. apply In_Zrange in Hy.
    apply Hsrc; rewrite ?Hrows, ?Hcols; nia. }
  rewrite Ev. unfold of_int.
  assert (Hss : (0 < IZR (s * s))%R) by (apply IZR_lt; nia).
  rewrite ddiv_Fin by lra.
  exists (v / IZR (s * s))%R. split; [reflexivity|].
  split; [apply Rle_mult_inv_pos; lra|].
  intros x y Hx Hy Hp.
  apply Rdiv_lt_0_compat; [|exact Hss].
  apply (Hpos x y); [apply In_Zrange; exact Hx|apply In_Zrange; exact Hy|exact Hp].
Qed.

(** ** The extra smoothing *)


Lemma ddiv_NaN_r (x : double) : x / NaN = NaN.
Proof. destruct x; reflexivity. Qed.

(** On a positive definite inverse covariance the extra smoothing divides by
    two positive determinants and returns a positive definite inverse
    covariance, whose diagonal is at most the inverse of the variance that
    was added. *)
Lemma extra_smoothing_positive_definite (a b c : R) (grid : TRect) (ad d0 d1 : R) :
  (0 < a)%R -> (0 < c)%R -> (0 < a * c - b * b)%R ->
  (0 < ad)%R -> dx grid 0 = Fin d0 -> dx grid 1 = Fin d1 ->
  exists a' b' c' : R,
    add_extra_smoothing (Fin a) (Fin b) (Fin c) grid (Fin ad) = (Fin a', Fin b', Fin c')
    /\ (0 < a')%R /\ (0 < c')%R /\ (0 < a' * c' - b' * b')%R
    /\ (a' * (ad * d0 * (ad * d0)) <= 1)%R /\ (c' * (ad * d1 * (ad * d1)) <= 1)%R.
Proof.
  intros Ha Hc Hd Had H0 H1.
  unfold add_extra_smoothing, dgt. rewrite dlt_Fin_true by exact Had.
  rewrite H0, H1. cbv zeta.
  set (det := (a * c - b * b)%R) in *.
  set (p := (ad * d0 * (ad * d0))%R). set (q := (ad * d1 * (ad * d1))%R).
  assert (Hp : (0 <= p)%R) by (unfold p; nra).
  assert (Hq : (0 <= q)%R) by (unfold q; nra).
  rewrite !dmul_Fin, dsub_Fin. fold det p q. cbn [dneg].
  rewrite !ddiv_Fin by lra.
  rewrite !dadd_Fin, !dmul_Fin, dsub_Fin.
  set (x := (c / det)%R). set (y := (a / det)%R). set (z := (- b / det)%R).
  assert (Hx : (0 < x)%R) by (apply Rdiv_lt_0_compat; lra).
  assert (Hy : (0 < y)%R) by (apply Rdiv_lt_0_compat; lra).
  assert (Hxyz : (x * y - z * z = 1 / det)%R) by (unfold x, y, z, det; field; fold det; lra).
  assert (Hid : (0 < 1 / det)%R) by (apply Rdiv_lt_0_compat; lra).
  set (det' := ((x + p) * (y + q) - z * z)%R).
  assert (Hd' : (0 < det')%R) by (unfold det'; nra).
  rewrite !ddiv_Fin by lra. cbn [dneg]. rewrite !ddiv_Fin by lra.
  exists ((y + q) / det')%R, (- z / det')%R, ((x + p) / det')%R.
  split; [reflexivity|].
  split; [apply Rdiv_lt_0_compat; lra|].
  split; [apply Rdiv_lt_0_compat; lra|].
  split.
  { replace ((y + q) / det' * ((x + p) / det') - - z / det' * (- z / det'))%R
      with (1 / det')%R by (unfold det'; field; fold det'; lra).
    apply Rdiv_lt_0_compat; lra. }
  fold p q. split.
  - apply (Rmult_le_reg_r det'); [exact Hd'|].
    replace ((y + q) / det' * p * det')%R with ((y + q) * p)%R by (field; lra).
    unfold det'. nra.
  - apply (Rmult_le_reg_r det'); [exact Hd'|].
    replace ((x + p) / det' * q * det')%R with ((x + p) * q)%R by (field; lra).
    unfold det'. nra.
Qed.

(** On a singular inverse covariance the extra smoothing divides by a
    determinant that is exactly zero, and nothing finite comes out. *)
Lemma extra_smoothing_singular (a b c : R) (grid : TRect) (ad d0 d1 : R) :
  (0 < a)%R -> (0 < c)%R -> (a * c - b * b = 0)%R ->
  (0 < ad)%R -> dx grid 0 = Fin d0 -> dx grid 1 = Fin d1 ->
  add_extra_smoothing (Fin a) (Fin b) (Fin c) grid (Fin ad) = (NaN, NaN, NaN).
Proof.
  intros Ha Hc Hd Had H0 H1.
  unfold add_extra_smoothing, dgt. rewrite dlt_Fin_true by exact Had.
  rewrite H0, H1. cbv zeta.
  rewrite !dmul_Fin, dsub_Fin, Hd, !ddiv_Fin_zero.
  rewrite !inf_times_pos by assumption. cbn [dneg].
  rewrite ddiv_Fin_zero.
  assert (Hb : (b <> 0)%R) by (intros ->; nra).
  assert (Hsq : inf_times true (- b) * inf_times true (- b) = PInf).
  { destruct (Rlt_dec b 0).
    - rewrite inf_times_pos by lra. reflexivity.
    - rewrite inf_times_neg by lra. reflexivity. }
  cbn [signed_inf dadd]. rewrite Hsq. cbn [dmul dsub dneg dadd].
  rewrite !ddiv_NaN_r. reflexivity.
Qed.

(** The sub-sampled image holds the weight of each of its cells. *)
Lemma filter_sub_image_at (a b c : double) (grid : TRect) (subsample w h : Z)
    (w0 h0 : double) :
  let img_sub :=
    filter_sub_image a b c grid subsample h (subsample * w) (subsample * h) w0 h0 in
  rows img_sub = (subsample * w)%Z /\ cols img_sub = (subsample * h)%Z
  /\ forall i j, (0 <= i < subsample * w)%Z -> (0 <= j < subsample * h)%Z ->
       at_ img_sub i j = filter_weight a b c grid subsample w0 h0 i j.
Proof.
  unfold filter_sub_image.
  pose proof (grid_loop (filter_weight a b c grid subsample w0 h0)
                (Zrange (subsample * h)) (Zrange (subsample * w))
                (NoDup_Zrange _) (NoDup_Zrange _)
                (zeros (subsample * w) (subsample * h))) as HG.
  cbv zeta in HG |- *. destruct HG as [Hr [Hcc Hat]].
  rewrite Hr, Hcc. cbn [zeros rows cols]. repeat split.
  intros i j Hi Hj. rewrite Hat, !existsb_Zrange, !in_range_true by lia.
  cbn [andb zeros at_]. apply dadd_0_l.
Qed.

(** The width along an axis is not negative. *)
Lemma Zceil_width_nonneg (ns s d : R) :
  (0 <= ns)%R -> (0 <= s)%R -> (0 < d)%R -> (0 <= Zceil (ns * s / d))%Z.
Proof.
  intros Hns Hs Hd. apply le_IZR.
  pose proof (Zceil_bound (ns * s / d)).
  assert (0 <= ns * s / d)%R.
  { apply Rle_mult_inv_pos; [|exact Hd]. apply Rmult_le_pos; assumption. }
  lra.
Qed.

(** On a finite, positive semidefinite inverse covariance whose widths and
    sub-sampled sides are [int]s, [build_filter] returns the reduced and
    normalised sub-sampled image. *)
Lemma build_filter_Returns (grid : TRect) (min_width subsample : Z)
    (a b c d0 d1 ns : R) :
  (0 <= a)%R -> (0 <= c)%R -> (0 <= a * c - b * b)%R ->
  dx grid 0 = Fin d0 -> dx grid 1 = Fin d1 -> (0 < d0)%R -> (0 < d1)%R ->
  (0 <= ns)%R -> (0 <= min_width)%Z -> (0 <= subsample)%Z ->
  let width0 :=
    Z.max min_width (Zceil (ns * sqrt (c / (a * c - b * b + 1e-5)) / d0)) in
  let width1 :=
    Z.max min_width (Zceil (ns * sqrt (a / (a * c - b * b + 1e-5)) / d1)) in
  (2 * width0 + 1 <= INT_MAX)%Z -> (2 * width1 + 1 <= INT_MAX)%Z ->
  (subsample * (2 * width0 + 1) <= INT_MAX)%Z ->
  (subsample * (2 * width1 + 1) <= INT_MAX)%Z ->
  build_filter (Fin a) (Fin b) (Fin c) grid (Fin ns) min_width subsample
  = Returns
      (let w := (2 * width0 + 1)%Z in
       let h := (2 * width1 + 1)%Z in
       let img_down :=
         resize_area
           (filter_sub_image (Fin a) (Fin b) (Fin c) grid subsample h
              (subsample * w) (subsample * h)
              (Fin (0.5 * IZR (subsample * w - 1)))
              (Fin (0.5 * IZR (subsample * h - 1)))) w h in
       mat_div img_down (at_ img_down width0 width1)).
Proof.
  intros Ha Hc Hd H0 H1 Hd0 Hd1 Hns Hmin Hsub width0 width1 Hi0 Hi1 Hs0 Hs1.
  pose proof (Zceil_width_nonneg ns (sqrt (c / (a * c - b * b + 1e-5))) d0
                Hns (sqrt_pos _) Hd0) as Hz0.
  pose proof (Zceil_width_nonneg ns (sqrt (a / (a * c - b * b + 1e-5))) d1
                Hns (sqrt_pos _) Hd1) as Hz1.
  assert (Hw0 : (0 <= width0)%Z) by (unfold width0; lia).
  assert (Hw1 : (0 <= width1)%Z) by (unfold width1; lia).
  unfold INT_MAX in Hi0, Hi1, Hs0, Hs1.
  unfold build_filter.
  rewrite (filter_sigma_Fin a b c Ha Hc Hd).
  rewrite (filter_width_Fin grid ns _ d0 min_width 0 H0)
    by (try lra; unfold INT_MIN, INT_MAX; unfold width0 in Hi0; lia).
  rewrite (filter_width_Fin grid ns _ d1 min_width 1 H1)
    by (try lra; unfold INT_MIN, INT_MAX; unfold width1 in Hi1; lia).
  cbn [bind]. fold width0 width1.
  rewrite (int_in (2 * width0 + 1)) by (unfold INT_MIN, INT_MAX; lia). cbn [bind].
  rewrite (int_in (2 * width1 + 1)) by (unfold INT_MIN, INT_MAX; lia). cbn [bind].
  rewrite (int_in (subsample * (2 * width0 + 1))) by (unfold INT_MIN, INT_MAX; nia).
  cbn [bind].
  rewrite (int_in (subsample * (2 * width1 + 1))) by (unfold INT_MIN, INT_MAX; nia).
  cbn [bind].
  unfold of_int. cbv zeta. rewrite !dmul_Fin. reflexivity.
Qed.

(** Without sub-sampling (a factor of zero) the sub-sampled image is empty
    and every bin of the kernel is the average of no value at all, 0/0. *)
Lemma build_filter_subsample_0 (grid : TRect) (min_width : Z) (a b c d0 d1 ns : R) :
  (0 <= a)%R -> (0 <= c)%R -> (0 <= a * c - b * b)%R ->
  dx grid 0 = Fin d0 -> dx grid 1 = Fin d1 -> (0 < d0)%R -> (0 < d1)%R ->
  (0 <= ns)%R -> (0 <= min_width)%Z ->
  let width0 :=
    Z.max min_width (Zceil (ns * sqrt (c / (a * c - b * b + 1e-5)) / d0)) in
  let width1 :=
    Z.max min_width (Zceil (ns * sqrt (a / (a * c - b * b + 1e-5)) / d1)) in
  (2 * width0 + 1 <= INT_MAX)%Z -> (2 * width1 + 1 <= INT_MAX)%Z ->
  exists K : Mat,
    build_filter (Fin a) (Fin b) (Fin c) grid (Fin ns) min_width 0 = Returns K
    /\ rows K = (2 * width0 + 1)%Z /\ cols K = (2 * width1 + 1)%Z
    /\ forall i j, at_ K i j = NaN.
Proof.
  intros Ha Hc Hd H0 H1 Hd0 Hd1 Hns Hmin width0 width1 Hi0 Hi1.
  rewrite (build_filter_Returns grid min_width 0 a b c d0 d1 ns)
    by (trivial; unfold INT_MAX; lia).
  fold width0 width1. cbv zeta.
  eexists. split; [reflexivity|].
  cbn [mat_div rows cols resize_area]. split; [reflexivity|]. split; [reflexivity|].
  intros i j. cbn [mat_div at_ resize_area].
  unfold filter_sub_image. cbn [Z.mul Zrange Z.to_nat seq map fold_left zeros rows cols].
  rewrite !Zdiv_0_l. cbn [Z.mul Zrange Z.to_nat seq map fold_left].
  unfold of_int. rewrite ddiv_0_0. reflexivity.
Qed.

(** The kernel of a finite, positive semidefinite inverse covariance whose
    sub-sampled image has sides that are [int]s and whose weights in the
    middle are not all rounded to zero. *)
Lemma build_filter_psd (grid : TRect) (min_width subsample : Z) (a b c d0 d1 ns : R) :
  (0 <= a)%R -> (0 <= c)%R -> (0 <= a * c - b * b)%R ->
  dx grid 0 = Fin d0 -> dx grid 1 = Fin d1 -> (0 < d0)%R -> (0 < d1)%R ->
  (0 <= ns)%R -> (0 <= min_width)%Z -> (0 < subsample)%Z ->
  let width0 :=
    Z.max min_width (Zceil (ns * sqrt (c / (a * c - b * b + 1e-5)) / d0)) in
  let width1 :=
    Z.max min_width (Zceil (ns * sqrt (a / (a * c - b * b + 1e-5)) / d1)) in
  (subsample * (2 * width0 + 1) <= INT_MAX)%Z ->
  (subsample * (2 * width1 + 1) <= INT_MAX)%Z ->
  centre_has_weight (Fin a) (Fin b) (Fin c) grid subsample width0 width1 ->
  exists K : Mat,
    build_filter (Fin a) (Fin b) (Fin c) grid (Fin ns) min_width subsample = Returns K
    /\ rows K = (2 * width0 + 1)%Z /\ cols K = (2 * width1 + 1)%Z
    /\ at_ K width0 width1 = Fin 1
    /\ (forall i j, (0 <= i < rows K)%Z -> (0 <= j < cols K)%Z ->
          nonneg_fin (at_ K i j)).
Proof.
  intros Ha Hc Hd H0 H1 Hd0 Hd1 Hns Hmin Hsub width0 width1 Hi0 Hi1 Hcen.
  pose proof (Zceil_width_nonneg ns (sqrt (c / (a * c - b * b + 1e-5))) d0
                Hns (sqrt_pos _) Hd0) as Hz0.
  pose proof (Zceil_width_nonneg ns (sqrt (a / (a * c - b * b + 1e-5))) d1
                Hns (sqrt_pos _) Hd1) as Hz1.
  assert (Hw0 : (0 <= width0)%Z) by (unfold width0; lia).
  assert (Hw1 : (0 <= width1)%Z) by (unfold width1; lia).
  unfold INT_MAX in Hi0, Hi1.
  rewrite (build_filter_Returns grid min_width subsample a b c d0 d1 ns)
    by (trivial; try lia; unfold INT_MAX; fold width0 width1; nia).
  fold width0 width1. cbv zeta.
  set (w := (2 * width0 + 1)%Z) in *. set (h := (2 * width1 + 1)%Z) in *.
  set (img_sub := filter_sub_image _ _ _ _ _ _ _ _ _ _).
  destruct (filter_sub_image_at (Fin a) (Fin b) (Fin c) grid subsample w h
              (Fin (0.5 * IZR (subsample * w - 1)))
              (Fin (0.5 * IZR (subsample * h - 1)))) as [Hrs [Hcs Hat]].
  fold img_sub in Hrs, Hcs, Hat.
  assert (Hnn : forall i j, (0 <= i < rows img_sub)%Z -> (0 <= j < cols img_sub)%Z ->
            nonneg_fin (at_ img_sub i j)).
  { intros i j Hi Hj. rewrite Hat by (rewrite <- ?Hrs, <- ?Hcs; assumption).
    destruct (filter_weight_nonneg a b c grid d0 d1
                (0.5 * IZR (subsample * w - 1)) (0.5 * IZR (subsample * h - 1))
                subsample i j Ha Hc Hd H0 H1 ltac:(lia)) as [v [Ev Hv]].
    exists v. split; [exact Ev|lra]. }
  assert (Hdown : forall r c0, (0 <= r < w)%Z -> (0 <= c0 < h)%Z ->
            exists v : R,
              at_ (resize_area img_sub w h) r c0 = Fin v /\ (0 <= v)%R
              /\ forall x y, (0 <= x < subsample)%Z -> (0 <= y < subsample)%Z ->
                   pos_fin (at_ img_sub (subsample * r + x) (subsample * c0 + y)) ->
                   (0 < v)%R).
  { apply (resize_area_block img_sub subsample w h); trivial; unfold w, h; lia. }
  destruct (Hdown width0 width1) as [cv [Hcv [_ Hcvpos]]];
    [unfold w; lia|unfold h; lia|].
  destruct Hcen as [x [y [Hx [Hy Hxy]]]].
  assert (Hcpos : (0 < cv)%R).
  { apply (Hcvpos x y Hx Hy).
    rewrite Hat by (unfold w, h; nia). exact Hxy. }
  eexists. split; [reflexivity|].
  cbn [mat_div rows cols at_ resize_area].
  repeat split.
  - change (at_ (resize_area img_sub w h) width0 width1
            / at_ (resize_area img_sub w h) width0 width1 = Fin 1).
    rewrite Hcv, ddiv_Fin by lra. fin_eq. field. lra.
  - intros i j Hi Hj.
    change (nonneg_fin (at_ (resize_area img_sub w h) i j
                        / at_ (resize_area img_sub w h) width0 width1)).
    destruct (Hdown i j Hi Hj) as [v [Ev [Hv _]]].
    rewrite Ev, Hcv, ddiv_Fin by lra.
    exists (v / cv)%R. split; [reflexivity|]. apply Rle_mult_inv_pos; lra.
Qed.






(** ** The two passes of GridMarginalizer *)

Section Sweep.

Variables (stellar_model : TStellarModel) (los_model : TGalacticLOSModel).
Variables (mags_obs : TMagnitudes) (ext_model : TExtinctionModel).
Variables (inv_cov_00 inv_cov_01 inv_cov_11 : double).
Variables (use_priors use_gaia : bool) (RV : double).

Let fit := fit_cell stellar_model los_model mags_obs ext_model
             inv_cov_00 inv_cov_01 inv_cov_11 use_priors use_gaia RV.

Let cell_of (Mr_idx FeH_idx : nat) : list recorded :=
  match get_sed stellar_model Mr_idx FeH_idx with
  | None => []
  | Some t => [fit t]
  end.

Lemma sweep_cell_records (Mr_idx FeH_idx : nat) (cells : list recorded) :
  sweep_cell stellar_model los_model mags_obs ext_model
    inv_cov_00 inv_cov_01 inv_cov_11 use_priors use_gaia RV Mr_idx
    (vectors_of cells) FeH_idx
  = vectors_of (cells ++ cell_of Mr_idx FeH_idx).
Proof.
  unfold sweep_cell, cell_of, fit, fit_cell.
  destruct (get_sed stellar_model Mr_idx FeH_idx) as [[[sed Mr] FeH]|].
  - destruct (star_max_likelihood sed mags_obs ext_model
                inv_cov_00 inv_cov_01 inv_cov_11 RV) as [[mu E] chi2].
    unfold vectors_of, push_back. cbn [E_ML mu_ML chi2_ML prior_ML].
    rewrite !map_app. reflexivity.
  - rewrite app_nil_r. reflexivity.
Qed.

Lemma sweep_row_records (Mr_idx : nat) (l : list nat) (cells : list recorded) :
  fold_left
    (sweep_cell stellar_model los_model mags_obs ext_model
       inv_cov_00 inv_cov_01 inv_cov_11 use_priors use_gaia RV Mr_idx)
    l (vectors_of cells)
  = vectors_of (cells ++ flat_map (cell_of Mr_idx) l).
Proof.
  revert cells. induction l as [|k l IH]; intros cells; cbn [fold_left flat_map].
  - rewrite app_nil_r. reflexivity.
  - rewrite sweep_cell_records, IH, <- app_assoc. reflexivity.
Qed.

Lemma sweep_rows_records (lm lf : list nat) (cells : list recorded) :
  fold_left
    (fun v Mr_idx =>
       fold_left
         (sweep_cell stellar_model los_model mags_obs ext_model
            inv_cov_00 inv_cov_01 inv_cov_11 use_priors use_gaia RV Mr_idx)
         lf v)
    lm (vectors_of cells)
  = vectors_of (cells ++ flat_map (fun Mr_idx => flat_map (cell_of Mr_idx) lf) lm).
Proof.
  revert cells. induction lm as [|k lm IH]; intros cells; cbn [fold_left flat_map].
  - rewrite app_nil_r. reflexivity.
  - rewrite sweep_row_records, IH, <- app_assoc. reflexivity.
Qed.

(** The first pass records every cell the library has. *)
Lemma sweep_records :
  sweep stellar_model los_model mags_obs ext_model
    inv_cov_00 inv_cov_01 inv_cov_11 use_priors use_gaia RV
  = vectors_of
      (recorded_cells stellar_model los_model mags_obs ext_model
         inv_cov_00 inv_cov_01 inv_cov_11 use_priors use_gaia RV).
Proof.
  unfold sweep. change {| E_ML := []; mu_ML := []; chi2_ML := []; prior_ML := [] |}
    with (vectors_of []).
  rewrite sweep_rows_records. reflexivity.
Qed.

(** A recorded cell comes from a cell of the grid that the library has. *)
Lemma recorded_cells_from_library (c : recorded) :
  In c (recorded_cells stellar_model los_model mags_obs ext_model
          inv_cov_00 inv_cov_01 inv_cov_11 use_priors use_gaia RV) ->
  exists Mr_idx FeH_idx t,
    (Mr_idx < get_N_Mr stellar_model)%nat /\ (FeH_idx < get_N_FeH stellar_model)%nat
    /\ get_sed stellar_model Mr_idx FeH_idx = Some t /\ c = fit t.
Proof.
  unfold recorded_cells. intros H.
  apply in_flat_map in H. destruct H as [i [Hi H]].
  apply in_flat_map in H. destruct H as [j [Hj H]].
  apply in_seq_0 in Hi. apply in_seq_0 in Hj.
  destruct (get_sed stellar_model i j) as [t|] eqn:E; [|contradiction].
  destruct H as [<-|[]]. exists i, j, t. repeat split; assumption.
Qed.

(** When no cell of the grid is in the library nothing is recorded. *)
Lemma recorded_cells_empty :
  (forall Mr_idx FeH_idx,
     (Mr_idx < get_N_Mr stellar_model)%nat -> (FeH_idx < get_N_FeH stellar_model)%nat ->
     get_sed stellar_model Mr_idx FeH_idx = None) ->
  recorded_cells stellar_model los_model mags_obs ext_model
    inv_cov_00 inv_cov_01 inv_cov_11 use_priors use_gaia RV = [].
Proof.
  intros H.
  destruct (recorded_cells stellar_model los_model mags_obs ext_model
              inv_cov_00 inv_cov_01 inv_cov_11 use_priors use_gaia RV) as [|c l] eqn:E;
    [reflexivity|exfalso].
  destruct (recorded_cells_from_library c) as [i [j [t [Hi [Hj [Hs _]]]]]].
  - rewrite E. left. reflexivity.
  - rewrite (H i j Hi Hj) in Hs. discriminate.
Qed.

End Sweep.

Lemma vector_at_middle {A B : Type} (f : A -> B) (pre : list A) (c : A) (cs : list A) :
  vector_at (map f (pre ++ c :: cs)) (length pre) = Returns (f c).
Proof.
  unfold vector_at. rewrite map_app, nth_error_app2 by (rewrite length_map; lia).
  rewrite length_map, Nat.sub_diag. reflexivity.
Qed.

Lemma deposit_cell_recorded (grid : TRect) (chi2_min prior_max : double)
    (pre : list recorded) (c : recorded) (cs : list recorded) (image : outcome Mat) :
  deposit_cell grid (vectors_of (pre ++ c :: cs)) chi2_min prior_max image (length pre)
  = deposit_recorded grid chi2_min prior_max image c.
Proof.
  unfold deposit_cell, deposit_recorded, vectors_of.
  cbn [E_ML mu_ML chi2_ML prior_ML].
  destruct image as [image| |]; cbn [bind]; try reflexivity.
  rewrite !vector_at_middle. cbn [bind].
  destruct (get_interpolant grid (rc_E c) (rc_mu c)) as [[[[i0 i1] a0] a1]|];
    reflexivity.
Qed.

Lemma deposit_loop_recorded (grid : TRect) (chi2_min prior_max : double)
    (cs pre : list recorded) (image : outcome Mat) :
  fold_left (deposit_cell grid (vectors_of (pre ++ cs)) chi2_min prior_max)
    (seq (length pre) (length cs)) image
  = fold_left (deposit_recorded grid chi2_min prior_max) cs image.
Proof.
  revert pre image. induction cs as [|c cs IH]; intros pre image;
    cbn [length seq fold_left]; [reflexivity|].
  rewrite deposit_cell_recorded.
  replace (pre ++ c :: cs) with ((pre ++ [c]) ++ cs) by (rewrite <- app_assoc; reflexivity).
  replace (S (length pre)) with (length (pre ++ [c])) by (rewrite length_app; simpl; lia).
  apply IH.
Qed.

(** The second pass visits the recorded cells in order. *)
Lemma deposit_records (grid : TRect) (chi2_min prior_max : double)
    (cells : list recorded) (image : Mat) :
  deposit grid (vectors_of cells) chi2_min prior_max image
  = fold_left (deposit_recorded grid chi2_min prior_max) cells (Returns image).
Proof.
  unfold deposit. cbn [vectors_of mu_ML]. rewrite length_map.
  exact (deposit_loop_recorded grid chi2_min prior_max cells [] (Returns image)).
Qed.

(** ** Minimum and maximum of a vector *)

Lemma dlt_trans_false (x y z : double) :
  (y <? z) = true -> (x <? z) = false -> (x <? y) = false.
Proof.
  destruct x as [a| | |], y as [b| | |], z as [c| | |]; cbn [dlt];
    try discriminate; try reflexivity;
    repeat match goal with
           | |- context [Rlt_dec ?u ?v] => destruct (Rlt_dec u v)
           end; try discriminate; try reflexivity; intros; lra.
Qed.

Lemma dlt_trans_false_r (x y z : double) :
  (z <? y) = true -> (z <? x) = false -> (y <? x) = false.
Proof.
  destruct x as [a| | |], y as [b| | |], z as [c| | |]; cbn [dlt];
    try discriminate; try reflexivity;
    repeat match goal with
           | |- context [Rlt_dec ?u ?v] => destruct (Rlt_dec u v)
           end; try discriminate; try reflexivity; intros; lra.
Qed.

Lemma dlt_irrefl (x : double) : (x <? x) = false.
Proof.
  destruct x as [a| | |]; cbn [dlt]; try reflexivity.
  destruct (Rlt_dec a a); [lra|reflexivity].
Qed.

Lemma min_loop (t : list double) (s : double) (seen : list double) :
  In s seen -> (forall x, In x seen -> (x <? s) = false) ->
  let r := fold_left (fun smallest y => if y <? smallest then y else smallest) t s in
  In r (seen ++ t) /\ forall x, In x (seen ++ t) -> (x <? r) = false.
Proof.
  revert s seen. induction t as [|y t IH]; intros s seen Hs Hlow; cbn [fold_left].
  - rewrite app_nil_r. split; assumption.
  - replace (seen ++ y :: t) with ((seen ++ [y]) ++ t)
      by (rewrite <- app_assoc; reflexivity).
    destruct (y <? s) eqn:E; apply IH.
    + apply in_or_app. right. left. reflexivity.
    + intros x Hx. apply in_app_or in Hx. destruct Hx as [Hx|[<-|[]]].
      * apply (dlt_trans_false x y s E). apply Hlow; exact Hx.
      * apply dlt_irrefl.
    + apply in_or_app. left. exact Hs.
    + intros x Hx. apply in_app_or in Hx. destruct Hx as [Hx|[<-|[]]].
      * apply Hlow; exact Hx.
      * exact E.
Qed.

Lemma max_loop (t : list double) (s : double) (seen : list double) :
  In s seen -> (forall x, In x seen -> (s <? x) = false) ->
  let r := fold_left (fun largest y => if largest <? y then y else largest) t s in
  In r (seen ++ t) /\ forall x, In x (seen ++ t) -> (r <? x) = false.
Proof.
  revert s seen. induction t as [|y t IH]; intros s seen Hs Hup; cbn [fold_left].
  - rewrite app_nil_r. split; assumption.
  - replace (seen ++ y :: t) with ((seen ++ [y]) ++ t)
      by (rewrite <- app_assoc; reflexivity).
    destruct (s <? y) eqn:E; apply IH.
    + apply in_or_app. right. left. reflexivity.
    + intros x Hx. apply in_app_or in Hx. destruct Hx as [Hx|[<-|[]]].
      * apply (dlt_trans_false_r x y s E). apply Hup; exact Hx.
      * apply dlt_irrefl.
    + apply in_or_app. left. exact Hs.
    + intros x Hx. apply in_app_or in Hx. destruct Hx as [Hx|[<-|[]]].
      * apply Hup; exact Hx.
      * exact E.
Qed.

(** [min_element] of a vector that is not empty is one of its elements, and
    no element is below it. *)
Lemma min_element_least (v : list double) :
  v <> [] ->
  exists r, min_element v = Returns r /\ In r v /\ forall x, In x v -> (x <? r) = false.
Proof.
  destruct v as [|x t]; [congruence|]. intros _.
  eexists. split; [reflexivity|].
  apply (min_loop t x [x]).
  - left. reflexivity.
  - intros y [<-|[]]. apply dlt_irrefl.
Qed.

Lemma max_element_greatest (v : list double) :
  v <> [] ->
  exists r, max_element v = Returns r /\ In r v /\ forall x, In x v -> (r <? x) = false.
Proof.
  destruct v as [|x t]; [congruence|]. intros _.
  eexists. split; [reflexivity|].
  apply (max_loop t x [x]).
  - left. reflexivity.
  - intros y [<-|[]]. apply dlt_irrefl.
Qed.

(** [integrate_ML_solution] in terms of the recorded cells. *)
Lemma integrate_ML_solution_passes
    (stellar_model : TStellarModel) (los_model : TGalacticLOSModel)
    (mags_obs : TMagnitudes) (ext_model : TExtinctionModel)
    (img_stack : TImgStack) (img_idx : nat)
    (use_priors use_gaia : bool) (RV : double) (verbosity : Z) :
  let inv_cov := star_covariance mags_obs ext_model RV in
  let inv_cov_00 := fst (fst inv_cov) in
  let inv_cov_01 := snd (fst inv_cov) in
  let inv_cov_11 := snd inv_cov in
  let cells :=
    recorded_cells stellar_model los_model mags_obs ext_model
      inv_cov_00 inv_cov_01 inv_cov_11 use_priors use_gaia RV in
  let stack0 := fst (initialize_to_zero img_stack img_idx) in
  integrate_ML_solution stellar_model los_model mags_obs ext_model
    img_stack img_idx use_priors use_gaia RV verbosity
  = (prior_max <- max_element (map rc_prior cells) ;;
     chi2_min <- min_element (map rc_chi2 cells) ;;
     image <- stack_get stack0 img_idx ;;
     image <- fold_left (deposit_recorded (rect stack0) chi2_min prior_max)
                cells (Returns image) ;;
     cov_img <- gaussian_filter inv_cov_11 inv_cov_01 inv_cov_00 (rect stack0)
                  (Fin 5) 2 (Fin 1) verbosity ;;
     Returns ({| img := list_set (img stack0) img_idx (filter2D image cov_img);
                 rect := rect stack0 |},
              chi2_min / of_int (count_passbands mags_obs))).
Proof.
  intros inv_cov inv_cov_00 inv_cov_01 inv_cov_11 cells stack0.
  unfold integrate_ML_solution.
  fold inv_cov. rewrite (surjective_pairing inv_cov), (surjective_pairing (fst inv_cov)).
  fold inv_cov_00 inv_cov_01 inv_cov_11.
  rewrite (surjective_pairing (initialize_to_zero img_stack img_idx)). fold stack0.
  rewrite sweep_records. fold cells.
  cbn [vectors_of prior_ML chi2_ML].
  destruct (max_element (map rc_prior cells)) as [prior_max| |]; cbn [bind]; trivial.
  destruct (min_element (map rc_chi2 cells)) as [chi2_min| |]; cbn [bind]; trivial.
  destruct (stack_get stack0 img_idx) as [image| |]; cbn [bind]; trivial.
  change {| E_ML := map rc_E cells; mu_ML := map rc_mu cells;
            chi2_ML := map rc_chi2 cells; prior_ML := map rc_prior cells |}
    with (vectors_of cells).
  rewrite deposit_records. reflexivity.
Qed.

Lemma in_mat_mat_add (img_ : Mat) (i j : Z) (v : double) (i' j' : Z) :
  in_mat (mat_add img_ i j v) i' j' = in_mat img_ i' j'.
Proof. reflexivity. Qed.

Lemma in_mat_corners (img_ : Mat) (i0 i1 : Z) :
  in_mat img_ i0 i1 = true -> in_mat img_ (i0 + 1) (i1 + 1) = true ->
  in_mat img_ (i0 + 1) i1 = true /\ in_mat img_ i0 (i1 + 1) = true.
Proof.
  unfold in_mat. rewrite !andb_true_iff, !Z.leb_le, !Z.ltb_lt.
  intros [[[H1 H2] H3] H4] [[[H5 H6] H7] H8]. repeat split; lia.
Qed.

(** What the four writes of [splat] leave in the image: each of the four
    bins around the point has received its share of the weight, the shares
    add up to the weight, and no other bin has changed. *)
Lemma splat_adds (image : Mat) (i0 i1 : Z) (a0 a1 p : R) :
  in_mat image i0 i1 = true -> in_mat image (i0 + 1) (i1 + 1) = true ->
  exists image' : Mat,
    splat image i0 i1 (Fin a0) (Fin a1) (Fin p) = Returns image'
    /\ rows image' = rows image /\ cols image' = cols image
    /\ at_ image' i0 i1 = at_ image i0 i1 + Fin ((1 - a0) * (1 - a1) * p)
    /\ at_ image' (i0 + 1) i1 = at_ image (i0 + 1) i1 + Fin (a0 * (1 - a1) * p)
    /\ at_ image' i0 (i1 + 1) = at_ image i0 (i1 + 1) + Fin ((1 - a0) * a1 * p)
    /\ at_ image' (i0 + 1) (i1 + 1) = at_ image (i0 + 1) (i1 + 1) + Fin (a0 * a1 * p)
    /\ (forall i j, ~ ((i0 <= i <= i0 + 1)%Z /\ (i1 <= j <= i1 + 1)%Z) ->
          at_ image' i j = at_ image i j)
    /\ ((1 - a0) * (1 - a1) * p + a0 * (1 - a1) * p
        + (1 - a0) * a1 * p + a0 * a1 * p = p)%R.
Proof.
  intros H00 H11. destruct (in_mat_corners image i0 i1 H00 H11) as [H10 H01].
  unfold splat, add_at. rewrite !dsub_Fin, !dmul_Fin.
  rewrite H00. cbn [bind]. rewrite in_mat_mat_add, H10. cbn [bind].
  rewrite !in_mat_mat_add, H01. cbn [bind].
  rewrite !in_mat_mat_add, H11.
  eexists. split; [reflexivity|].
  cbn [mat_add rows cols at_].
  split; [reflexivity|]. split; [reflexivity|].
  repeat split;
    try (intros i j Hout);
    repeat match goal with
           | |- context [Z.eqb ?u ?v] => destruct (Z.eqb_spec u v); try lia
           end;
    cbn [andb]; try reflexivity; try ring.
Qed.

Lemma nth_error_middle {A : Type} (l : list A) (k : nat) (x : A) :
  nth_error l k = Some x ->
  exists pre post, l = pre ++ x :: post /\ length pre = k.
Proof.
  revert k. induction l as [|y l IH]; intros k H; destruct k as [|k];
    cbn [nth_error] in H; try discriminate.
  - injection H as ->. exists [], l. split; reflexivity.
  - destruct (IH k H) as [pre [post [-> Hlen]]].
    exists (y :: pre), post. split; [reflexivity|]. cbn [length]. lia.
Qed.

(** C5.  [integrate_ML_solution] is a two-pass algorithm.  The first pass
    records (E, mu, chi2, prior) for every cell of the grid that the library
    has.  [prior_max] and [chi2_min] are then taken over all recorded cells:
    each is the value of a recorded cell, no recorded chi2 is below
    [chi2_min] and no recorded prior is above [prior_max].  Only then does the
    second pass run, with these two values.  Its iteration [k] deposits the
    [k]-th recorded cell with the weight
    [p = exp(-1/2 (chi2 - chi2_min) + (prior - prior_max))]: when the grid
    has bins for the cell, the four bins around it receive the shares
    [(1-a0)(1-a1)p], [a0(1-a1)p], [(1-a0)a1 p] and [a0 a1 p], which add up
    to [p], and no other bin changes. *)
Theorem integrate_ML_solution_two_pass
    (stellar_model : TStellarModel) (los_model : TGalacticLOSModel)
    (mags_obs : TMagnitudes) (ext_model : TExtinctionModel)
    (img_stack : TImgStack) (img_idx : nat)
    (use_priors use_gaia : bool) (RV : double) (verbosity : Z) :
  let inv_cov := star_covariance mags_obs ext_model RV in
  let inv_cov_00 := fst (fst inv_cov) in
  let inv_cov_01 := snd (fst inv_cov) in
  let inv_cov_11 := snd inv_cov in
  let cells :=
    recorded_cells stellar_model los_model mags_obs ext_model
      inv_cov_00 inv_cov_01 inv_cov_11 use_priors use_gaia RV in
  let stack0 := fst (initialize_to_zero img_stack img_idx) in
  sweep stellar_model los_model mags_obs ext_model
    inv_cov_00 inv_cov_01 inv_cov_11 use_priors use_gaia RV = vectors_of cells
  /\ integrate_ML_solution stellar_model los_model mags_obs ext_model
       img_stack img_idx use_priors use_gaia RV verbosity
     = (prior_max <- max_element (map rc_prior cells) ;;
        chi2_min <- min_element (map rc_chi2 cells) ;;
        image <- stack_get stack0 img_idx ;;
        image <- fold_left (deposit_recorded (rect stack0) chi2_min prior_max)
                   cells (Returns image) ;;
        cov_img <- gaussian_filter inv_cov_11 inv_cov_01 inv_cov_00 (rect stack0)
                     (Fin 5) 2 (Fin 1) verbosity ;;
        Returns ({| img := list_set (img stack0) img_idx (filter2D image cov_img);
                    rect := rect stack0 |},
                 chi2_min / of_int (count_passbands mags_obs)))
  /\ (cells <> [] ->
      exists chi2_min prior_max,
        min_element (map rc_chi2 cells) = Returns chi2_min
        /\ max_element (map rc_prior cells) = Returns prior_max
        /\ (exists c, In c cells /\ rc_chi2 c = chi2_min)
        /\ (exists c, In c cells /\ rc_prior c = prior_max)
        /\ (forall c, In c cells -> (rc_chi2 c <? chi2_min) = false)
        /\ (forall c, In c cells -> (prior_max <? rc_prior c) = false))
  /\ (forall (k : nat) (c : recorded) (chi2_min prior_max : double) (image : Mat)
             (img_idx0 img_idx1 : Z) (a0 a1 p : R),
        nth_error cells k = Some c ->
        get_interpolant (rect stack0) (rc_E c) (rc_mu c)
        = Some (img_idx0, img_idx1, Fin a0, Fin a1) ->
        dexp (Fin (-0.5) * (rc_chi2 c - chi2_min) + (rc_prior c - prior_max)) = Fin p ->
        in_mat image img_idx0 img_idx1 = true ->
        in_mat image (img_idx0 + 1) (img_idx1 + 1) = true ->
        exists image' : Mat,
          deposit_cell (rect stack0)
            (sweep stellar_model los_model mags_obs ext_model
               inv_cov_00 inv_cov_01 inv_cov_11 use_priors use_gaia RV)
            chi2_min prior_max (Returns image) k
          = Returns image'
          /\ rows image' = rows image /\ cols image' = cols image
          /\ at_ image' img_idx0 img_idx1
             = at_ image img_idx0 img_idx1 + Fin ((1 - a0) * (1 - a1) * p)
          /\ at_ image' (img_idx0 + 1) img_idx1
             = at_ image (img_idx0 + 1) img_idx1 + Fin (a0 * (1 - a1) * p)
          /\ at_ image' img_idx0 (img_idx1 + 1)
             = at_ image img_idx0 (img_idx1 + 1) + Fin ((1 - a0) * a1 * p)
          /\ at_ image' (img_idx0 + 1) (img_idx1 + 1)
             = at_ image (img_idx0 + 1) (img_idx1 + 1) + Fin (a0 * a1 * p)
          /\ (forall i j,
                ~ ((img_idx0 <= i <= img_idx0 + 1)%Z /\ (img_idx1 <= j <= img_idx1 + 1)%Z) ->
                at_ image' i j = at_ image i j)
          /\ ((1 - a0) * (1 - a1) * p + a0 * (1 - a1) * p
              + (1 - a0) * a1 * p + a0 * a1 * p = p)%R).
Proof.
  intros inv_cov inv_cov_00 inv_cov_01 inv_cov_11 cells stack0.
  split; [apply sweep_records|]. split; [|split].
  - apply integrate_ML_solution_passes.
  - intros Hne.
    destruct (min_element_least (map rc_chi2 cells)) as [mn [Hmn [Hin Hlow]]].
    { destruct cells; [congruence|discriminate]. }
    destruct (max_element_greatest (map rc_prior cells)) as [mx [Hmx [Hix Hup]]].
    { destruct cells; [congruence|discriminate]. }
    exists mn, mx. split; [exact Hmn|]. split; [exact Hmx|].
    apply in_map_iff in Hin. destruct Hin as [c1 [Hc1 Hin1]].
    apply in_map_iff in Hix. destruct Hix as [c2 [Hc2 Hin2]].
    split; [exists c1; split; assumption|].
    split; [exists c2; split; assumption|].
    split; intros c Hc; [apply Hlow|apply Hup]; apply in_map; exact Hc.
  - intros k c chi2_min prior_max image i0 i1 a0 a1 p Hk Hget Hp H00 H11.
    rewrite sweep_records. fold inv_cov inv_cov_00 inv_cov_01 inv_cov_11 cells.
    destruct (nth_error_middle cells k c Hk) as [pre [post [Hcells <-]]].
    rewrite Hcells, deposit_cell_recorded.
    unfold deposit_recorded. cbn [bind]. rewrite Hget, Hp.
    apply splat_adds; assumption.
Qed.

(** ** Cells outside the grid *)

Lemma nth_error_list_set {A : Type} (l : list A) (k : nat) (x : A) :
  (k < length l)%nat -> nth_error (list_set l k x) k = Some x.
Proof.
  revert k. induction l as [|h t IH]; intros k Hk; cbn [length] in Hk; [lia|].
  destruct k as [|k]; cbn [list_set nth_error]; [reflexivity|]. apply IH. lia.
Qed.

Lemma list_set_twice {A : Type} (l : list A) (k : nat) (x y : A) :
  list_set (list_set l k x) k y = list_set l k y.
Proof.
  revert k. induction l as [|h t IH]; intros k; destruct k as [|k];
    cbn [list_set]; try reflexivity. rewrite IH. reflexivity.
Qed.

Lemma length_list_set {A : Type} (l : list A) (k : nat) (x : A) :
  length (list_set l k x) = length l.
Proof.
  revert k. induction l as [|h t IH]; intros k; destruct k as [|k];
    cbn [list_set length]; try reflexivity. rewrite IH. reflexivity.
Qed.

Lemma deposit_recorded_out (grid : TRect) (chi2_min prior_max : double)
    (image : outcome Mat) (c : recorded) :
  in_grid grid c = false ->
  deposit_recorded grid chi2_min prior_max image c = image.
Proof.
  unfold in_grid, deposit_recorded.
  destruct (get_interpolant grid (rc_E c) (rc_mu c)); [discriminate|].
  intros _. destruct image; reflexivity.
Qed.

(** The second pass is the second pass over the cells inside the grid. *)
Lemma deposit_drops_cells_outside (grid : TRect) (chi2_min prior_max : double)
    (cells : list recorded) (image : outcome Mat) :
  fold_left (deposit_recorded grid chi2_min prior_max) cells image
  = fold_left (deposit_recorded grid chi2_min prior_max) (filter (in_grid grid) cells) image.
Proof.
  revert image. induction cells as [|c cells IH]; intros image; cbn [filter fold_left].
  - reflexivity.
  - destruct (in_grid grid c) eqn:E; cbn [fold_left].
    + apply IH.
    + rewrite deposit_recorded_out by exact E. apply IH.
Qed.

Lemma filter_none {A : Type} (f : A -> bool) (l : list A) :
  (forall x, In x l -> f x = false) -> filter f l = [].
Proof.
  induction l as [|x l IH]; intros H; cbn [filter]; [reflexivity|].
  rewrite (H x) by (left; reflexivity). apply IH. intros y Hy. apply H. right. exact Hy.
Qed.

(** A finite kernel applied to the zero surface gives the zero surface. *)
Lemma filter2D_zeros (r c : Z) (kernel : Mat) :
  (forall i j, (0 <= i < rows kernel)%Z -> (0 <= j < cols kernel)%Z ->
     is_finite (at_ kernel i j)) ->
  forall i j, at_ (filter2D (zeros r c) kernel) i j = Fin 0.
Proof.
  intros Hk i j. unfold filter2D. cbn [at_ zeros rows cols].
  assert (Hin : forall (li : list Z) acc,
            (forall x, In x li -> (0 <= x < rows kernel)%Z) -> acc = Fin 0 ->
            fold_left
              (fun acc i0 =>
                 fold_left (fun acc0 j0 => acc0 + at_ kernel i0 j0 * Fin 0)
                   (Zrange (cols kernel)) acc)
              li acc = Fin 0).
  { induction li as [|x li IH]; intros acc Hli ->; cbn [fold_left]; [reflexivity|].
    apply IH; [intros y Hy; apply Hli; right; exact Hy|].
    assert (Hx : (0 <= x < rows kernel)%Z) by (apply Hli; left; reflexivity).
    assert (Hrow : forall (lj : list Z) acc,
              (forall y, In y lj -> (0 <= y < cols kernel)%Z) -> acc = Fin 0 ->
              fold_left (fun acc0 j0 => acc0 + at_ kernel x j0 * Fin 0) lj acc = Fin 0).
    { induction lj as [|y lj IHj]; intros acc Hlj ->; cbn [fold_left]; [reflexivity|].
      apply IHj; [intros z Hz; apply Hlj; right; exact Hz|].
      assert (Hy : (0 <= y < cols kernel)%Z) by (apply Hlj; left; reflexivity).
      specialize (Hk x y Hx Hy). destruct (at_ kernel x y); try contradiction.
      rewrite dmul_Fin, dadd_Fin. fin_eq. lra. }
    apply Hrow; [intros y Hy; apply In_Zrange; exact Hy|reflexivity]. }
  apply Hin; [intros x Hx; apply In_Zrange; exact Hx|reflexivity].
Qed.

Lemma nonneg_fin_finite (d : double) : nonneg_fin d -> is_finite d.
Proof. intros [v [-> _]]. exact I. Qed.

Lemma Zrange_cons (n : Z) : (0 < n)%Z -> exists l, Zrange n = 0%Z :: l.
Proof.
  intros Hn. unfold Zrange.
  destruct (Z.to_nat n) as [|k] eqn:E; [lia|].
  cbn [seq map]. eexists. reflexivity.
Qed.

(** A kernel of NaN gives a surface of NaN. *)
Lemma filter2D_NaN (src kernel : Mat) :
  (0 < rows kernel)%Z -> (0 < cols kernel)%Z ->
  (forall i j, at_ kernel i j = NaN) ->
  forall i j, at_ (filter2D src kernel) i j = NaN.
Proof.
  intros Hr Hc Hk i j. unfold filter2D. cbn [at_].
  assert (Hrow : forall (g : Z -> Z -> double) x (lj : list Z) acc,
            acc = NaN \/ lj <> [] ->
            fold_left (fun acc0 j0 => acc0 + at_ kernel x j0 * g x j0) lj acc = NaN).
  { intros g x lj. induction lj as [|y lj IHj]; intros acc Hacc; cbn [fold_left].
    - destruct Hacc as [->|N]; [reflexivity|contradiction N; reflexivity].
    - apply IHj. left. rewrite Hk. destruct acc; reflexivity. }
  assert (Hall : forall (g : Z -> Z -> double) (li : list Z) acc,
            acc = NaN \/ li <> [] ->
            fold_left
              (fun acc0 i0 =>
                 fold_left (fun acc1 j0 => acc1 + at_ kernel i0 j0 * g i0 j0)
                   (Zrange (cols kernel)) acc0)
              li acc = NaN).
  { intros g li. induction li as [|x li IH]; intros acc Hacc; cbn [fold_left].
    - destruct Hacc as [->|N]; [reflexivity|contradiction N; reflexivity].
    - apply IH. left. apply Hrow. right.
      destruct (Zrange_cons (cols kernel) Hc) as [l ->]. discriminate. }
  apply (Hall (fun i0 j0 =>
                 at_ src (borderInterpolate (i + i0 - rows kernel / 2) (rows src))
                   (borderInterpolate (j + j0 - cols kernel / 2) (cols src)))).
  right. destruct (Zrange_cons (rows kernel) Hr) as [l ->]. discriminate.
Qed.

(** After the extra smoothing by one bin the width of the kernel is bounded
    through the regularisation: sigma is at most [sqrt(1e5)] bins of the
    other axis. *)
Lemma smoothed_width_bound (u det d dd : R) (W : Z) :
  (0 <= u)%R -> (0 <= det)%R -> (0 < d)%R -> (0 < dd)%R ->
  (u * (dd * dd) <= 1)%R ->
  (1582 <= IZR W * (d * dd))%R ->
  (Zceil (5 * sqrt (u / (det + 1e-5)) / d) <= W)%Z.
Proof.
  intros Hu Hdet Hd Hdd Hb HW.
  set (t := (u / (det + 1e-5))%R).
  assert (Ht : (t * (det + 1e-5) = u)%R) by (unfold t; field; lra).
  assert (Ht0 : (0 <= t)%R) by (unfold t; apply Rle_mult_inv_pos; lra).
  assert (Ht1 : (t * 1e-5 <= u)%R) by nra.
  assert (Hq : (0 < dd * dd)%R) by nra.
  assert (Hs : (sqrt t <= 316.3 / dd)%R).
  { rewrite <- (sqrt_square (316.3 / dd)) by (apply Rle_mult_inv_pos; lra).
    apply sqrt_le_1_alt.
    apply (Rmult_le_reg_r (dd * dd)); [exact Hq|].
    replace (316.3 / dd * (316.3 / dd) * (dd * dd))%R with (316.3 * 316.3)%R
      by (field; lra).
    revert Hb Hq Ht1 Ht0 Hu. generalize (dd * dd)%R. intros q Hb Hq Ht1 Ht0 Hu.
    assert (t * q * 1e-5 <= u * q)%R by nra. lra. }
  rewrite <- (Zceil_IZR W). apply Zceil_le.
  apply (Rmult_le_reg_r (d * dd)); [nra|].
  replace (5 * sqrt t / d * (d * dd))%R with (5 * (sqrt t * dd))%R by (field; lra).
  assert (sqrt t * dd <= 316.3)%R.
  { apply (Rmult_le_reg_r (/ dd)); [apply Rinv_0_lt_compat; exact Hdd|].
    replace (sqrt t * dd * / dd)%R with (sqrt t) by (field; lra).
    exact Hs. }
  lra.
Qed.

(** The kernel of a star whose inverse covariance is positive definite, as
    [integrate_ML_solution] asks for it, when the sub-sampled image of a
    kernel [W] bins wide has sides that are [int]s. *)
Lemma kernel_of_star (grid : TRect) (subsample W : Z) (c00 c01 c11 d0 d1 : R) :
  (0 < c00)%R -> (0 < c11)%R -> (0 < c00 * c11 - c01 * c01)%R ->
  dx grid 0 = Fin d0 -> dx grid 1 = Fin d1 -> (0 < d0)%R -> (0 < d1)%R ->
  (0 < subsample)%Z ->
  (2 <= W)%Z -> (1582 <= IZR W * (d0 * d1))%R ->
  (subsample * (2 * W + 1) <= INT_MAX)%Z ->
  exists K : Mat,
    gaussian_filter (Fin c11) (Fin c01) (Fin c00) grid (Fin 5) 2 (Fin 1) subsample
    = Returns K
    /\ (forall i j, (0 <= i < rows K)%Z -> (0 <= j < cols K)%Z -> nonneg_fin (at_ K i j)).
Proof.
  intros H00 H11 Hdet H0 H1 Hd0 Hd1 Hs HW Hbig Hint.
  destruct (extra_smoothing_positive_definite c11 c01 c00 grid 1 d0 d1)
    as [a [b [c [Heff [Ha [Hc [Hd [Hba Hbc]]]]]]]]; trivial; try lra.
  assert (Hw0 : (Zceil (5 * sqrt (c / (a * c - b * b + 1e-5)) / d0) <= W)%Z)
    by (apply (smoothed_width_bound c (a * c - b * b) d0 d1 W); lra).
  assert (Hw1 : (Zceil (5 * sqrt (a / (a * c - b * b + 1e-5)) / d1) <= W)%Z)
    by (apply (smoothed_width_bound a (a * c - b * b) d1 d0 W); lra).
  assert (Hi0 : (subsample * (2 * Z.max 2 (Zceil (5 * sqrt (c / (a * c - b * b + 1e-5)) / d0)) + 1)
                 <= INT_MAX)%Z).
  { assert (Z.max 2 (Zceil (5 * sqrt (c / (a * c - b * b + 1e-5)) / d0)) <= W)%Z by lia.
    unfold INT_MAX in *. nia. }
  assert (Hi1 : (subsample * (2 * Z.max 2 (Zceil (5 * sqrt (a / (a * c - b * b + 1e-5)) / d1)) + 1)
                 <= INT_MAX)%Z).
  { assert (Z.max 2 (Zceil (5 * sqrt (a / (a * c - b * b + 1e-5)) / d1)) <= W)%Z by lia.
    unfold INT_MAX in *. nia. }
  assert (Hcen : centre_has_weight (Fin a) (Fin b) (Fin c) grid subsample
                   (Z.max 2 (Zceil (5 * sqrt (c / (a * c - b * b + 1e-5)) / d0)))
                   (Z.max 2 (Zceil (5 * sqrt (a / (a * c - b * b + 1e-5)) / d1))))
    by (apply (centre_has_weight_moderate a b c grid d0 d1); trivial; try lra; right; lra).
  pose proof (build_filter_psd grid 2 subsample a b c d0 d1 5) as HB.
  cbv zeta in HB.
  destruct HB as [K [HK [_ [_ [_ Hnn]]]]]; trivial; try lra; try lia.
  exists K. unfold gaussian_filter. rewrite Heff. split; [exact HK|exact Hnn].
Qed.

(** The same kernel asked for with a sub-sampling factor of zero: it has at
    least five bins along each axis, and each of them is NaN. *)
Lemma kernel_without_subsample (grid : TRect) (W : Z) (c00 c01 c11 d0 d1 : R) :
  (0 < c00)%R -> (0 < c11)%R -> (0 < c00 * c11 - c01 * c01)%R ->
  dx grid 0 = Fin d0 -> dx grid 1 = Fin d1 -> (0 < d0)%R -> (0 < d1)%R ->
  (2 <= W)%Z -> (1582 <= IZR W * (d0 * d1))%R ->
  (2 * W + 1 <= INT_MAX)%Z ->
  exists K : Mat,
    gaussian_filter (Fin c11) (Fin c01) (Fin c00) grid (Fin 5) 2 (Fin 1) 0
    = Returns K
    /\ (5 <= rows K)%Z /\ (5 <= cols K)%Z
    /\ (forall i j, at_ K i j = NaN).
Proof.
  intros H00 H11 Hdet H0 H1 Hd0 Hd1 HW Hbig Hint.
  destruct (extra_smoothing_positive_definite c11 c01 c00 grid 1 d0 d1)
    as [a [b [c [Heff [Ha [Hc [Hd [Hba Hbc]]]]]]]]; trivial; try lra.
  assert (Hw0 : (Zceil (5 * sqrt (c / (a * c - b * b + 1e-5)) / d0) <= W)%Z)
    by (apply (smoothed_width_bound c (a * c - b * b) d0 d1 W); lra).
  assert (Hw1 : (Zceil (5 * sqrt (a / (a * c - b * b + 1e-5)) / d1) <= W)%Z)
    by (apply (smoothed_width_bound a (a * c - b * b) d1 d0 W); lra).
  unfold INT_MAX in Hint.
  pose proof (build_filter_subsample_0 grid 2 a b c d0 d1 5) as HB.
  cbv zeta in HB.
  destruct HB as [K [HK [Hr [Hcc HNaN]]]]; trivial; try lra; try lia;
    try (unfold INT_MAX; lia).
  exists K. unfold gaussian_filter. rewrite Heff. split; [exact HK|].
  split; [rewrite Hr; lia|]. split; [rewrite Hcc; lia|]. exact HNaN.
Qed.

(** The outcome of [integrate_ML_solution] when the library has a cell, the
    image exists, the deposit stays inside the image and the kernel is [K]. *)
Lemma integrate_ML_solution_returns
    (stellar_model : TStellarModel) (los_model : TGalacticLOSModel)
    (mags_obs : TMagnitudes) (ext_model : TExtinctionModel)
    (img_stack : TImgStack) (img_idx : nat)
    (use_priors use_gaia : bool) (RV : double) (verbosity : Z)
    (inv_cov_00 inv_cov_01 inv_cov_11 : double) (K : Mat) :
  star_covariance mags_obs ext_model RV = (inv_cov_00, inv_cov_01, inv_cov_11) ->
  let cells :=
    recorded_cells stellar_model los_model mags_obs ext_model
      inv_cov_00 inv_cov_01 inv_cov_11 use_priors use_gaia RV in
  let zero_img := zeros (N_bins (rect img_stack) 0) (N_bins (rect img_stack) 1) in
  (img_idx < length (img img_stack))%nat ->
  cells <> [] ->
  (forall chi2_min prior_max, exists image,
     fold_left (deposit_recorded (rect img_stack) chi2_min prior_max) cells
       (Returns zero_img) = Returns image) ->
  gaussian_filter inv_cov_11 inv_cov_01 inv_cov_00 (rect img_stack)
    (Fin 5) 2 (Fin 1) verbosity = Returns K ->
  exists chi2_min prior_max image,
    min_element (map rc_chi2 cells) = Returns chi2_min
    /\ In chi2_min (map rc_chi2 cells)
    /\ fold_left (deposit_recorded (rect img_stack) chi2_min prior_max) cells
         (Returns zero_img) = Returns image
    /\ integrate_ML_solution stellar_model los_model mags_obs ext_model
         img_stack img_idx use_priors use_gaia RV verbosity
       = Returns
           ({| img := list_set (img img_stack) img_idx (filter2D image K);
               rect := rect img_stack |},
            chi2_min / of_int (count_passbands mags_obs)).
Proof.
  intros Hcov cells zero_img Hidx Hne Hdep HK.
  pose proof (integrate_ML_solution_passes stellar_model los_model mags_obs ext_model
                img_stack img_idx use_priors use_gaia RV verbosity) as Hp.
  cbv zeta in Hp. rewrite Hcov in Hp. cbn [fst snd] in Hp. fold cells in Hp.
  destruct (min_element_least (map rc_chi2 cells)) as [mn [Hmn [Hin _]]].
  { destruct cells; [congruence|discriminate]. }
  destruct (max_element_greatest (map rc_prior cells)) as [mx [Hmx _]].
  { destruct cells; [congruence|discriminate]. }
  destruct (Hdep mn mx) as [image Himage].
  exists mn, mx, image. split; [exact Hmn|]. split; [exact Hin|]. split; [exact Himage|].
  rewrite Hp, Hmx, Hmn. cbn [bind].
  unfold initialize_to_zero.
  destruct (Nat.ltb_spec img_idx (length (img img_stack))) as [_|Hge]; [|lia].
  cbn [fst rect img]. unfold stack_get. cbn [img].
  rewrite nth_error_list_set by exact Hidx. cbn [bind].
  fold zero_img. rewrite Himage. cbn [bind].
  rewrite HK. cbn [bind]. rewrite list_set_twice. reflexivity.
Qed.

Lemma deposit_all_outside (grid : TRect) (chi2_min prior_max : double)
    (cells : list recorded) (image : Mat) :
  (forall c, In c cells -> in_grid grid c = false) ->
  fold_left (deposit_recorded grid chi2_min prior_max) cells (Returns image)
  = Returns image.
Proof.
  intros Hout. rewrite deposit_drops_cells_outside, (filter_none _ _ Hout). reflexivity.
Qed.

Lemma count_passbands_none (mags_obs : TMagnitudes) :
  (forall i, (i < NBANDS)%nat ->
     (isnan (err mags_obs i) || isinf (err mags_obs i) || (err mags_obs i >? Fin 1e9))
     = true) ->
  count_passbands mags_obs = 0%Z.
Proof.
  intros H. unfold count_passbands.
  assert (G : forall l n, (forall i, In i l -> (i < NBANDS)%nat) ->
            fold_left
              (fun n_passbands i =>
                 if isnan (err mags_obs i) || isinf (err mags_obs i)
                    || (err mags_obs i >? Fin 1e9)
                 then n_passbands else (n_passbands + 1)%Z) l n = n).
  { induction l as [|k l IH]; intros n Hl; cbn [fold_left]; [reflexivity|].
    rewrite (H k) by (apply Hl; left; reflexivity).
    apply IH. intros i Hi. apply Hl. right. exact Hi. }
  apply G. intros i Hi. apply in_seq_0. exact Hi.
Qed.

(** C6, as amended.  For a star with no band that is not missing (every error
    is NaN, infinite or above 1e9) the evaluation does not fail at entry: the
    count of passbands is zero, and when the library has a cell, the image
    exists, the deposit stays inside the image and the kernel is built, the
    call returns, and the chi-square per passband it returns is [chi2_min / 0],
    which is not a finite number. *)
Theorem star_without_passband_is_not_rejected
    (stellar_model : TStellarModel) (los_model : TGalacticLOSModel)
    (mags_obs : TMagnitudes) (ext_model : TExtinctionModel)
    (img_stack : TImgStack) (img_idx : nat)
    (use_priors use_gaia : bool) (RV : double) (verbosity : Z)
    (inv_cov_00 inv_cov_01 inv_cov_11 : double) (K : Mat) :
  (forall i, (i < NBANDS)%nat ->
     (isnan (err mags_obs i) || isinf (err mags_obs i) || (err mags_obs i >? Fin 1e9))
     = true) ->
  star_covariance mags_obs ext_model RV = (inv_cov_00, inv_cov_01, inv_cov_11) ->
  let cells :=
    recorded_cells stellar_model los_model mags_obs ext_model
      inv_cov_00 inv_cov_01 inv_cov_11 use_priors use_gaia RV in
  (img_idx < length (img img_stack))%nat ->
  cells <> [] ->
  (forall chi2_min prior_max, exists image,
     fold_left (deposit_recorded (rect img_stack) chi2_min prior_max) cells
       (Returns (zeros (N_bins (rect img_stack) 0) (N_bins (rect img_stack) 1)))
     = Returns image) ->
  gaussian_filter inv_cov_11 inv_cov_01 inv_cov_00 (rect img_stack)
    (Fin 5) 2 (Fin 1) verbosity = Returns K ->
  count_passbands mags_obs = 0%Z
  /\ exists stack' chi2_min,
       In chi2_min (map rc_chi2 cells)
       /\ integrate_ML_solution stellar_model los_model mags_obs ext_model
            img_stack img_idx use_priors use_gaia RV verbosity
          = Returns (stack', chi2_min / Fin 0)
       /\ ~ is_finite (chi2_min / Fin 0).
Proof.
  intros Hmiss Hcov cells Hidx Hne Hdep HK.
  assert (Hcount : count_passbands mags_obs = 0%Z) by (apply count_passbands_none; exact Hmiss).
  split; [exact Hcount|].
  destruct (integrate_ML_solution_returns stellar_model los_model mags_obs ext_model
              img_stack img_idx use_priors use_gaia RV verbosity
              inv_cov_00 inv_cov_01 inv_cov_11 K Hcov Hidx Hne Hdep HK)
    as [mn [mx [image [_ [Hin [_ Hret]]]]]].
  rewrite Hcount in Hret.
  eexists. exists mn. split; [exact Hin|]. split; [exact Hret|].
  apply ddiv_zero_not_finite.
Qed.

(** A star with a positive definite inverse covariance and at least one
    band that is not missing, all of whose recorded cells are outside the
    grid, evaluated with a positive [verbosity] (it is the sub-sampling
    factor of the kernel) for which the sub-sampled kernel has sides that are
    [int]s: the call returns a finite chi-square per passband and leaves a
    surface of the shape of the grid that is zero everywhere. *)
Lemma all_cells_outside
    (stellar_model : TStellarModel) (los_model : TGalacticLOSModel)
    (mags_obs : TMagnitudes) (ext_model : TExtinctionModel)
    (img_stack : TImgStack) (img_idx : nat)
    (use_priors use_gaia : bool) (RV : double) (verbosity W : Z)
    (c00 c01 c11 d0 d1 : R) :
  star_covariance mags_obs ext_model RV = (Fin c00, Fin c01, Fin c11) ->
  (0 < c00)%R -> (0 < c11)%R -> (0 < c00 * c11 - c01 * c01)%R ->
  dx (rect img_stack) 0 = Fin d0 -> dx (rect img_stack) 1 = Fin d1 ->
  (0 < d0)%R -> (0 < d1)%R ->
  (0 < verbosity)%Z ->
  (2 <= W)%Z -> (1582 <= IZR W * (d0 * d1))%R ->
  (verbosity * (2 * W + 1) <= INT_MAX)%Z ->
  (0 < count_passbands mags_obs)%Z ->
  (img_idx < length (img img_stack))%nat ->
  let cells :=
    recorded_cells stellar_model los_model mags_obs ext_model
      (Fin c00) (Fin c01) (Fin c11) use_priors use_gaia RV in
  cells <> [] ->
  (forall c, In c cells -> is_finite (rc_chi2 c)) ->
  (forall c, In c cells -> in_grid (rect img_stack) c = false) ->
  exists stack' surface x,
    integrate_ML_solution stellar_model los_model mags_obs ext_model
      img_stack img_idx use_priors use_gaia RV verbosity = Returns (stack', Fin x)
    /\ nth_error (img stack') img_idx = Some surface
    /\ rows surface = N_bins (rect img_stack) 0
    /\ cols surface = N_bins (rect img_stack) 1
    /\ forall i j, at_ surface i j = Fin 0.
Proof.
  intros Hcov H00 H11 Hdet H0 H1 Hd0 Hd1 Hv HW Hbig Hint Hbands Hidx cells Hne Hchi2 Hout.
  destruct (kernel_of_star (rect img_stack) verbosity W c00 c01 c11 d0 d1)
    as [K [HK HKfin]]; trivial.
  destruct (integrate_ML_solution_returns stellar_model los_model mags_obs ext_model
              img_stack img_idx use_priors use_gaia RV verbosity
              (Fin c00) (Fin c01) (Fin c11) K Hcov Hidx Hne)
    as [mn [mx [image [_ [Hin [Himage Hret]]]]]].
  { intros chi2_min prior_max. eexists. apply deposit_all_outside. exact Hout. }
  { exact HK. }
  fold cells in Himage, Hin.
  rewrite deposit_all_outside in Himage by exact Hout.
  injection Himage as <-.
  apply in_map_iff in Hin. destruct Hin as [c [Hc Hcin]].
  specialize (Hchi2 c Hcin). rewrite Hc in Hchi2.
  destruct mn as [v| | |]; try contradiction.
  unfold of_int in Hret. rewrite ddiv_Fin in Hret by (apply not_0_IZR; lia).
  eexists. eexists. eexists. split; [exact Hret|].
  cbn [img]. split; [apply nth_error_list_set; exact Hidx|].
  split; [reflexivity|]. split; [reflexivity|].
  apply filter2D_zeros. intros i j Hi Hj. apply nonneg_fin_finite, HKfin; assumption.
Qed.

(** The same star evaluated with [verbosity = 0], the value that asks for
    no message: the kernel is built with a sub-sampling factor of zero and
    the surface the call leaves is NaN everywhere. *)
Lemma all_cells_outside_quiet
    (stellar_model : TStellarModel) (los_model : TGalacticLOSModel)
    (mags_obs : TMagnitudes) (ext_model : TExtinctionModel)
    (img_stack : TImgStack) (img_idx : nat)
    (use_priors use_gaia : bool) (RV : double) (W : Z)
    (c00 c01 c11 d0 d1 : R) :
  star_covariance mags_obs ext_model RV = (Fin c00, Fin c01, Fin c11) ->
  (0 < c00)%R -> (0 < c11)%R -> (0 < c00 * c11 - c01 * c01)%R ->
  dx (rect img_stack) 0 = Fin d0 -> dx (rect img_stack) 1 = Fin d1 ->
  (0 < d0)%R -> (0 < d1)%R ->
  (2 <= W)%Z -> (1582 <= IZR W * (d0 * d1))%R ->
  (2 * W + 1 <= INT_MAX)%Z ->
  (0 < count_passbands mags_obs)%Z ->
  (img_idx < length (img img_stack))%nat ->
  let cells :=
    recorded_cells stellar_model los_model mags_obs ext_model
      (Fin c00) (Fin c01) (Fin c11) use_priors use_gaia RV in
  cells <> [] ->
  (forall c, In c cells -> is_finite (rc_chi2 c)) ->
  (forall c, In c cells -> in_grid (rect img_stack) c = false) ->
  exists stack' surface x,
    integrate_ML_solution stellar_model los_model mags_obs ext_model
      img_stack img_idx use_priors use_gaia RV 0 = Returns (stack', Fin x)
    /\ nth_error (img stack') img_idx = Some surface
    /\ rows surface = N_bins (rect img_stack) 0
    /\ cols surface = N_bins (rect img_stack) 1
    /\ forall i j, at_ surface i j = NaN.
Proof.
  intros Hcov H00 H11 Hdet H0 H1 Hd0 Hd1 HW Hbig Hint Hbands Hidx cells Hne Hchi2 Hout.
  destruct (kernel_without_subsample (rect img_stack) W c00 c01 c11 d0 d1)
    as [K [HK [Hr [Hcc HNaN]]]]; trivial.
  destruct (integrate_ML_solution_returns stellar_model los_model mags_obs ext_model
              img_stack img_idx use_priors use_gaia RV 0
              (Fin c00) (Fin c01) (Fin c11) K Hcov Hidx Hne)
    as [mn [mx [image [_ [Hin [Himage Hret]]]]]].
  { intros chi2_min prior_max. eexists. apply deposit_all_outside. exact Hout. }
  { exact HK. }
  fold cells in Himage, Hin.
  rewrite deposit_all_outside in Himage by exact Hout.
  injection Himage as <-.
  apply in_map_iff in Hin. destruct Hin as [c [Hc Hcin]].
  specialize (Hchi2 c Hcin). rewrite Hc in Hchi2.
  destruct mn as [v| | |]; try contradiction.
  unfold of_int in Hret. rewrite ddiv_Fin in Hret by (apply not_0_IZR; lia).
  eexists. eexists. eexists. split; [exact Hret|].
  cbn [img]. split; [apply nth_error_list_set; exact Hidx|].
  split; [reflexivity|]. split; [reflexivity|].
  apply filter2D_NaN; [lia|lia|exact HNaN].
Qed.

(** ** An empty library *)

(** C10.  [integrate_ML_solution] is defined only when some cell of the grid
    yields a SED.  When every lookup fails the sweep records nothing, the
    reductions for [prior_max] and [chi2_min] dereference the end of an empty
    vector, and the call has no defined outcome; and a call that returns has
    found a cell of the grid in the library. *)
Theorem integrate_ML_solution_needs_a_sed
    (stellar_model : TStellarModel) (los_model : TGalacticLOSModel)
    (mags_obs : TMagnitudes) (ext_model : TExtinctionModel)
    (img_stack : TImgStack) (img_idx : nat)
    (use_priors use_gaia : bool) (RV : double) (verbosity : Z) :
  let inv_cov := star_covariance mags_obs ext_model RV in
  let v := sweep stellar_model los_model mags_obs ext_model
             (fst (fst inv_cov)) (snd (fst inv_cov)) (snd inv_cov)
             use_priors use_gaia RV in
  ((forall Mr_idx FeH_idx,
      (Mr_idx < get_N_Mr stellar_model)%nat -> (FeH_idx < get_N_FeH stellar_model)%nat ->
      get_sed stellar_model Mr_idx FeH_idx = None) ->
   chi2_ML v = [] /\ prior_ML v = []
   /\ max_element (prior_ML v) = Undefined /\ min_element (chi2_ML v) = Undefined
   /\ integrate_ML_solution stellar_model los_model mags_obs ext_model
        img_stack img_idx use_priors use_gaia RV verbosity = Undefined)
  /\ (forall r,
        integrate_ML_solution stellar_model los_model mags_obs ext_model
          img_stack img_idx use_priors use_gaia RV verbosity = Returns r ->
        exists Mr_idx FeH_idx t,
          (Mr_idx < get_N_Mr stellar_model)%nat /\ (FeH_idx < get_N_FeH stellar_model)%nat
          /\ get_sed stellar_model Mr_idx FeH_idx = Some t).
Proof.
  intros inv_cov v. unfold v. rewrite sweep_records.
  pose proof (integrate_ML_solution_passes stellar_model los_model mags_obs ext_model
                img_stack img_idx use_priors use_gaia RV verbosity) as Hp.
  cbv zeta in Hp. fold inv_cov in Hp.
  split.
  - intros Hnone.
    rewrite Hp.
    rewrite (recorded_cells_empty _ _ _ _ _ _ _ _ _ _ Hnone).
    repeat split.
  - intros r Hr. rewrite Hp in Hr.
    destruct (recorded_cells stellar_model los_model mags_obs ext_model
                (fst (fst inv_cov)) (snd (fst inv_cov)) (snd inv_cov)
                use_priors use_gaia RV) as [|c cells] eqn:E.
    + discriminate Hr.
    + destruct (recorded_cells_from_library stellar_model los_model mags_obs ext_model
                  (fst (fst inv_cov)) (snd (fst inv_cov)) (snd inv_cov)
                  use_priors use_gaia RV c) as [i [j [t [Hi [Hj [Hs _]]]]]].
      * rewrite E. left. reflexivity.
      * exists i, j, t. repeat split; assumption.
Qed.

(** ** BatchEvaluator: the second smoothing pass *)

Lemma nth_error_list_set_other {A : Type} (l : list A) (k i : nat) (x : A) :
  i <> k -> nth_error (list_set l k x) i = nth_error l i.
Proof.
  revert k i. induction l as [|h t IH]; intros k i Hik; destruct k as [|k];
    cbn [list_set]; try reflexivity.
  - destruct i as [|i]; [congruence|reflexivity].
  - destruct i as [|i]; cbn [nth_error]; [reflexivity|]. apply IH. congruence.
Qed.

Lemma existsb_nat_notin (x : nat) (l : list nat) :
  ~ In x l -> existsb (Nat.eqb x) l = false.
Proof.
  intros H. apply not_true_is_false. intros E. apply H.
  apply existsb_exists in E. destruct E as [y [Hy Hxy]].
  apply Nat.eqb_eq in Hxy. subst y. exact Hy.
Qed.

Lemma scale_loop (L : list nat) :
  NoDup L -> forall sigma_pix : list double,
  let r :=
    fold_left
      (fun sigma_pix i =>
         match nth_error sigma_pix i with
         | Some x => list_set sigma_pix i (x * of_int (Z.of_nat i))
         | None => sigma_pix
         end) L sigma_pix in
  length r = length sigma_pix /\
  forall i,
    nth_error r i
    = if existsb (Nat.eqb i) L
      then option_map (fun x => x * of_int (Z.of_nat i)) (nth_error sigma_pix i)
      else nth_error sigma_pix i.
Proof.
  induction 1 as [|a L Ha HL IH]; intros sigma_pix; cbn [fold_left existsb].
  - split; reflexivity.
  - cbv zeta.
    destruct (nth_error sigma_pix a) as [x|] eqn:Ea.
    + destruct (IH (list_set sigma_pix a (x * of_int (Z.of_nat a)))) as [Hlen Hat].
      rewrite Hlen, length_list_set. split; [reflexivity|]. intros i. rewrite Hat.
      assert (Hlt : (a < length sigma_pix)%nat)
        by (apply nth_error_Some; rewrite Ea; discriminate).
      destruct (Nat.eqb_spec i a) as [->|Hi]; cbn [orb].
      * rewrite (existsb_nat_notin a L Ha), nth_error_list_set, Ea by exact Hlt.
        reflexivity.
      * rewrite nth_error_list_set_other by exact Hi. reflexivity.
    + destruct (IH sigma_pix) as [Hlen Hat].
      split; [exact Hlen|]. intros i. rewrite Hat.
      destruct (Nat.eqb_spec i a) as [->|Hi]; cbn [orb]; [|reflexivity].
      rewrite (existsb_nat_notin a L Ha), Ea. reflexivity.
Qed.

(** The width of bin [i] is multiplied by [i]. *)
Lemma scale_by_index_nth (sigma_pix : list double) :
  length (scale_by_index sigma_pix) = length sigma_pix
  /\ forall i x, nth_error sigma_pix i = Some x ->
       nth_error (scale_by_index sigma_pix) i = Some (x * of_int (Z.of_nat i)).
Proof.
  destruct (scale_loop (seq 0 (length sigma_pix)) (seq_NoDup _ _) sigma_pix)
    as [Hlen Hat].
  split; [exact Hlen|]. intros i x Hx. unfold scale_by_index. rewrite Hat, Hx.
  assert (Hin : existsb (Nat.eqb i) (seq 0 (length sigma_pix)) = true).
  { apply existsb_exists. exists i. split; [|apply Nat.eqb_refl].
    apply in_seq_0. apply nth_error_Some. rewrite Hx. discriminate. }
  rewrite Hin. reflexivity.
Qed.

(** C9.  When the second smoothing pass runs ([pct_smoothing_max > 0]), it
    runs once, on the cropped stack that the loop over all stars has left,
    and the width it applies at bin [i] is the width that
    [calc_pct_smoothing] computes for the pixel, multiplied by [i]; a finite
    width at bin 0 becomes zero. *)
Theorem second_pass_scales_width_by_bin_index
    (now : nat -> double)
    (los_model : TGalacticLOSModel) (ext_model : TExtinctionModel)
    (stellar_model : TStellarModel) (stellar_data : TStellarData)
    (EBV_smoothing : TEBVSmoothing) (img_stack : TImgStack) (chi2_0 : list double)
    (use_priors use_gaia : bool) (RV : double) (verbosity : Z)
    (stack1 : TImgStack) (chi2 : list double) :
  (get_pct_smoothing_max EBV_smoothing >? Fin 0) = true ->
  eval_all_stars los_model ext_model stellar_model stellar_data
    (set_rect img_stack stellar_pdf_rect) [] use_priors use_gaia RV verbosity
  = Returns (stack1, chi2) ->
  let cropped := crop stack1 (Fin 0) (Fin 7) (Fin 4) (Fin 19) in
  let base :=
    calc_pct_smoothing EBV_smoothing (nside stellar_data)
      (rect_min (rect cropped) 0) (rect_max (rect cropped) 0)
      (N_bins (rect cropped) 0) in
  exists sigma_pix report,
    grid_eval_stars now los_model ext_model stellar_model stellar_data EBV_smoothing
      img_stack chi2_0 use_priors use_gaia RV verbosity
    = Returns (smooth cropped sigma_pix, chi2, report)
    /\ length sigma_pix = length base
    /\ (forall i x, nth_error base i = Some x ->
          nth_error sigma_pix i = Some (x * of_int (Z.of_nat i)))
    /\ (forall b, nth_error base 0 = Some (Fin b) ->
          nth_error sigma_pix 0 = Some (Fin 0)).
Proof.
  intros Hpct Hloop cropped base.
  destruct (scale_by_index_nth base) as [Hlen Hnth].
  exists (scale_by_index base). eexists.
  split; [|split; [exact Hlen|split; [exact Hnth|]]].
  - unfold grid_eval_stars. cbv zeta. rewrite Hloop. cbn [bind].
    unfold smooth_EBV. fold cropped. rewrite Hpct. fold base. reflexivity.
  - intros b Hb. rewrite (Hnth 0%nat (Fin b) Hb).
    unfold of_int. rewrite dmul_Fin. do 2 f_equal. cbn [Z.of_nat]. lra.
Qed.

(** ** BatchEvaluator: what the results depend on *)

(** A call of [integrate_ML_solution] replaces the image of the star and
    reads nothing of what the stack held. *)
Lemma integrate_ML_solution_surface
    (stellar_model : TStellarModel) (los_model : TGalacticLOSModel)
    (mags_obs : TMagnitudes) (ext_model : TExtinctionModel)
    (img_stack : TImgStack) (img_idx : nat)
    (use_priors use_gaia : bool) (RV : double) (verbosity : Z) :
  (img_idx < length (img img_stack))%nat ->
  integrate_ML_solution stellar_model los_model mags_obs ext_model
    img_stack img_idx use_priors use_gaia RV verbosity
  = (r <- star_surface stellar_model los_model mags_obs ext_model (rect img_stack)
            use_priors use_gaia RV verbosity ;;
     Returns ({| img := list_set (img img_stack) img_idx (fst r);
                 rect := rect img_stack |}, snd r)).
Proof.
  intros Hidx.
  rewrite integrate_ML_solution_passes. cbv zeta. unfold star_surface.
  unfold initialize_to_zero.
  destruct (Nat.ltb_spec img_idx (length (img img_stack))) as [_|Hge]; [|lia].
  cbn [fst rect img]. unfold stack_get. cbn [img].
  rewrite nth_error_list_set by exact Hidx.
  destruct (max_element _) as [prior_max| |]; cbn [bind]; trivial.
  destruct (min_element _) as [chi2_min| |]; cbn [bind]; trivial.
  destruct (fold_left _ _ _) as [image| |]; cbn [bind]; trivial.
  destruct (gaussian_filter _ _ _ _ _ _ _ _) as [cov_img| |]; cbn [bind fst snd]; trivial.
  rewrite list_set_twice. reflexivity.
Qed.

Lemma firstn_list_set {A : Type} (l : list A) (k : nat) (x : A) :
  (k < length l)%nat -> firstn (S k) (list_set l k x) = firstn k l ++ [x].
Proof.
  revert k. induction l as [|h t IH]; intros k Hk; cbn [length] in Hk; [lia|].
  destruct k as [|k]; cbn [list_set firstn app]; [reflexivity|].
  f_equal. apply IH. lia.
Qed.

Section Erasure.

Variables (los_model : TGalacticLOSModel) (ext_model : TExtinctionModel).
Variables (stellar_model : TStellarModel) (stellar_data : TStellarData).
Variables (use_priors use_gaia : bool) (RV : double) (verbosity : Z).

Let n : nat := length (star stellar_data).

Let step (state : outcome (TImgStack * list double)) (i : nat)
    : outcome (TImgStack * list double) :=
  '(img_stack, chi2) <- state ;;
  mags_obs <- vector_at (star stellar_data) i ;;
  '(img_stack, chi2_min) <-
    integrate_ML_solution stellar_model los_model mags_obs ext_model
      img_stack i use_priors use_gaia RV verbosity ;;
  Returns (img_stack, push_back chi2 chi2_min).

Lemma step_agree (k : nat) (stA stB : outcome (TImgStack * list double)) :
  (k < n)%nat -> agree n k stA stB -> agree n (S k) (step stA k) (step stB k).
Proof.
  intros Hk.
  destruct stA as [[sA cA]| |], stB as [[sB cB]| |]; cbn [agree];
    try contradiction; try (intros _; exact I).
  intros [Hrect [HlA [HlB [Hfirst ->]]]].
  unfold step. cbn [bind].
  destruct (vector_at (star stellar_data) k) as [mags_obs| |]; cbn [bind agree]; trivial.
  rewrite !integrate_ML_solution_surface by lia.
  rewrite Hrect.
  destruct (star_surface stellar_model los_model mags_obs ext_model (rect sB)
              use_priors use_gaia RV verbosity) as [[surface chi2_min]| |];
    cbn [bind agree fst snd img rect]; trivial.
  rewrite !length_list_set, !firstn_list_set, Hfirst by lia.
  repeat split; assumption.
Qed.

Lemma loop_agree (len k : nat) (stA stB : outcome (TImgStack * list double)) :
  (k + len = n)%nat -> agree n k stA stB ->
  agree n n (fold_left step (seq k len) stA) (fold_left step (seq k len) stB).
Proof.
  revert k stA stB. induction len as [|len IH]; intros k stA stB Hn Hag;
    cbn [seq fold_left].
  - replace k with n in Hag by lia. exact Hag.
  - apply IH; [lia|]. apply step_agree; [lia|exact Hag].
Qed.

Lemma agree_all (stA stB : outcome (TImgStack * list double)) :
  agree n n stA stB -> stA = stB.
Proof.
  destruct stA as [[sA cA]| |], stB as [[sB cB]| |]; cbn [agree];
    try contradiction; try reflexivity.
  intros [Hrect [HlA [HlB [Hfirst ->]]]].
  rewrite <- HlA in Hfirst at 1. rewrite <- HlB in Hfirst.
  rewrite !firstn_all in Hfirst.
  destruct sA as [iA rA], sB as [iB rB]. cbn in *. subst. reflexivity.
Qed.

(** The loop over all stars leaves nothing of what the stack held. *)
Lemma eval_all_stars_erases (sA sB : TImgStack) (chi2 : list double) :
  rect sA = rect sB -> length (img sA) = n -> length (img sB) = n ->
  eval_all_stars los_model ext_model stellar_model stellar_data sA chi2
    use_priors use_gaia RV verbosity
  = eval_all_stars los_model ext_model stellar_model stellar_data sB chi2
      use_priors use_gaia RV verbosity.
Proof.
  intros Hrect HlA HlB. apply agree_all.
  apply (loop_agree n 0 (Returns (sA, chi2)) (Returns (sB, chi2))); [lia|].
  cbn [agree]. repeat split; assumption.
Qed.

End Erasure.

(** C8.  The evaluation of a pixel is a function of its inputs: two runs on
    the same stars, models and options produce the same surfaces and the same
    chi-squares, whatever the clock reads and whatever the output arguments
    [img_stack] (one image per star) and [chi2] held before the call. *)
Theorem grid_eval_stars_deterministic
    (now1 now2 : nat -> double)
    (los_model : TGalacticLOSModel) (ext_model : TExtinctionModel)
    (stellar_model : TStellarModel) (stellar_data : TStellarData)
    (EBV_smoothing : TEBVSmoothing)
    (img_stack1 img_stack2 : TImgStack) (chi2_1 chi2_2 : list double)
    (use_priors use_gaia : bool) (RV : double) (verbosity : Z) :
  length (img img_stack1) = length (star stellar_data) ->
  length (img img_stack2) = length (star stellar_data) ->
  results (grid_eval_stars now1 los_model ext_model stellar_model stellar_data
             EBV_smoothing img_stack1 chi2_1 use_priors use_gaia RV verbosity)
  = results (grid_eval_stars now2 los_model ext_model stellar_model stellar_data
               EBV_smoothing img_stack2 chi2_2 use_priors use_gaia RV verbosity).
Proof.
  intros H1 H2. unfold grid_eval_stars. cbv zeta.
  rewrite (eval_all_stars_erases los_model ext_model stellar_model stellar_data
             use_priors use_gaia RV verbosity
             (set_rect img_stack1 stellar_pdf_rect) (set_rect img_stack2 stellar_pdf_rect) [])
    by (cbn [set_rect rect img]; trivial).
  destruct (eval_all_stars los_model ext_model stellar_model stellar_data
              (set_rect img_stack2 stellar_pdf_rect) [] use_priors use_gaia RV verbosity)
    as [[s c]| |]; reflexivity.
Qed.

(** * Further properties *)

(** ** The two overloads of [star_max_likelihood] *)

Lemma five_sums_loop (mags_model : TSED) (mags_obs : TMagnitudes)
    (ext_model : TExtinctionModel) (RV : double) (l : list nat)
    (x y z u v : double) :
  fold_left
    (fun '(inv_sigma2, A_over_sigma2, A2_over_sigma2,
           dm_over_sigma2, dm_A_over_sigma2) i =>
       let A := get_A ext_model RV i in
       let ivar := Fin 1 / (err mags_obs i * err mags_obs i) in
       let dm := m mags_obs i - absmag mags_model i in
       (inv_sigma2 + ivar, A_over_sigma2 + A * ivar, A2_over_sigma2 + A * A * ivar,
        dm_over_sigma2 + dm * ivar, dm_A_over_sigma2 + dm * A * ivar))
    l (x, y, z, u, v)
  = let c :=
      fold_left
        (fun '(inv_sigma2, A_over_sigma2, A2_over_sigma2) i =>
           let A := get_A ext_model RV i in
           let ivar := Fin 1 / (err mags_obs i * err mags_obs i) in
           (inv_sigma2 + ivar, A_over_sigma2 + A * ivar, A2_over_sigma2 + A * A * ivar))
        l (x, y, z) in
    let d :=
      fold_left
        (fun '(dm_over_sigma2, dm_A_over_sigma2) i =>
           let A := get_A ext_model RV i in
           let ivar := Fin 1 / (err mags_obs i * err mags_obs i) in
           let dm := m mags_obs i - absmag mags_model i in
           (dm_over_sigma2 + dm * ivar, dm_A_over_sigma2 + dm * A * ivar))
        l (u, v) in
    (fst (fst c), snd (fst c), snd c, fst d, snd d).
Proof.
  revert x y z u v. induction l as [|k l IH]; intros x y z u v;
    cbn [fold_left]; cbv beta iota zeta.
  - reflexivity.
  - rewrite IH. reflexivity.
Qed.

(** The inverse covariance that the overload for [LinearFitParams] stores is
    the one of [star_covariance]. *)
Lemma star_max_likelihood_params_inv_cov
    (mags_model : TSED) (mags_obs : TMagnitudes) (ext_model : TExtinctionModel)
    (RV : double) :
  let p := star_max_likelihood_params mags_model mags_obs ext_model RV in
  let c := star_covariance mags_obs ext_model RV in
  LinearFitParams.inv_cov p 0 0 = fst (fst c)
  /\ LinearFitParams.inv_cov p 0 1 = snd (fst c)
  /\ LinearFitParams.inv_cov p 1 0 = snd (fst c)
  /\ LinearFitParams.inv_cov p 1 1 = snd c.
Proof.
  intros p c. unfold p, c, star_max_likelihood_params, star_covariance.
  rewrite five_sums_loop. cbv zeta.
  destruct (fold_left _ (seq 0 NBANDS) (Fin 0, Fin 0, Fin 0)) as [[c00 c01] c11].
  destruct (fold_left _ (seq 0 NBANDS) (Fin 0, Fin 0)) as [d0 d1].
  cbn [fst snd LinearFitParams.inv_cov]. repeat split.
Qed.

(** X1.  The overload of [star_max_likelihood] that returns
    [LinearFitParams] agrees with [star_covariance] followed by the overload
    with output arguments, on every input: the same mean, the same
    chi-square, and the scalars of [star_covariance] as a symmetric matrix. *)
Theorem star_max_likelihood_overloads_agree
    (mags_model : TSED) (mags_obs : TMagnitudes) (ext_model : TExtinctionModel)
    (RV : double) :
  let p := star_max_likelihood_params mags_model mags_obs ext_model RV in
  let c := star_covariance mags_obs ext_model RV in
  let r := star_max_likelihood mags_model mags_obs ext_model
             (fst (fst c)) (snd (fst c)) (snd c) RV in
  LinearFitParams.mean p 0 = fst (fst r)
  /\ LinearFitParams.mean p 1 = snd (fst r)
  /\ LinearFitParams.chi2 p = snd r
  /\ LinearFitParams.inv_cov p 0 0 = fst (fst c)
  /\ LinearFitParams.inv_cov p 0 1 = snd (fst c)
  /\ LinearFitParams.inv_cov p 1 0 = LinearFitParams.inv_cov p 0 1
  /\ LinearFitParams.inv_cov p 1 1 = snd c.
Proof.
  intros p c r. unfold p, r, c.
  unfold star_max_likelihood_params, star_max_likelihood, star_covariance, ml_sums, ml_chi2.
  rewrite five_sums_loop. cbv zeta.
  destruct (fold_left _ (seq 0 NBANDS) (Fin 0, Fin 0, Fin 0)) as [[c00 c01] c11].
  destruct (fold_left _ (seq 0 NBANDS) (Fin 0, Fin 0)) as [d0 d1].
  cbn [fst snd LinearFitParams.mean LinearFitParams.chi2 LinearFitParams.inv_cov].
  repeat split.
Qed.

(** ** The normal equations *)

Section NormalEquations.

Variables (e mo M a : nat -> R).

Let w (i : nat) : R := (1 / (e i * e i))%R.
Let dm (i : nat) : R := (mo i - M i)%R.

Lemma weight_pos (i : nat) : e i <> 0%R -> (0 < w i)%R.
Proof. intros He. unfold w. apply Rdiv_lt_0_compat; nra. Qed.

(** The chi-square as a quadratic in [(mu, E)]. *)
Lemma chi2_quadratic (l : list nat) (mu E : R) :
  Rsum (fun i => (dm i - E * a i - mu) * (dm i - E * a i - mu) * w i)%R l
  = (Rsum (fun i => dm i * dm i * w i) l
     - 2 * E * Rsum (fun i => dm i * a i * w i) l
     - 2 * mu * Rsum (fun i => dm i * w i) l
     + E * E * Rsum (fun i => a i * a i * w i) l
     + 2 * E * mu * Rsum (fun i => a i * w i) l
     + mu * mu * Rsum w l)%R.
Proof.
  induction l as [|k l IH]; rewrite ?Rsum_nil, ?Rsum_cons; [ring|].
  rewrite IH. ring.
Qed.

Lemma spread_quadratic (l : list nat) (t : R) :
  Rsum (fun i => (a i - t) * (a i - t) * w i)%R l
  = (Rsum (fun i => a i * a i * w i) l
     - 2 * t * Rsum (fun i => a i * w i) l
     + t * t * Rsum w l)%R.
Proof.
  induction l as [|k l IH]; rewrite ?Rsum_nil, ?Rsum_cons; [ring|].
  rewrite IH. ring.
Qed.

Variable l : list nat.
Hypothesis He : forall i, In i l -> e i <> 0%R.

Let S00 : R := Rsum w l.
Let S01 : R := Rsum (fun i => a i * w i)%R l.
Let S11 : R := Rsum (fun i => a i * a i * w i)%R l.

Lemma S00_nonneg : (0 <= S00)%R.
Proof.
  apply Rsum_nonneg. intros i Hi. apply Rlt_le, weight_pos, He, Hi.
Qed.

Lemma S11_nonneg : (0 <= S11)%R.
Proof.
  apply Rsum_nonneg. intros i Hi. cbv beta.
  apply Rmult_le_pos; [apply Rle_0_sqr|apply Rlt_le, weight_pos, He, Hi].
Qed.

Lemma spread_nonneg (t : R) : (0 <= S11 - 2 * t * S01 + t * t * S00)%R.
Proof.
  unfold S11, S01, S00. rewrite <- spread_quadratic.
  apply Rsum_nonneg. intros i Hi. cbv beta.
  apply Rmult_le_pos; [apply Rle_0_sqr|apply Rlt_le, weight_pos, He, Hi].
Qed.

(** Cauchy and Schwarz: the determinant of the normal equations is not
    negative. *)
Lemma determinant_nonneg : (0 <= S00 * S11 - S01 * S01)%R.
Proof.
  pose proof S00_nonneg as H0.
  destruct (Req_dec S00 0) as [Hz|Hnz].
  - assert (Hw : forall i, In i l -> w i = 0%R).
    { apply Rsum_zero_terms; [|exact Hz].
      intros i Hi. apply Rlt_le, weight_pos, He, Hi. }
    assert (H01 : S01 = 0%R).
    { apply Rsum_all_zero. intros i Hi. rewrite (Hw i Hi). ring. }
    rewrite Hz, H01. lra.
  - pose proof (spread_nonneg (S01 / S00)) as Hs.
    assert (Hid : ((S11 - 2 * (S01 / S00) * S01 + S01 / S00 * (S01 / S00) * S00) * S00
                   = S00 * S11 - S01 * S01)%R) by (field; exact Hnz).
    rewrite <- Hid. apply Rmult_le_pos; lra.
Qed.

(** A determinant that is not zero is positive, and so are both diagonal
    sums. *)
Lemma determinant_nonzero :
  (S00 * S11 - S01 * S01 <> 0)%R ->
  (0 < S00)%R /\ (0 < S11)%R /\ (0 < S00 * S11 - S01 * S01)%R.
Proof.
  intros Hd. pose proof determinant_nonneg. pose proof S00_nonneg. pose proof S11_nonneg.
  assert (0 < S00 * S11 - S01 * S01)%R by lra.
  assert (0 <= S01 * S01)%R by nra.
  repeat split; nra.
Qed.

End NormalEquations.

(** ** The maximum-likelihood solution *)

Section Fit.

Variables (mags_obs : TMagnitudes) (mags_model : TSED) (ext_model : TExtinctionModel).
Variables (RV : double) (e mo M a : nat -> R).
Hypothesis Hfin :
  finite_on (seq 0 NBANDS) mags_obs mags_model ext_model RV e mo M a.

Let l : list nat := seq 0 NBANDS.
Let w (i : nat) : R := (1 / (e i * e i))%R.
Let dm (i : nat) : R := (mo i - M i)%R.
Let S00 : R := Rsum w l.
Let S01 : R := Rsum (fun i => a i * w i)%R l.
Let S11 : R := Rsum (fun i => a i * a i * w i)%R l.
Let D0 : R := Rsum (fun i => dm i * w i)%R l.
Let D1 : R := Rsum (fun i => dm i * a i * w i)%R l.

Lemma fit_errors_nonzero : forall i, In i l -> e i <> 0%R.
Proof. exact (fin_err_nz _ _ _ _ _ _ _ _ _ Hfin). Qed.

Lemma fit_covariance : star_covariance mags_obs ext_model RV = (Fin S00, Fin S01, Fin S11).
Proof.
  unfold star_covariance. fold l.
  rewrite (covariance_loop _ _ _ _ _ _ _ _ _ _ _ _ Hfin).
  rewrite !Rplus_0_l. reflexivity.
Qed.

Lemma fit_chi2 (mu E : R) :
  ml_chi2 mags_model mags_obs ext_model (Fin mu) (Fin E) RV
  = Fin (Rsum (fun i => (dm i - E * a i - mu) * (dm i - E * a i - mu) * w i)%R l).
Proof.
  unfold ml_chi2. fold l.
  rewrite (chi2_loop _ _ _ _ _ _ _ _ _ _ _ _ Hfin).
  rewrite Rplus_0_l. reflexivity.
Qed.

(** The closed-form solution is finite and solves the normal equations. *)
Lemma fit_closed_form :
  (S00 * S11 - S01 * S01 <> 0)%R ->
  exists mu E : R,
    star_max_likelihood mags_model mags_obs ext_model (Fin S00) (Fin S01) (Fin S11) RV
    = (Fin mu, Fin E,
       Fin (Rsum (fun i => (dm i - E * a i - mu) * (dm i - E * a i - mu) * w i)%R l))
    /\ (S00 * mu + S01 * E = D0)%R /\ (S01 * mu + S11 * E = D1)%R.
Proof.
  intros Hdet.
  destruct (determinant_nonzero e a l fit_errors_nonzero Hdet) as [P00 [P11 Pdet]].
  change (0 < S00)%R in P00. change (0 < S11)%R in P11.
  change (0 < S00 * S11 - S01 * S01)%R in Pdet.
  assert (Hc : (1 - S01 / S00 * (S01 / S11) <> 0)%R).
  { intros Hc. apply Hdet.
    replace (S00 * S11 - S01 * S01)%R
      with (S00 * S11 * (1 - S01 / S00 * (S01 / S11)))%R by (field; split; lra).
    rewrite Hc. ring. }
  unfold star_max_likelihood, ml_sums. fold l.
  rewrite (ml_sums_loop _ _ _ _ _ _ _ _ _ _ _ Hfin).
  fold w dm. fold D0 D1. rewrite !Rplus_0_l. cbv zeta.
  rewrite !ddiv_Fin by lra. rewrite !dmul_Fin, !dsub_Fin.
  rewrite ddiv_Fin by exact Hc. rewrite !dmul_Fin.
  change (Rsum (fun i => ((mo i - M i) * (1 / (e i * e i)))%R) (seq 0 NBANDS)) with D0.
  change (Rsum (fun i => ((mo i - M i) * a i * (1 / (e i * e i)))%R) (seq 0 NBANDS))
    with D1.
  exists (1 / (1 - S01 / S00 * (S01 / S11)) * (D0 / S00 - S01 / S00 * (D1 / S11)))%R.
  exists (1 / (1 - S01 / S00 * (S01 / S11)) * (D1 / S11 - S01 / S11 * (D0 / S00)))%R.
  split; [|split].
  - apply f_equal2; [reflexivity|]. apply fit_chi2.
  - clear Hc. revert Hdet P00 P11 Pdet. generalize S00 S01 S11 D0 D1.
    intros s00 s01 s11 d0 d1 Hdet P00 P11 Pdet.
    field. repeat split; try lra; intros Hz; apply Hdet; lra.
  - clear Hc. revert Hdet P00 P11 Pdet. generalize S00 S01 S11 D0 D1.
    intros s00 s01 s11 d0 d1 Hdet P00 P11 Pdet.
    field. repeat split; try lra; intros Hz; apply Hdet; lra.
Qed.

(** How far the chi-square at [(mu', E')] is above the chi-square at a
    solution [(mu, E)] of the normal equations. *)
Lemma fit_excess (mu E mu' E' : R) :
  (S00 * mu + S01 * E = D0)%R -> (S01 * mu + S11 * E = D1)%R ->
  (Rsum (fun i => (dm i - E' * a i - mu') * (dm i - E' * a i - mu') * w i) l
   - Rsum (fun i => (dm i - E * a i - mu) * (dm i - E * a i - mu) * w i) l
   = S00 * ((mu' - mu) * (mu' - mu)) + 2 * S01 * ((mu' - mu) * (E' - E))
     + S11 * ((E' - E) * (E' - E)))%R.
Proof.
  intros H0 H1.
  pose proof (chi2_quadratic e mo M a l mu E) as Q. cbv zeta in Q.
  pose proof (chi2_quadratic e mo M a l mu' E') as Q'. cbv zeta in Q'.
  unfold D0, D1, S00, S01, S11, dm, w in *.
  rewrite Q, Q', <- H0, <- H1. ring.
Qed.

End Fit.

(** X4.  For a star with finite photometry, non-zero errors and normal
    equations that are not degenerate, [star_max_likelihood] returns the
    minimum of the chi-square: the chi-square it returns is the value of
    [calc_star_chi2] at the returned [(mu, E)], it is not negative, and
    [calc_star_chi2] at any other finite [(mu', E')] is strictly larger. *)
Theorem star_max_likelihood_minimises_chi2
    (mags_obs : TMagnitudes) (mags_model : TSED) (ext_model : TExtinctionModel)
    (RV : double) (e mo M a : nat -> R) (c00 c01 c11 : R) :
  finite_on (seq 0 NBANDS) mags_obs mags_model ext_model RV e mo M a ->
  star_covariance mags_obs ext_model RV = (Fin c00, Fin c01, Fin c11) ->
  (c00 * c11 - c01 * c01 <> 0)%R ->
  exists mu E chi2 : R,
    star_max_likelihood mags_model mags_obs ext_model (Fin c00) (Fin c01) (Fin c11) RV
    = (Fin mu, Fin E, Fin chi2)
    /\ calc_star_chi2 mags_obs ext_model mags_model (Fin mu) (Fin E) RV = Fin chi2
    /\ (0 <= chi2)%R
    /\ forall mu' E' : R,
         exists chi2' : R,
           calc_star_chi2 mags_obs ext_model mags_model (Fin mu') (Fin E') RV = Fin chi2'
           /\ (chi2 <= chi2')%R
           /\ (chi2' = chi2 -> mu' = mu /\ E' = E).
Proof.
  intros Hfin Hcov Hdet.
  rewrite (fit_covariance mags_obs mags_model ext_model RV e mo M a Hfin) in Hcov.
  injection Hcov as <- <- <-.
  pose proof (fit_errors_nonzero mags_obs mags_model ext_model RV e mo M a Hfin) as He.
  destruct (determinant_nonzero e a (seq 0 NBANDS) He Hdet) as [P00 [P11 Pdet]].
  destruct (fit_closed_form mags_obs mags_model ext_model RV e mo M a Hfin Hdet)
    as [mu [E [Hml [H0 H1]]]].
  exists mu, E. eexists. split; [exact Hml|]. split.
  { apply (fit_chi2 mags_obs mags_model ext_model RV e mo M a Hfin). }
  split.
  { apply Rsum_nonneg. intros i Hi. cbv beta.
    apply Rmult_le_pos; [apply Rle_0_sqr|apply Rlt_le, weight_pos, He, Hi]. }
  intros mu' E'. eexists. split.
  { apply (fit_chi2 mags_obs mags_model ext_model RV e mo M a Hfin). }
  pose proof (fit_excess e mo M a mu E mu' E' H0 H1)
    as Hex. cbv zeta in Hex.
  set (S00 := Rsum (fun i => 1 / (e i * e i))%R (seq 0 NBANDS)) in *.
  set (S01 := Rsum (fun i => a i * (1 / (e i * e i)))%R (seq 0 NBANDS)) in *.
  set (S11 := Rsum (fun i => a i * a i * (1 / (e i * e i)))%R (seq 0 NBANDS)) in *.
  set (u := (mu' - mu)%R) in *. set (v := (E' - E)%R) in *.
  assert (Hsq : (S00 * (S00 * (u * u) + 2 * S01 * (u * v) + S11 * (v * v))
                 = (S00 * u + S01 * v) * (S00 * u + S01 * v)
                   + (S00 * S11 - S01 * S01) * (v * v))%R) by ring.
  assert (Hq1 : (0 <= (S00 * u + S01 * v) * (S00 * u + S01 * v))%R) by apply Rle_0_sqr.
  assert (Hq2 : (0 <= v * v)%R) by apply Rle_0_sqr.
  assert (Hq3 : (0 <= (S00 * S11 - S01 * S01) * (v * v))%R) by (apply Rmult_le_pos; lra).
  assert (Hq : (0 <= S00 * (u * u) + 2 * S01 * (u * v) + S11 * (v * v))%R).
  { apply (Rmult_le_reg_l S00); [exact P00|]. rewrite Hsq. lra. }
  split; [lra|].
  intros Heq.
  assert (Hz : (S00 * (u * u) + 2 * S01 * (u * v) + S11 * (v * v) = 0)%R) by lra.
  rewrite Hz, Rmult_0_r in Hsq.
  assert (Hv2 : ((S00 * S11 - S01 * S01) * (v * v) = 0)%R) by lra.
  assert (Hv : v = 0%R).
  { apply Rmult_integral in Hv2. destruct Hv2 as [Hv2|Hv2]; [lra|].
    apply Rmult_integral in Hv2. destruct Hv2; assumption. }
  assert (Hu2 : ((S00 * u + S01 * v) * (S00 * u + S01 * v) = 0)%R) by lra.
  assert (Hu : u = 0%R).
  { apply Rmult_integral in Hu2. rewrite Hv, Rmult_0_r, Rplus_0_r in Hu2.
    assert (Hsu : (S00 * u = 0)%R) by (destruct Hu2; assumption).
    apply Rmult_integral in Hsu. destruct Hsu; [lra|assumption]. }
  unfold u, v in Hu, Hv. split; lra.
Qed.

(** ** The kernel of the overload of [gaussian_filter] for [LinearFitParams] *)

Section ParamsKernel.

Variables (p : LinearFitParams.t) (grid : TRect) (a b c d0 d1 : R).
Hypothesis H00 : LinearFitParams.inv_cov p 0 0 = Fin a.
Hypothesis H01 : LinearFitParams.inv_cov p 0 1 = Fin b.
Hypothesis H10 : LinearFitParams.inv_cov p 1 0 = Fin b.
Hypothesis H11 : LinearFitParams.inv_cov p 1 1 = Fin c.
Hypothesis Hd0 : dx grid 0 = Fin d0.
Hypothesis Hd1 : dx grid 1 = Fin d1.

Lemma params_weight_Fin (width0 width1 i j : Z) :
  params_weight p grid width0 width1 i j
  = dexp (Fin (-0.5 * (a * (IZR (i - width0) * d0) * (IZR (i - width0) * d0)
                       + 2 * (b * (IZR (i - width0) * d0) * (IZR (j - width1) * d1))
                       + c * (IZR (j - width1) * d1) * (IZR (j - width1) * d1)))).
Proof.
  unfold params_weight, of_int. rewrite H00, H01, H11, Hd0, Hd1. cbv zeta.
  rewrite !dmul_Fin, !dadd_Fin, !dmul_Fin. reflexivity.
Qed.

(** The weight of the second overload without sub-sampling is the weight of
    the first. *)
Lemma filter_weight_unsampled (width0 width1 i j : Z) :
  filter_weight (Fin a) (Fin b) (Fin c) grid 1
    (Fin 0.5 * of_int (1 * (2 * width0 + 1) - 1))
    (Fin 0.5 * of_int (1 * (2 * width1 + 1) - 1)) i j
  = params_weight p grid width0 width1 i j.
Proof.
  rewrite params_weight_Fin. unfold filter_weight, of_int. rewrite Hd0, Hd1. cbv zeta.
  rewrite !dmul_Fin, !dsub_Fin, !dmul_Fin, !ddiv_1_r, !dmul_Fin, !dadd_Fin, !dmul_Fin.
  do 2 f_equal.
  rewrite !Z.mul_1_l.
  replace (2 * width0 + 1 - 1)%Z with (2 * width0)%Z by lia.
  replace (2 * width1 + 1 - 1)%Z with (2 * width1)%Z by lia.
  rewrite !minus_IZR, !mult_IZR. lra.
Qed.

Lemma params_image (width0 width1 : Z) :
  let K :=
    fold_left
      (fun img_ i =>
         fold_left
           (fun img_ j => mat_add img_ i j (params_weight p grid width0 width1 i j))
           (Zrange (2 * width1 + 1)%Z) img_)
      (Zrange (2 * width0 + 1)%Z)
      (zeros (2 * width0 + 1) (2 * width1 + 1)) in
  rows K = (2 * width0 + 1)%Z /\ cols K = (2 * width1 + 1)%Z /\
  forall i j,
    at_ K i j
    = if (((0 <=? i) && (i <? 2 * width0 + 1)) && ((0 <=? j) && (j <? 2 * width1 + 1)))%Z
      then params_weight p grid width0 width1 i j else Fin 0.
Proof.
  pose proof (grid_loop (params_weight p grid width0 width1)
                (Zrange (2 * width1 + 1)) (Zrange (2 * width0 + 1))
                (NoDup_Zrange _) (NoDup_Zrange _)
                (zeros (2 * width0 + 1) (2 * width1 + 1))) as HG.
  cbv zeta in HG |- *. destruct HG as [Hr [Hc Hat]].
  rewrite Hr, Hc. cbn [zeros rows cols]. repeat split.
  intros i j. rewrite Hat, !existsb_Zrange. cbn [zeros at_].
  rewrite dadd_0_l. reflexivity.
Qed.


(** Without sub-sampling and extra smoothing, and with [n_sigma = 1], the
    second overload computes what the first computes. *)
Lemma params_kernel_unsampled (n_sigma add_diagonal : double) (min_width : Z) :
  (0 <= min_width)%Z -> (add_diagonal >? Fin 0) = false ->
  match gaussian_filter_params p grid n_sigma min_width,
        gaussian_filter (Fin a) (Fin b) (Fin c) grid (Fin 1) min_width add_diagonal 1 with
  | Returns K, Returns K' =>
      rows K = rows K' /\ cols K = cols K' /\ forall i j, at_ K i j = at_ K' i j
  | Throws, Throws => True
  | Undefined, Undefined => True
  | _, _ => False
  end.
Proof.
  intros Hmin Hadd.
  unfold gaussian_filter, add_extra_smoothing. rewrite Hadd.
  unfold build_filter, filter_sigma, filter_width, gaussian_filter_params.
  rewrite H00, H01, H10, H11. rewrite !dmul_1_l.
  destruct (to_int (dceil (dsqrt (Fin c / (Fin a * Fin c - Fin b * Fin b + Fin 1e-5))
                           / dx grid 0))) as [c0| |]; cbn [bind]; trivial.
  destruct (to_int (dceil (dsqrt (Fin a / (Fin a * Fin c - Fin b * Fin b + Fin 1e-5))
                           / dx grid 1))) as [c1| |]; cbn [bind]; trivial.
  set (width0 := Z.max min_width c0). set (width1 := Z.max min_width c1).
  assert (Hw0 : (0 <= width0)%Z) by (unfold width0; lia).
  assert (Hw1 : (0 <= width1)%Z) by (unfold width1; lia).
  destruct (int_ (2 * width0 + 1)) as [w| |] eqn:Ew; cbn [bind]; trivial.
  destruct (int_ (2 * width1 + 1)) as [h| |] eqn:Eh; cbn [bind]; trivial.
  destruct (int_Returns _ _ Ew) as [-> Hrw]. destruct (int_Returns _ _ Eh) as [-> Hrh].
  rewrite (int_in (1 * (2 * width0 + 1))) by lia. cbn [bind].
  rewrite (int_in (1 * (2 * width1 + 1))) by lia. cbn [bind].
  destruct (params_image width0 width1) as [Hrows [Hcols Hat]].
  set (img_sub := filter_sub_image _ _ _ _ _ _ _ _ _ _).
  assert (Hsub : forall i j,
            at_ img_sub i j
            = if (((0 <=? i) && (i <? 2 * width0 + 1))
                  && ((0 <=? j) && (j <? 2 * width1 + 1)))%Z
              then params_weight p grid width0 width1 i j else Fin 0).
  { intros i j. unfold img_sub, filter_sub_image.
    pose proof (grid_loop
      (filter_weight (Fin a) (Fin b) (Fin c) grid 1
         (Fin 0.5 * of_int (1 * (2 * width0 + 1) - 1))
         (Fin 0.5 * of_int (1 * (2 * width1 + 1) - 1)))
      (Zrange (1 * (2 * width1 + 1))) (Zrange (1 * (2 * width0 + 1)))
      (NoDup_Zrange _) (NoDup_Zrange _)
      (zeros (1 * (2 * width0 + 1)) (1 * (2 * width1 + 1)))) as HG.
    cbv zeta in HG. destruct HG as [_ [_ HG]].
    rewrite HG, !existsb_Zrange. cbn [zeros at_].
    rewrite dadd_0_l, filter_weight_unsampled, !Z.mul_1_l. reflexivity. }
  assert (Hrs : rows img_sub = (1 * (2 * width0 + 1))%Z /\
                cols img_sub = (1 * (2 * width1 + 1))%Z).
  { unfold img_sub, filter_sub_image.
    pose proof (grid_loop
      (filter_weight (Fin a) (Fin b) (Fin c) grid 1
         (Fin 0.5 * of_int (1 * (2 * width0 + 1) - 1))
         (Fin 0.5 * of_int (1 * (2 * width1 + 1) - 1)))
      (Zrange (1 * (2 * width1 + 1))) (Zrange (1 * (2 * width0 + 1)))
      (NoDup_Zrange _) (NoDup_Zrange _)
      (zeros (1 * (2 * width0 + 1)) (1 * (2 * width1 + 1)))) as HG.
    cbv zeta in HG. destruct HG as [Hr [Hc _]]. split; assumption. }
  destruct Hrs as [Hrs Hcs].
  assert (Hdown : forall r c',
            at_ (resize_area img_sub (2 * width0 + 1) (2 * width1 + 1)) r c'
            = at_ img_sub r c').
  { intros r c'. unfold resize_area. cbn [at_]. rewrite Hrs, Hcs, !Z.mul_1_l.
    rewrite !Z.div_same by lia.
    change (Zrange 1) with [0%Z]. cbn [fold_left].
    rewrite !Z.mul_1_l, !Z.add_0_r, dadd_0_l.
    change (of_int 1) with (Fin 1). apply ddiv_1_r. }
  assert (Hcentre : at_ img_sub width0 width1 = Fin 1).
  { rewrite Hsub, !in_range_true by lia. cbn [andb].
    rewrite params_weight_Fin, !Z.sub_diag.
    replace (-0.5 * _)%R with 0%R by (cbn [IZR]; ring). apply dexp_0. }
  cbn [mat_div rows cols at_ resize_area].
  split; [exact Hrows|]. split; [exact Hcols|].
  intros i j.
  change (at_ (fold_left
                 (fun img_ i0 =>
                    fold_left
                      (fun img_0 j0 =>
                         mat_add img_0 i0 j0 (params_weight p grid width0 width1 i0 j0))
                      (Zrange (2 * width1 + 1)) img_)
                 (Zrange (2 * width0 + 1)) (zeros (2 * width0 + 1) (2 * width1 + 1))) i j
          = at_ (resize_area img_sub (2 * width0 + 1) (2 * width1 + 1)) i j
            / at_ (resize_area img_sub (2 * width0 + 1) (2 * width1 + 1)) width0 width1).
  rewrite !Hdown, Hcentre, ddiv_1_r, Hat, Hsub. reflexivity.
Qed.

End ParamsKernel.


(** X6.  The two overloads of [gaussian_filter] build the same kernel when
    the second is called with [n_sigma = 1], no extra smoothing
    ([add_diagonal] not above 0, as its default -1) and no sub-sampling
    ([subsample = 1]): for finite inverse covariance and bin widths and a
    minimum half-width that is not negative, either both calls are
    undefined, or both return, with the same dimensions and the same value
    at every bin. *)
Theorem gaussian_filter_overloads_agree
    (p : LinearFitParams.t) (grid : TRect) (n_sigma add_diagonal : double)
    (min_width : Z) (a b c d0 d1 : R) :
  LinearFitParams.inv_cov p 0 0 = Fin a ->
  LinearFitParams.inv_cov p 0 1 = Fin b ->
  LinearFitParams.inv_cov p 1 0 = Fin b ->
  LinearFitParams.inv_cov p 1 1 = Fin c ->
  dx grid 0 = Fin d0 -> dx grid 1 = Fin d1 ->
  (0 <= min_width)%Z -> (add_diagonal >? Fin 0) = false ->
  match gaussian_filter_params p grid n_sigma min_width,
        gaussian_filter (Fin a) (Fin b) (Fin c) grid (Fin 1) min_width add_diagonal 1 with
  | Returns K, Returns K' =>
      rows K = rows K' /\ cols K = cols K' /\ forall i j, at_ K i j = at_ K' i j
  | Throws, Throws => True
  | Undefined, Undefined => True
  | _, _ => False
  end.
Proof.
  intros H00 H01 H10 H11 Hd0 Hd1 Hmin Hadd.
  apply (params_kernel_unsampled p grid a b c d0 d1); assumption.
Qed.

(** ** A well-formed star on a well-formed grid *)





Section WellFormed.

Variables (stellar_model : TStellarModel) (los_model : TGalacticLOSModel).
Variables (mags_obs : TMagnitudes) (ext_model : TExtinctionModel).
Variables (use_priors use_gaia : bool) (RV : double).
Variables (c00 c01 c11 : R).

Local Abbreviation cells :=
  (recorded_cells stellar_model los_model mags_obs ext_model
     (Fin c00) (Fin c01) (Fin c11) use_priors use_gaia RV).

Hypothesis Hcov :
  star_covariance mags_obs ext_model RV = (Fin c00, Fin c01, Fin c11).
Hypothesis P00 : (0 < c00)%R.
Hypothesis P11 : (0 < c11)%R.
Hypothesis Pdet : (0 < c00 * c11 - c01 * c01)%R.
Hypothesis Hfinite : forall c, In c cells ->
  is_finite (rc_E c) /\ is_finite (rc_mu c)
  /\ is_finite (rc_chi2 c) /\ is_finite (rc_prior c).


Variable grid : TRect.
Hypothesis Hinterp : forall E mu i0 i1 a0 a1,
  get_interpolant grid E mu = Some (i0, i1, a0, a1) ->
  (0 <= i0 /\ i0 + 1 < N_bins grid 0)%Z /\ (0 <= i1 /\ i1 + 1 < N_bins grid 1)%Z
  /\ exists f0 f1 : R,
       a0 = Fin f0 /\ a1 = Fin f1 /\ (0 <= f0 <= 1)%R /\ (0 <= f1 <= 1)%R.





Variables (img_stack : TImgStack) (img_idx : nat) (verbosity W : Z) (d0 d1 : R).
Variables (Mr0 FeH0 : nat).
Hypothesis Hrect : rect img_stack = grid.
Hypothesis Hidx : (img_idx < length (img img_stack))%nat.
Hypothesis Hd0 : dx grid 0 = Fin d0.
Hypothesis Hd1 : dx grid 1 = Fin d1.
Hypothesis Hp0 : (0 < d0)%R.
Hypothesis Hp1 : (0 < d1)%R.
Hypothesis Hverb : (0 < verbosity)%Z.
Hypothesis HW : (2 <= W)%Z.
Hypothesis Hbig : (1582 <= IZR W * (d0 * d1))%R.
Hypothesis Hint : (verbosity * (2 * W + 1) <= INT_MAX)%Z.
Hypothesis Hbands : (0 < count_passbands mags_obs)%Z.
Hypothesis HMr0 : (Mr0 < get_N_Mr stellar_model)%nat.
Hypothesis HFeH0 : (FeH0 < get_N_FeH stellar_model)%nat.
Hypothesis Hsed0 : get_sed stellar_model Mr0 FeH0 <> None.


End WellFormed.


(** ** Every star of a pixel is evaluated on its own *)

Section PerStar.

Variables (los_model : TGalacticLOSModel) (ext_model : TExtinctionModel).
Variables (stellar_model : TStellarModel) (stellar_data : TStellarData).
Variables (use_priors use_gaia : bool) (RV : double) (verbosity : Z).

Let n : nat := length (star stellar_data).

Let step (state : outcome (TImgStack * list double)) (i : nat)
    : outcome (TImgStack * list double) :=
  '(img_stack, chi2) <- state ;;
  mags_obs <- vector_at (star stellar_data) i ;;
  '(img_stack, chi2_min) <-
    integrate_ML_solution stellar_model los_model mags_obs ext_model
      img_stack i use_priors use_gaia RV verbosity ;;
  Returns (img_stack, push_back chi2 chi2_min).

Let surface_of (grid : TRect) (mags_obs : TMagnitudes) : outcome (Mat * double) :=
  star_surface stellar_model los_model mags_obs ext_model grid
    use_priors use_gaia RV verbosity.

Lemma per_star_step (k : nat) (s : TImgStack) (c : list double)
    (mags : TMagnitudes) :
  (k < length (img s))%nat -> nth_error (star stellar_data) k = Some mags ->
  step (Returns (s, c)) k
  = (r <- surface_of (rect s) mags ;;
     Returns ({| img := list_set (img s) k (fst r); rect := rect s |},
              push_back c (snd r))).
Proof.
  intros Hk Ek. unfold step, surface_of. cbn [bind]. unfold vector_at. rewrite Ek.
  cbn [bind]. rewrite integrate_ML_solution_surface by exact Hk.
  destruct (star_surface _ _ _ _ _ _ _ _ _) as [[surface chi2_k]| |]; reflexivity.
Qed.

Lemma per_star_loop (len k : nat) (s : TImgStack) (c : list double) :
  (k + len = n)%nat -> length (img s) = n ->
  (forall i mags, (k <= i)%nat -> nth_error (star stellar_data) i = Some mags ->
     exists r, surface_of (rect s) mags = Returns r) ->
  exists s' c',
    fold_left step (seq k len) (Returns (s, c)) = Returns (s', c')
    /\ rect s' = rect s /\ length (img s') = n
    /\ length c' = (length c + len)%nat
    /\ (forall i, (i < k)%nat -> nth_error (img s') i = nth_error (img s) i)
    /\ (forall i, (i < length c)%nat -> nth_error c' i = nth_error c i)
    /\ (forall i mags, (k <= i)%nat -> nth_error (star stellar_data) i = Some mags ->
          exists surface chi2_i,
            surface_of (rect s) mags = Returns (surface, chi2_i)
            /\ nth_error (img s') i = Some surface
            /\ nth_error c' (length c + (i - k)) = Some chi2_i).
Proof.
  revert k s c. induction len as [|len IH]; intros k s c Hn Hlen Hall; cbn [seq fold_left].
  - exists s, c. split; [reflexivity|]. split; [reflexivity|]. split; [exact Hlen|].
    split; [lia|]. split; [reflexivity|]. split; [reflexivity|].
    intros i mags Hi Hnth.
    assert (i < n)%nat by (apply nth_error_Some; rewrite Hnth; discriminate). lia.
  - destruct (nth_error (star stellar_data) k) as [mags|] eqn:Ek.
    2: { apply nth_error_None in Ek. fold n in Ek. lia. }
    destruct (Hall k mags (le_n k) Ek) as [[surface chi2_k] Hsurf].
    rewrite (per_star_step k s c mags) by (trivial; lia).
    rewrite Hsurf. cbn [bind fst snd].
    destruct (IH (S k) {| img := list_set (img s) k surface; rect := rect s |}
                 (push_back c chi2_k))
      as [s' [c' [Hfold [Hrect [Hlen' [Hclen [Himg [Hc Hstars]]]]]]]].
    { lia. }
    { cbn [img]. rewrite length_list_set. exact Hlen. }
    { cbn [rect]. intros i mags' Hi Hnth. apply (Hall i mags'); [lia|exact Hnth]. }
    cbn [rect img] in Hrect, Himg, Hstars.
    unfold push_back in Hclen, Hc, Hstars. rewrite length_app in Hclen, Hc, Hstars.
    cbn [length] in Hclen, Hc, Hstars.
    exists s', c'. split; [exact Hfold|]. split; [exact Hrect|]. split; [exact Hlen'|].
    split; [lia|]. split; [|split].
    + intros i Hi. rewrite Himg by lia. apply nth_error_list_set_other. lia.
    + intros i Hi. rewrite Hc by lia. apply nth_error_app1. exact Hi.
    + intros i mags' Hi Hnth.
      destruct (Nat.eq_dec i k) as [->|Hik].
      * rewrite Ek in Hnth. injection Hnth as <-.
        exists surface, chi2_k. split; [exact Hsurf|]. split.
        -- rewrite Himg by lia. apply nth_error_list_set. lia.
        -- rewrite Nat.sub_diag, Nat.add_0_r, Hc by lia.
           rewrite nth_error_app2 by lia. rewrite Nat.sub_diag. reflexivity.
      * destruct (Hstars i mags') as [surface' [chi2_i [H1 [H2 H3]]]]; [lia|exact Hnth|].
        exists surface', chi2_i. split; [exact H1|]. split; [exact H2|].
        replace (length c + (i - k))%nat with (length c + 1 + (i - S k))%nat by lia.
        exact H3.
Qed.

Lemma per_star_stuck (l : list nat) (st : outcome (TImgStack * list double)) :
  (forall r, st <> Returns r) -> forall r, fold_left step l st <> Returns r.
Proof.
  revert st. induction l as [|k l IH]; intros st Hst; cbn [fold_left]; [exact Hst|].
  apply IH. intros r. destruct st as [[s c]| |]; [destruct (Hst (s, c)); reflexivity| |];
    cbn [step bind]; discriminate.
Qed.

Lemma per_star_loop_returns (len k : nat) (s : TImgStack) (c : list double)
    (r : TImgStack * list double) :
  (k + len = n)%nat -> length (img s) = n ->
  fold_left step (seq k len) (Returns (s, c)) = Returns r ->
  forall i mags, (k <= i)%nat -> nth_error (star stellar_data) i = Some mags ->
    exists r', surface_of (rect s) mags = Returns r'.
Proof.
  revert k s c. induction len as [|len IH]; intros k s c Hn Hlen Hfold i mags Hi Hnth.
  - assert (i < n)%nat by (apply nth_error_Some; rewrite Hnth; discriminate). lia.
  - cbn [seq fold_left] in Hfold.
    destruct (nth_error (star stellar_data) k) as [mags_k|] eqn:Ek.
    2: { apply nth_error_None in Ek. fold n in Ek. lia. }
    rewrite (per_star_step k s c mags_k) in Hfold by (trivial; lia).
    destruct (surface_of (rect s) mags_k) as [[surface chi2_k]| |] eqn:Es;
      cbn [bind fst snd] in Hfold.
    + destruct (Nat.eq_dec i k) as [->|Hik].
      * rewrite Ek in Hnth. injection Hnth as <-. eexists. exact Es.
      * assert (Hlen1 : length (img {| img := list_set (img s) k surface;
                                         rect := rect s |}) = n)
          by (cbn [img]; rewrite length_list_set; exact Hlen).
        destruct (IH (S k) _ _ ltac:(lia) Hlen1 Hfold i mags ltac:(lia) Hnth) as [r' Hr'].
        exists r'. exact Hr'.
    + exfalso. revert Hfold. apply per_star_stuck. discriminate.
    + exfalso. revert Hfold. apply per_star_stuck. discriminate.
Qed.

Lemma eval_all_stars_per_star (img_stack : TImgStack) (chi2 : list double) :
  length (img img_stack) = n ->
  (forall i mags, nth_error (star stellar_data) i = Some mags ->
     exists r, surface_of (rect img_stack) mags = Returns r) ->
  exists s c,
    eval_all_stars los_model ext_model stellar_model stellar_data img_stack chi2
      use_priors use_gaia RV verbosity = Returns (s, c)
    /\ rect s = rect img_stack /\ length (img s) = n
    /\ length c = (length chi2 + n)%nat
    /\ (forall i mags, nth_error (star stellar_data) i = Some mags ->
          exists surface chi2_i,
            surface_of (rect img_stack) mags = Returns (surface, chi2_i)
            /\ nth_error (img s) i = Some surface
            /\ nth_error c (length chi2 + i) = Some chi2_i).
Proof.
  intros Hlen Hall.
  destruct (per_star_loop n 0 img_stack chi2) as [s [c [Hfold [Hrect [Hl [Hc [_ [_ Hs]]]]]]]];
    trivial.
  { intros i mags _ Hnth. apply (Hall i mags Hnth). }
  exists s, c. split; [exact Hfold|]. split; [exact Hrect|]. split; [exact Hl|].
  split; [exact Hc|].
  intros i mags Hnth. destruct (Hs i mags (Nat.le_0_l i) Hnth) as [u [v [H1 [H2 H3]]]].
  exists u, v. rewrite Nat.sub_0_r in H3. repeat split; assumption.
Qed.

Lemma eval_all_stars_returns (img_stack : TImgStack) (chi2 : list double)
    (r : TImgStack * list double) :
  length (img img_stack) = n ->
  eval_all_stars los_model ext_model stellar_model stellar_data img_stack chi2
    use_priors use_gaia RV verbosity = Returns r ->
  forall i mags, nth_error (star stellar_data) i = Some mags ->
    exists r', surface_of (rect img_stack) mags = Returns r'.
Proof.
  intros Hlen Hret i mags Hnth.
  exact (per_star_loop_returns n 0 img_stack chi2 r eq_refl Hlen Hret i mags
           (Nat.le_0_l i) Hnth).
Qed.

End PerStar.

(** X8.  [grid_eval_stars] evaluates every star of the pixel on its own, on
    the fixed grid of the stellar PDFs.  When the stack has one image per
    star, the call returns exactly when the surface of every star, taken
    alone, is defined.  It then hands to [crop] and to the smoothing a stack
    with that grid in which image [i] is the surface of star [i], and it
    leaves in [chi2] one entry per star, entry [i] being the chi-square per
    passband of star [i]; what [chi2] and the images held before the call
    does not matter. *)
Theorem grid_eval_stars_evaluates_each_star
    (now : nat -> double)
    (los_model : TGalacticLOSModel) (ext_model : TExtinctionModel)
    (stellar_model : TStellarModel) (stellar_data : TStellarData)
    (EBV_smoothing : TEBVSmoothing) (img_stack : TImgStack) (chi2 : list double)
    (use_priors use_gaia : bool) (RV : double) (verbosity : Z) :
  length (img img_stack) = length (star stellar_data) ->
  let surface_of mags_obs :=
    star_surface stellar_model los_model mags_obs ext_model stellar_pdf_rect
      use_priors use_gaia RV verbosity in
  let call :=
    grid_eval_stars now los_model ext_model stellar_model stellar_data
      EBV_smoothing img_stack chi2 use_priors use_gaia RV verbosity in
  ((forall i mags, nth_error (star stellar_data) i = Some mags ->
      exists r, surface_of mags = Returns r) ->
   exists s c report,
     call = Returns (smooth_EBV EBV_smoothing stellar_data
                       (crop s (Fin 0) (Fin 7) (Fin 4) (Fin 19)), c, report)
     /\ rect s = stellar_pdf_rect
     /\ length (img s) = length (star stellar_data)
     /\ length c = length (star stellar_data)
     /\ forall i mags, nth_error (star stellar_data) i = Some mags ->
          exists surface chi2_i,
            surface_of mags = Returns (surface, chi2_i)
            /\ nth_error (img s) i = Some surface
            /\ nth_error c i = Some chi2_i)
  /\ (forall r, call = Returns r ->
      forall i mags, nth_error (star stellar_data) i = Some mags ->
        exists r', surface_of mags = Returns r').
Proof.
  intros Hlen surface_of call. split.
  - intros Hall.
    destruct (eval_all_stars_per_star los_model ext_model stellar_model stellar_data
                use_priors use_gaia RV verbosity
                (set_rect img_stack stellar_pdf_rect) [])
      as [s [c [Hrun [Hrect [Hl [Hc Hs]]]]]].
    { exact Hlen. }
    { exact Hall. }
    exists s, c. eexists. split.
    { unfold call, grid_eval_stars. cbv zeta. rewrite Hrun. cbn [bind]. reflexivity. }
    split; [exact Hrect|]. split; [exact Hl|]. split; [exact Hc|].
    intros i mags Hnth. destruct (Hs i mags Hnth) as [u [v [H1 [H2 H3]]]].
    exists u, v. repeat split; assumption.
  - intros r Hret i mags Hnth. unfold call, grid_eval_stars in Hret. cbv zeta in Hret.
    destruct (eval_all_stars los_model ext_model stellar_model stellar_data
                (set_rect img_stack stellar_pdf_rect) [] use_priors use_gaia RV verbosity)
      as [r1| |] eqn:Erun; try discriminate.
    apply (eval_all_stars_returns los_model ext_model stellar_model stellar_data
             use_priors use_gaia RV verbosity
             (set_rect img_stack stellar_pdf_rect) [] r1 Hlen Erun i mags Hnth).
Qed.

(** ** Missing bands in the constructor of [TMagnitudes] *)

Lemma lnL_norm_loop (_err : nat -> double) (e : nat -> R) (obs : nat -> bool)
    (l : list nat) (x : R) :
  (forall i, In i l ->
     if obs i then _err i = Fin (e i) /\ (0 < e i < 9e9)%R
     else (_err i <? Fin 9e9) = false) ->
  fold_left
    (fun lnL_norm i =>
       if _err i <? Fin 9e9
       then lnL_norm + (Fin 0.9189385332 + dlog (_err i))
       else lnL_norm)
    l (Fin x)
  = Fin (x + Rsum (fun i => if obs i then 0.9189385332 + ln (e i) else 0) l)%R.
Proof.
  revert x. induction l as [|k l IH]; intros x H; cbn [fold_left];
    rewrite ?Rsum_nil, ?Rsum_cons.
  - fin_eq; lra.
  - pose proof (H k (or_introl eq_refl)) as Hk.
    assert (Hl : forall i, In i l ->
              if obs i then _err i = Fin (e i) /\ (0 < e i < 9e9)%R
              else (_err i <? Fin 9e9) = false)
      by (intros i Hi; apply H; right; exact Hi).
    destruct (obs k).
    + destruct Hk as [Hk Hr]. rewrite Hk, dlt_Fin_true by lra.
      unfold dlog. destruct (Rlt_dec 0 (e k)) as [_|Hn]; [|lra].
      rewrite !dadd_Fin, IH by exact Hl. fin_eq; lra.
    + rewrite Hk, IH by exact Hl. fin_eq; lra.
Qed.

(** X9.  The constructor [TMagnitudes(_m, _err)] leaves missing bands out of
    [lnL_norm]: when every band is either observed, with an error in
    (0, 9e9), or missing, with an error that is not below 9e9 (NaN and
    +infinity included), [lnL_norm] is the sum of [0.9189385332 + ln(err)]
    over the observed bands.  The limit is not the one of
    [integrate_ML_solution], which counts a band as a passband only if its
    error is at most 1e9: a star whose observed bands all have an error
    above 1e9 has no passband there. *)
Theorem TMagnitudes_new_skips_missing_bands
    (_m _err : nat -> double) (e : nat -> R) (obs : nat -> bool) :
  (forall i, (i < NBANDS)%nat ->
     if obs i then _err i = Fin (e i) /\ (0 < e i < 9e9)%R
     else (_err i <? Fin 9e9) = false) ->
  let s := TMagnitudes_new _m _err in
  set_lnL_norm s
  = Fin (Rsum (fun i => if obs i then 0.9189385332 + ln (e i) else 0) (seq 0 NBANDS))%R
  /\ ((forall i, (i < NBANDS)%nat -> obs i = true -> (1e9 < e i)%R) ->
      forall pi_ pierr_ : double,
        count_passbands {| pi := pi_; pierr := pierr_; m := set_m s; err := set_err s |}
        = 0%Z).
Proof.
  intros H s. split.
  - unfold s, TMagnitudes_new. cbn [set_lnL_norm].
    rewrite (lnL_norm_loop _err e obs)
      by (intros i Hi; apply H; apply in_seq_0; exact Hi).
    rewrite Rplus_0_l. reflexivity.
  - intros Hbig pi_ pierr_. apply count_passbands_none.
    intros i Hi. unfold s, TMagnitudes_new. cbn [set_err err].
    specialize (H i Hi). specialize (Hbig i Hi).
    destruct (obs i).
    + destruct H as [-> _]. cbn [isnan isinf orb]. unfold dgt.
      apply dlt_Fin_true. apply Hbig. reflexivity.
    + destruct (_err i) as [x| | |]; cbn [isnan isinf orb]; try reflexivity.
      unfold dgt. apply dlt_Fin_true.
      unfold dlt in H. destruct (Rlt_dec x 9e9); [discriminate|lra].
Qed.

(** ** The bounds-checked accesses *)

Lemma bind_no_throw {A B : Type} (c : outcome A) (k : A -> outcome B) :
  c <> Throws -> (forall a, k a <> Throws) -> (x <- c ;; k x) <> Throws.
Proof.
  destruct c; cbn [bind]; intros Hc Hk; [apply Hk|contradiction Hc; reflexivity|discriminate].
Qed.

Lemma to_int_no_throw (x : double) : to_int x <> Throws.
Proof. destruct x; cbn [to_int]; try discriminate. apply int_no_throw. Qed.

Lemma filter_width_no_throw (grid : TRect) (n_sigma : double) (min_width : Z)
    (sigma : double) (i : nat) :
  filter_width grid n_sigma min_width sigma i <> Throws.
Proof.
  unfold filter_width. apply bind_no_throw; [apply to_int_no_throw|discriminate].
Qed.

Lemma gaussian_filter_no_throw
    (inv_cov_00 inv_cov_01 inv_cov_11 : double) (grid : TRect) (n_sigma : double)
    (min_width : Z) (add_diagonal : double) (subsample : Z) :
  gaussian_filter inv_cov_00 inv_cov_01 inv_cov_11 grid n_sigma min_width
    add_diagonal subsample <> Throws.
Proof.
  unfold gaussian_filter.
  destruct (add_extra_smoothing _ _ _ _ _) as [[a b] c].
  unfold build_filter. destruct (filter_sigma a b c) as [s0 s1].
  apply bind_no_throw; [apply filter_width_no_throw|intros width0].
  apply bind_no_throw; [apply filter_width_no_throw|intros width1].
  repeat (apply bind_no_throw; [apply int_no_throw|intros ?]).
  discriminate.
Qed.
Lemma splat_no_throw (image : Mat) (img_idx0 img_idx1 : Z) (a0 a1 p : double) :
  splat image img_idx0 img_idx1 a0 a1 p <> Throws.
Proof.
  unfold splat, add_at.
  repeat match goal with
         | |- context [if in_mat ?i ?x ?y then _ else _] =>
             destruct (in_mat i x y); cbn [bind]
         end; discriminate.
Qed.

Lemma deposit_recorded_no_throw (grid : TRect) (chi2_min prior_max : double)
    (cells : list recorded) (image : outcome Mat) :
  image <> Throws ->
  fold_left (deposit_recorded grid chi2_min prior_max) cells image <> Throws.
Proof.
  revert image. induction cells as [|c cells IH]; intros image Him; cbn [fold_left];
    [exact Him|].
  apply IH. unfold deposit_recorded.
  destruct image as [im| |]; cbn [bind]; try discriminate; try congruence.
  destruct (get_interpolant grid (rc_E c) (rc_mu c)) as [[[[i0 i1] a0] a1]|];
    [apply splat_no_throw|discriminate].
Qed.

(** [integrate_ML_solution] reads its vectors with [at] at indices below
    their size only. *)
Lemma integrate_ML_solution_no_throw
    (stellar_model : TStellarModel) (los_model : TGalacticLOSModel)
    (mags_obs : TMagnitudes) (ext_model : TExtinctionModel)
    (img_stack : TImgStack) (img_idx : nat)
    (use_priors use_gaia : bool) (RV : double) (verbosity : Z) :
  integrate_ML_solution stellar_model los_model mags_obs ext_model
    img_stack img_idx use_priors use_gaia RV verbosity <> Throws.
Proof.
  rewrite integrate_ML_solution_passes. cbv zeta.
  destruct (max_element _) as [mx| |] eqn:Emx; cbn [bind]; try discriminate.
  2: { unfold max_element in Emx. destruct (map rc_prior _); discriminate. }
  destruct (min_element _) as [mn| |] eqn:Emn; cbn [bind]; try discriminate.
  2: { unfold min_element in Emn. destruct (map rc_chi2 _); discriminate. }
  destruct (stack_get _ _) as [image| |] eqn:Eg; cbn [bind]; try discriminate.
  2: { unfold stack_get in Eg. destruct (nth_error _ _); discriminate. }
  destruct (fold_left _ _ (Returns image)) as [image'| |] eqn:Ed; cbn [bind];
    try discriminate.
  2: { exfalso. revert Ed. apply deposit_recorded_no_throw. discriminate. }
  destruct (gaussian_filter _ _ _ _ _ _ _ _) as [K| |] eqn:EK; cbn [bind];
    try discriminate.
  exfalso. revert EK. apply gaussian_filter_no_throw.
Qed.

Lemma eval_all_stars_no_throw
    (los_model : TGalacticLOSModel) (ext_model : TExtinctionModel)
    (stellar_model : TStellarModel) (stellar_data : TStellarData)
    (img_stack : TImgStack) (chi2 : list double)
    (use_priors use_gaia : bool) (RV : double) (verbosity : Z) :
  eval_all_stars los_model ext_model stellar_model stellar_data img_stack chi2
    use_priors use_gaia RV verbosity <> Throws.
Proof.
  unfold eval_all_stars.
  assert (G : forall len k st,
            (k + len <= length (star stellar_data))%nat -> st <> Throws ->
            fold_left
              (fun state i =>
                 '(img_stack, chi2) <- state ;;
                 mags_obs <- vector_at (star stellar_data) i ;;
                 '(img_stack, chi2_min) <-
                   integrate_ML_solution stellar_model los_model mags_obs ext_model
                     img_stack i use_priors use_gaia RV verbosity ;;
                 Returns (img_stack, push_back chi2 chi2_min))
              (seq k len) st <> Throws).
  { induction len as [|len IH]; intros k st Hk Hst; cbn [seq fold_left]; [exact Hst|].
    apply IH; [lia|].
    destruct st as [[s c]| |]; cbn [bind]; try discriminate; try congruence.
    unfold vector_at.
    destruct (nth_error (star stellar_data) k) as [mags|] eqn:Ek.
    2: { apply nth_error_None in Ek. lia. }
    cbn [bind].
    destruct (integrate_ML_solution stellar_model los_model mags ext_model s k
                use_priors use_gaia RV verbosity) as [[s' x]| |] eqn:Ei;
      cbn [bind]; try discriminate.
    exfalso. revert Ei. apply integrate_ML_solution_no_throw. }
  apply G; [lia|discriminate].
Qed.

(** X10.  No bounds-checked access of the grid evaluation fails: whatever
    the inputs, neither [integrate_ML_solution], which reads its four
    vectors with [at], nor [grid_eval_stars], which reads the stars with
    [TStellarData::operator[]], that is [star.at], ends in the exception of
    an index out of range. *)
Theorem grid_evaluation_never_throws
    (now : nat -> double)
    (los_model : TGalacticLOSModel) (ext_model : TExtinctionModel)
    (stellar_model : TStellarModel) (stellar_data : TStellarData)
    (EBV_smoothing : TEBVSmoothing) (img_stack : TImgStack) (chi2 : list double)
    (use_priors use_gaia : bool) (RV : double) (verbosity : Z) :
  (forall (mags_obs : TMagnitudes) (img_idx : nat),
     integrate_ML_solution stellar_model los_model mags_obs ext_model
       img_stack img_idx use_priors use_gaia RV verbosity <> Throws)
  /\ grid_eval_stars now los_model ext_model stellar_model stellar_data
       EBV_smoothing img_stack chi2 use_priors use_gaia RV verbosity <> Throws.
Proof.
  split.
  - intros mags_obs img_idx. apply integrate_ML_solution_no_throw.
  - unfold grid_eval_stars. cbv zeta.
    destruct (eval_all_stars los_model ext_model stellar_model stellar_data
                (set_rect img_stack stellar_pdf_rect) [] use_priors use_gaia RV verbosity)
      as [[s c]| |] eqn:Erun; cbn [bind]; try discriminate.
    exfalso. revert Erun. apply eval_all_stars_no_throw.
Qed.

(** ** Shifts of the photometry *)

Lemma shifted_sums (e mo M a : nat -> R) (dmu dE : R) (l : list nat) :
  Rsum (fun i => (mo i + dmu + dE * a i - M i) * (1 / (e i * e i)))%R l
  = (Rsum (fun i => (mo i - M i) * (1 / (e i * e i))) l
     + dmu * Rsum (fun i => 1 / (e i * e i)) l
     + dE * Rsum (fun i => a i * (1 / (e i * e i))) l)%R
  /\ Rsum (fun i => (mo i + dmu + dE * a i - M i) * a i * (1 / (e i * e i)))%R l
     = (Rsum (fun i => (mo i - M i) * a i * (1 / (e i * e i))) l
        + dmu * Rsum (fun i => a i * (1 / (e i * e i))) l
        + dE * Rsum (fun i => a i * a i * (1 / (e i * e i))) l)%R.
Proof.
  induction l as [|k l [IH0 IH1]]; rewrite ?Rsum_nil, ?Rsum_cons; [split; ring|].
  rewrite IH0, IH1. split; ring.
Qed.

(** The solution of a system of two linear equations with a determinant
    that is not zero is unique. *)
Lemma linear_system_unique (s00 s01 s11 u v : R) :
  (s00 * s11 - s01 * s01 <> 0)%R ->
  (s00 * u + s01 * v = 0)%R -> (s01 * u + s11 * v = 0)%R -> u = 0%R /\ v = 0%R.
Proof.
  intros Hdet H0 H1.
  assert (Hu : ((s00 * s11 - s01 * s01) * u = 0)%R).
  { replace ((s00 * s11 - s01 * s01) * u)%R
      with (s11 * (s00 * u + s01 * v) - s01 * (s01 * u + s11 * v))%R by ring.
    rewrite H0, H1. ring. }
  assert (Hv : ((s00 * s11 - s01 * s01) * v = 0)%R).
  { replace ((s00 * s11 - s01 * s01) * v)%R
      with (s00 * (s01 * u + s11 * v) - s01 * (s00 * u + s01 * v))%R by ring.
    rewrite H0, H1. ring. }
  apply Rmult_integral in Hu. apply Rmult_integral in Hv.
  split; [destruct Hu|destruct Hv]; trivial; contradiction.
Qed.

(** X11.  The fit follows a shift of the photometry.  When the magnitudes of
    a star with finite photometry and normal equations that are not
    degenerate are all moved by [dmu + dE * A_i], the errors being kept,
    [star_covariance] returns the same three scalars, and
    [star_max_likelihood] against the same SED returns the distance modulus
    moved by [dmu], the reddening moved by [dE] and the same chi-square. *)
Theorem star_max_likelihood_follows_shift
    (mags_obs mags_obs' : TMagnitudes) (mags_model : TSED)
    (ext_model : TExtinctionModel) (RV : double)
    (e mo M a : nat -> R) (dmu dE c00 c01 c11 : R) :
  finite_on (seq 0 NBANDS) mags_obs mags_model ext_model RV e mo M a ->
  (forall i, (i < NBANDS)%nat ->
     err mags_obs' i = err mags_obs i
     /\ m mags_obs' i = Fin (mo i + dmu + dE * a i)) ->
  star_covariance mags_obs ext_model RV = (Fin c00, Fin c01, Fin c11) ->
  (c00 * c11 - c01 * c01 <> 0)%R ->
  star_covariance mags_obs' ext_model RV = (Fin c00, Fin c01, Fin c11)
  /\ exists mu E chi2 : R,
       star_max_likelihood mags_model mags_obs ext_model
         (Fin c00) (Fin c01) (Fin c11) RV = (Fin mu, Fin E, Fin chi2)
       /\ star_max_likelihood mags_model mags_obs' ext_model
            (Fin c00) (Fin c01) (Fin c11) RV = (Fin (mu + dmu), Fin (E + dE), Fin chi2).
Proof.
  intros Hfin Hshift Hcov Hdet.
  assert (Hfin' : finite_on (seq 0 NBANDS) mags_obs' mags_model ext_model RV e
                    (fun i => mo i + dmu + dE * a i)%R M a).
  { constructor; intros i Hi; pose proof (proj1 (in_seq_0 _ _) Hi) as Hlt.
    - rewrite (proj1 (Hshift i Hlt)). apply (fin_err _ _ _ _ _ _ _ _ _ Hfin i Hi).
    - apply (fin_err_nz _ _ _ _ _ _ _ _ _ Hfin i Hi).
    - apply (Hshift i Hlt).
    - apply (fin_absmag _ _ _ _ _ _ _ _ _ Hfin i Hi).
    - apply (fin_A _ _ _ _ _ _ _ _ _ Hfin i Hi). }
  rewrite (fit_covariance mags_obs mags_model ext_model RV e mo M a Hfin) in Hcov.
  injection Hcov as <- <- <-.
  split.
  { apply (fit_covariance mags_obs' mags_model ext_model RV e _ M a Hfin'). }
  destruct (fit_closed_form mags_obs mags_model ext_model RV e mo M a Hfin Hdet)
    as [mu [E [Hml [H0 H1]]]].
  destruct (fit_closed_form mags_obs' mags_model ext_model RV e _ M a Hfin' Hdet)
    as [mu' [E' [Hml' [H0' H1']]]].
  destruct (shifted_sums e mo M a dmu dE (seq 0 NBANDS)) as [Hs0 Hs1].
  cbv beta in H0', H1'. rewrite Hs0 in H0'. rewrite Hs1 in H1'.
  destruct (linear_system_unique _ _ _ (mu' - mu - dmu)%R (E' - E - dE)%R Hdet)
    as [Hu Hv].
  { rewrite <- H0 in H0'. lra. }
  { rewrite <- H1 in H1'. lra. }
  assert (Emu : mu' = (mu + dmu)%R) by lra.
  assert (EE : E' = (E + dE)%R) by lra.
  subst mu' E'.
  exists mu, E. eexists. split; [exact Hml|].
  rewrite Hml'. do 2 f_equal. apply Rsum_ext. intros i _. ring.
Qed.

(** ** The scale of the errors *)

(** A sum weighted by [1 / (s e_i)^2] is the sum weighted by [1 / e_i^2],
    divided by [s^2]. *)
Lemma scaled_sum (f e : nat -> R) (sc : R) (l : list nat) :
  sc <> 0%R -> (forall i, In i l -> e i <> 0%R) ->
  Rsum (fun i => f i * (1 / (sc * e i * (sc * e i))))%R l
  = (Rsum (fun i => f i * (1 / (e i * e i))) l / (sc * sc))%R.
Proof.
  intros Hs He.
  rewrite (Rsum_ext _ (fun i => 1 / (sc * sc) * (f i * (1 / (e i * e i))))%R).
  - rewrite Rsum_scal. field. exact Hs.
  - intros i Hi. field. split; [apply He; exact Hi|exact Hs].
Qed.

(** X12.  The fit does not depend on the scale of the errors.  When the
    errors of a star with finite photometry and normal equations that are
    not degenerate are all multiplied by a factor [s] that is not zero, the
    three scalars of [star_covariance] are divided by [s^2], and
    [star_max_likelihood] returns the same distance modulus and reddening,
    with the chi-square divided by [s^2]. *)
Theorem star_max_likelihood_error_scale
    (mags_obs mags_obs' : TMagnitudes) (mags_model : TSED)
    (ext_model : TExtinctionModel) (RV : double)
    (e mo M a : nat -> R) (sc c00 c01 c11 : R) :
  finite_on (seq 0 NBANDS) mags_obs mags_model ext_model RV e mo M a ->
  sc <> 0%R ->
  (forall i, (i < NBANDS)%nat ->
     err mags_obs' i = Fin (sc * e i) /\ m mags_obs' i = m mags_obs i) ->
  star_covariance mags_obs ext_model RV = (Fin c00, Fin c01, Fin c11) ->
  (c00 * c11 - c01 * c01 <> 0)%R ->
  star_covariance mags_obs' ext_model RV
  = (Fin (c00 / (sc * sc)), Fin (c01 / (sc * sc)), Fin (c11 / (sc * sc)))
  /\ exists mu E chi2 : R,
       star_max_likelihood mags_model mags_obs ext_model
         (Fin c00) (Fin c01) (Fin c11) RV = (Fin mu, Fin E, Fin chi2)
       /\ star_max_likelihood mags_model mags_obs' ext_model
            (Fin (c00 / (sc * sc))) (Fin (c01 / (sc * sc))) (Fin (c11 / (sc * sc))) RV
          = (Fin mu, Fin E, Fin (chi2 / (sc * sc))).
Proof.
  intros Hfin Hs Hscale Hcov Hdet.
  pose proof (fit_errors_nonzero mags_obs mags_model ext_model RV e mo M a Hfin) as He.
  assert (Hfin' : finite_on (seq 0 NBANDS) mags_obs' mags_model ext_model RV
                    (fun i => sc * e i)%R mo M a).
  { constructor; intros i Hi; pose proof (proj1 (in_seq_0 _ _) Hi) as Hlt.
    - apply (Hscale i Hlt).
    - apply Rmult_integral_contrapositive_currified; [exact Hs|apply He; exact Hi].
    - rewrite (proj2 (Hscale i Hlt)). apply (fin_m _ _ _ _ _ _ _ _ _ Hfin i Hi).
    - apply (fin_absmag _ _ _ _ _ _ _ _ _ Hfin i Hi).
    - apply (fin_A _ _ _ _ _ _ _ _ _ Hfin i Hi). }
  rewrite (fit_covariance mags_obs mags_model ext_model RV e mo M a Hfin) in Hcov.
  injection Hcov as <- <- <-.
  pose proof (fit_covariance mags_obs' mags_model ext_model RV _ mo M a Hfin') as Hcov'.
  cbv beta in Hcov'.
  pose proof (scaled_sum (fun _ => 1%R) e sc (seq 0 NBANDS) Hs He) as T00.
  pose proof (scaled_sum a e sc (seq 0 NBANDS) Hs He) as T01.
  pose proof (scaled_sum (fun i => a i * a i)%R e sc (seq 0 NBANDS) Hs He) as T11.
  pose proof (scaled_sum (fun i => mo i - M i)%R e sc (seq 0 NBANDS) Hs He) as TD0.
  pose proof (scaled_sum (fun i => (mo i - M i) * a i)%R e sc (seq 0 NBANDS) Hs He) as TD1.
  cbv beta in T00, T01, T11, TD0, TD1.
  rewrite (Rsum_ext (fun i => 1 * (1 / (sc * e i * (sc * e i))))%R
             (fun i => 1 / (sc * e i * (sc * e i)))%R) in T00
    by (intros i _; apply Rmult_1_l).
  rewrite (Rsum_ext (fun i => 1 * (1 / (e i * e i)))%R (fun i => 1 / (e i * e i))%R) in T00
    by (intros i _; apply Rmult_1_l).
  assert (Hdet' : (Rsum (fun i => 1 / (sc * e i * (sc * e i))) (seq 0 NBANDS)
                   * Rsum (fun i => a i * a i * (1 / (sc * e i * (sc * e i)))) (seq 0 NBANDS)
                   - Rsum (fun i => a i * (1 / (sc * e i * (sc * e i)))) (seq 0 NBANDS)
                     * Rsum (fun i => a i * (1 / (sc * e i * (sc * e i)))) (seq 0 NBANDS)
                   <> 0)%R).
  { rewrite T00, T01, T11. intros Hz. apply Hdet.
    apply (Rmult_eq_reg_r (/ (sc * sc) * / (sc * sc))).
    - rewrite Rmult_0_l. rewrite <- Hz. field. exact Hs.
    - apply Rmult_integral_contrapositive_currified;
        apply Rinv_neq_0_compat, Rmult_integral_contrapositive_currified; exact Hs. }
  destruct (fit_closed_form mags_obs mags_model ext_model RV e mo M a Hfin Hdet)
    as [mu [E [Hml [H0 H1]]]].
  destruct (fit_closed_form mags_obs' mags_model ext_model RV _ mo M a Hfin' Hdet')
    as [mu' [E' [Hml' [H0' H1']]]].
  cbv beta in Hml', H0', H1'.
  rewrite T00, T01, T11 in Hml'. rewrite T00, T01, TD0 in H0'. rewrite T01, T11, TD1 in H1'.
  rewrite T00, T01, T11 in Hcov'.
  split; [exact Hcov'|].
  set (S00 := Rsum (fun i => 1 / (e i * e i))%R (seq 0 NBANDS)) in *.
  set (S01 := Rsum (fun i => a i * (1 / (e i * e i)))%R (seq 0 NBANDS)) in *.
  set (S11 := Rsum (fun i => a i * a i * (1 / (e i * e i)))%R (seq 0 NBANDS)) in *.
  set (D0 := Rsum (fun i => (mo i - M i) * (1 / (e i * e i)))%R (seq 0 NBANDS)) in *.
  set (D1 := Rsum (fun i => (mo i - M i) * a i * (1 / (e i * e i)))%R (seq 0 NBANDS)) in *.
  assert (Hss : (sc * sc <> 0)%R)
    by (apply Rmult_integral_contrapositive_currified; exact Hs).
  assert (G0 : (S00 * mu' + S01 * E' = D0)%R).
  { apply (Rmult_eq_reg_r (/ (sc * sc))); [|apply Rinv_neq_0_compat; exact Hss].
    change (D0 * / (sc * sc))%R with (D0 / (sc * sc))%R.
    rewrite <- H0'. field. exact Hs. }
  assert (G1 : (S01 * mu' + S11 * E' = D1)%R).
  { apply (Rmult_eq_reg_r (/ (sc * sc))); [|apply Rinv_neq_0_compat; exact Hss].
    change (D1 * / (sc * sc))%R with (D1 / (sc * sc))%R.
    rewrite <- H1'. field. exact Hs. }
  destruct (linear_system_unique S00 S01 S11 (mu' - mu)%R (E' - E)%R Hdet) as [Hu Hv].
  { rewrite <- H0 in G0. lra. }
  { rewrite <- H1 in G1. lra. }
  assert (Emu : mu' = mu) by lra.
  assert (EE : E' = E) by lra.
  subst mu' E'.
  exists mu, E. eexists. split; [exact Hml|].
  rewrite Hml'. do 2 f_equal.
  apply (scaled_sum (fun i => (mo i - M i - E * a i - mu) * (mo i - M i - E * a i - mu))%R
           e sc (seq 0 NBANDS) Hs He).
Qed.

End StarExact.

(** * Instances *)

(** C3.  The code at a singular inverse covariance, as [star_covariance]
    returns for a star seen in a single band: with the extra smoothing
    requested, [gaussian_filter] divides by the determinant as it is, without
    the regularisation, and produces no kernel, while the sigma of the
    regularised determinant is finite. *)
Theorem extra_smoothing_divides_by_raw_determinant :
  star_covariance 2 Sample.star_single_band Sample.ext_model Sample.RV
  = (Fin 1, Fin 1, Fin 1)
  /\ add_extra_smoothing (Fin 1) (Fin 1) (Fin 1) Sample.grid (Fin 1) = (NaN, NaN, NaN)
  /\ gaussian_filter (Fin 1) (Fin 1) (Fin 1) Sample.grid (Fin 5) 2 (Fin 1) 5 = Undefined
  /\ filter_sigma (Fin 1) (Fin 1) (Fin 1)
     = (Fin (sqrt (1 / (1 * 1 - 1 * 1 + 1e-5))), Fin (sqrt (1 / (1 * 1 - 1 * 1 + 1e-5)))).
Proof.
  assert (Hs : add_extra_smoothing (Fin 1) (Fin 1) (Fin 1) Sample.grid (Fin 1)
               = (NaN, NaN, NaN)).
  { apply (extra_smoothing_singular 1 1 1 Sample.grid 1 1 1); try reflexivity; lra. }
  split; [|split; [exact Hs|split]].
  - unfold star_covariance.
    cbn [seq fold_left Sample.star_single_band Sample.ext_model err get_A].
    rewrite ivar_Fin by lra.
    change (Fin 1 / (PInf * PInf))%dbl with (Fin 0).
    rewrite !dmul_Fin, !dadd_Fin. fin_eq; lra.
  - unfold gaussian_filter. rewrite Hs. reflexivity.
  - apply filter_sigma_Fin; lra.
Qed.






Lemma dge_Fin_true (a b : R) : (b <= a)%R -> dge (Fin a) (Fin b) = true.
Proof. intros H. unfold dge. destruct (Rle_dec b a); [reflexivity|contradiction]. Qed.

Lemma dge_Fin_false (a b : R) : (a < b)%R -> dge (Fin a) (Fin b) = false.
Proof. intros H. unfold dge. destruct (Rle_dec b a); [lra|reflexivity]. Qed.

(** C1 fails as stated: for the star whose two bands both have the error 2e9
    no band is left to sum over, and the three scalars of [star_covariance]
    are not zero. *)
Lemma missing_band_enters_covariance :
  covariance_non_missing 2 Sample.star_no_band Sample.ext_model Sample.RV
  = (Fin 0, Fin 0, Fin 0)
  /\ star_covariance 2 Sample.star_no_band Sample.ext_model Sample.RV
     <> covariance_non_missing 2 Sample.star_no_band Sample.ext_model Sample.RV.
Proof.
  assert (Hspec : covariance_non_missing 2 Sample.star_no_band Sample.ext_model Sample.RV
                  = (Fin 0, Fin 0, Fin 0)).
  { unfold covariance_non_missing.
    cbn [seq fold_left Sample.star_no_band Sample.star_at err].
    rewrite dge_Fin_true by lra. reflexivity. }
  split; [exact Hspec|]. rewrite Hspec.
  unfold star_covariance.
  cbn [seq fold_left Sample.star_no_band Sample.star_at Sample.ext_model err get_A].
  rewrite !ivar_Fin by lra. rewrite !dmul_Fin, !dadd_Fin.
  intros H. injection H as H0 H1 H2. lra.
Qed.

Lemma finite_on_star_one_band :
  finite_on (seq 0 2) Sample.star_one_band Sample.sed Sample.ext_model Sample.RV
    (fun i => match i with O => 1 | _ => 1e9 end)
    (fun i => match i with O => 16 | _ => 0 end)
    (fun i => match i with O => 4 | _ => 5 end)
    (fun i => match i with O => 1 | _ => 2 end).
Proof.
  split; intros i Hi; simpl in Hi; destruct Hi as [<-|[<-|[]]];
    try reflexivity; lra.
Defined.

Lemma band_sums_cover_every_band_witness :
  star_covariance 2 Sample.star_one_band Sample.ext_model Sample.RV
  = (Fin (Rsum (fun i => 1 / (match i with O => 1 | _ => 1e9 end
                               * match i with O => 1 | _ => 1e9 end)) [0; 1]%nat),
     Fin (Rsum (fun i => match i with O => 1 | _ => 2 end
                         * (1 / (match i with O => 1 | _ => 1e9 end
                                 * match i with O => 1 | _ => 1e9 end))) [0; 1]%nat),
     Fin (Rsum (fun i => match i with O => 1 | _ => 2 end
                         * match i with O => 1 | _ => 2 end
                         * (1 / (match i with O => 1 | _ => 1e9 end
                                 * match i with O => 1 | _ => 1e9 end))) [0; 1]%nat))%R.
Proof.
  exact (proj1
    (band_sums_cover_every_band 2 _ _ _ _ _ _ _ _ finite_on_star_one_band)).
Defined.

Lemma star_max_likelihood_recovers_truth_witness :
  star_max_likelihood 2 Sample.sed Sample.star_exact Sample.ext_model
    (Fin 2) (Fin 3) (Fin 5) Sample.RV
  = (Fin 10, Fin 2, Fin 0).
Proof.
  apply (star_max_likelihood_recovers_truth 2 Sample.star_exact Sample.sed
           Sample.ext_model Sample.RV
           (fun _ => 1%R)
           (fun i => match i with O => 4 | _ => 5 end)%R
           (fun i => match i with O => 1 | _ => 2 end)%R).
  - intros i Hi. split; [reflexivity|lra].
  - intros i Hi. destruct i as [|[|i]]; reflexivity.
  - intros i Hi. destruct i as [|[|i]]; reflexivity.
  - intros i Hi. destruct i as [|[|i]]; [| |lia]; cbn [Sample.star_exact Sample.star_at m]; fin_eq; lra.
  - unfold star_covariance.
    cbn [seq fold_left Sample.star_exact Sample.star_at Sample.ext_model err get_A].
    rewrite !ivar_Fin by lra. rewrite !dmul_Fin, !dadd_Fin. fin_eq; lra.
  - lra.
Defined.

(** ** The sample star through [integrate_ML_solution] *)

Lemma sample_covariance (mu e : R) :
  e <> 0%R ->
  star_covariance 2 (Sample.star_at mu e) Sample.ext_model Sample.RV
  = (Fin (2 * (1 / (e * e))), Fin (3 * (1 / (e * e))), Fin (5 * (1 / (e * e)))).
Proof.
  intros He. unfold star_covariance.
  cbn [seq fold_left Sample.star_at Sample.ext_model err get_A].
  rewrite !ivar_Fin by exact He. rewrite !dmul_Fin, !dadd_Fin. fin_eq; lra.
Qed.

Lemma sample_determinant (e : R) :
  (0 < e)%R ->
  (0 < 2 * (1 / (e * e)))%R /\ (0 < 5 * (1 / (e * e)))%R
  /\ (0 < 2 * (1 / (e * e)) * (5 * (1 / (e * e)))
          - 3 * (1 / (e * e)) * (3 * (1 / (e * e))))%R.
Proof.
  intros He. assert (Hw : (0 < 1 / (e * e))%R) by (apply Rdiv_lt_0_compat; nra).
  set (w := (1 / (e * e))%R) in *. repeat split; nra.
Qed.

Lemma sample_fit (mu e : R) :
  (0 < e)%R ->
  star_max_likelihood 2 Sample.sed (Sample.star_at mu e) Sample.ext_model
    (Fin (2 * (1 / (e * e)))) (Fin (3 * (1 / (e * e)))) (Fin (5 * (1 / (e * e))))
    Sample.RV
  = (Fin mu, Fin 2, Fin 0).
Proof.
  intros He.
  apply (noiseless_fit 2 (Sample.star_at mu e) Sample.sed Sample.ext_model Sample.RV
           (fun _ => e)
           (fun i => match i with O => 4 | _ => 5 end)%R
           (fun i => match i with O => 1 | _ => 2 end)%R).
  - split; intros i Hi; simpl in Hi; destruct Hi as [<-|[<-|[]]];
      cbn [Sample.star_at Sample.sed Sample.ext_model err m absmag get_A];
      try reflexivity; lra.
  - intros i _. exact He.
  - apply sample_covariance. lra.
  - destruct (sample_determinant e He) as [_ [_ H]]. lra.
Qed.

Lemma sample_recorded (mu e : R) :
  (0 < e)%R ->
  recorded_cells 2 Sample.stellar_model Sample.los_model (Sample.star_at mu e)
    Sample.ext_model
    (Fin (2 * (1 / (e * e)))) (Fin (3 * (1 / (e * e)))) (Fin (5 * (1 / (e * e))))
    false false Sample.RV
  = [Sample.cell mu].
Proof.
  intros He. unfold recorded_cells.
  cbn [Sample.stellar_model get_N_Mr get_N_FeH get_sed seq flat_map app].
  unfold fit_cell. rewrite (sample_fit mu e He). reflexivity.
Qed.

Lemma sample_cell_outside (grid : TRect) (mu top : R) :
  rect_max grid 1 = Fin top -> (top <= mu)%R ->
  in_grid Sample.get_interpolant grid (Sample.cell mu) = false.
Proof.
  intros Htop Hmu. unfold in_grid, Sample.get_interpolant.
  cbn [Sample.cell rc_E rc_mu]. rewrite Htop.
  rewrite (dge_Fin_true mu top) by exact Hmu. rewrite !orb_true_r. reflexivity.
Qed.

Lemma sample_no_passband :
  forall i, (i < 2)%nat ->
    (isnan (err Sample.star_no_band i) || isinf (err Sample.star_no_band i)
     || (err Sample.star_no_band i >? Fin 1e9)%dbl) = true.
Proof.
  intros i _. cbn [Sample.star_no_band Sample.star_at err isnan isinf orb].
  unfold dgt. apply dlt_Fin_true. lra.
Qed.

Lemma sample_two_passbands : count_passbands 2 Sample.star_exact = 2%Z.
Proof.
  unfold count_passbands.
  cbn [seq fold_left Sample.star_exact Sample.star_at err isnan isinf orb].
  unfold dgt. rewrite dlt_Fin_false by lra. reflexivity.
Qed.

Lemma sample_kernel (grid : TRect) (W : Z) (e d0 d1 : R) :
  (0 < e)%R -> dx grid 0 = Fin d0 -> dx grid 1 = Fin d1 -> (0 < d0)%R -> (0 < d1)%R ->
  (2 <= W)%Z -> (1582 <= IZR W * (d0 * d1))%R -> (1 * (2 * W + 1) <= INT_MAX)%Z ->
  exists K : Mat,
    gaussian_filter (Fin (5 * (1 / (e * e)))) (Fin (3 * (1 / (e * e))))
      (Fin (2 * (1 / (e * e)))) grid (Fin 5) 2 (Fin 1) 1 = Returns K.
Proof.
  intros He H0 H1 Hd0 Hd1 HW Hbig Hint.
  destruct (sample_determinant e He) as [H00 [H11 Hdet]].
  destruct (kernel_of_star grid 1 W _ _ _ d0 d1 H00 H11 Hdet H0 H1 Hd0 Hd1)
    as [K [HK _]]; [lia|exact HW|exact Hbig|exact Hint|].
  exists K. exact HK.
Qed.
(** C6 fails as stated: a star whose two bands are both missing is not
    rejected; the call returns, and the chi-square per passband it returns
    is NaN. *)
Lemma star_without_passband_returns_nan :
  exists stack' : TImgStack,
    integrate_ML_solution 2 Sample.borderInterpolate Sample.get_interpolant
      Sample.stellar_model Sample.los_model Sample.star_no_band Sample.ext_model
      Sample.img_stack 0 false false Sample.RV 1
    = Returns (stack', NaN).
Proof.
  assert (He : (0 < 2e9)%R) by lra.
  destruct (sample_kernel Sample.grid 1582 2e9 1 1 He eq_refl eq_refl
              ltac:(lra) ltac:(lra) ltac:(lia) ltac:(lra) ltac:(unfold INT_MAX; lia))
    as [K HK].
  destruct (integrate_ML_solution_returns 2 Sample.borderInterpolate Sample.get_interpolant
              Sample.stellar_model Sample.los_model Sample.star_no_band Sample.ext_model
              Sample.img_stack 0 false false Sample.RV 1 _ _ _ K
              (sample_covariance 10 2e9 ltac:(lra)))
    as [mn [mx [image [_ [Hin [_ Hret]]]]]].
  - cbn. lia.
  - unfold Sample.star_no_band. rewrite (sample_recorded 10 2e9 He). discriminate.
  - intros chi2_min prior_max. eexists. apply deposit_all_outside.
    unfold Sample.star_no_band. rewrite (sample_recorded 10 2e9 He).
    intros c [<-|[]]. apply (sample_cell_outside Sample.grid 10 5); [reflexivity|lra].
  - exact HK.
  - unfold Sample.star_no_band in Hin. rewrite (sample_recorded 10 2e9 He) in Hin.
    destruct Hin as [<-|[]].
    rewrite (count_passbands_none 2 _ sample_no_passband) in Hret.
    cbn [Sample.cell rc_chi2] in Hret. unfold of_int in Hret.
    rewrite ddiv_Fin_zero, inf_times_zero in Hret.
    eexists. exact Hret.
Qed.

Lemma star_without_passband_is_not_rejected_witness :
  count_passbands 2 Sample.star_no_band = 0%Z
  /\ exists stack' chi2_min,
       integrate_ML_solution 2 Sample.borderInterpolate Sample.get_interpolant
         Sample.stellar_model Sample.los_model Sample.star_no_band Sample.ext_model
         Sample.img_stack 0 false false Sample.RV 1
       = Returns (stack', (chi2_min / Fin 0)%dbl).
Proof.
  assert (He : (0 < 2e9)%R) by lra.
  destruct (sample_kernel Sample.grid 1582 2e9 1 1 He eq_refl eq_refl
              ltac:(lra) ltac:(lra) ltac:(lia) ltac:(lra) ltac:(unfold INT_MAX; lia))
    as [K HK].
  destruct (star_without_passband_is_not_rejected 2 Sample.borderInterpolate
              Sample.get_interpolant
              Sample.stellar_model Sample.los_model Sample.star_no_band Sample.ext_model
              Sample.img_stack 0 false false Sample.RV 1 _ _ _ K
              sample_no_passband (sample_covariance 10 2e9 ltac:(lra)))
    as [Hcount [stack' [mn [_ [Hret _]]]]].
  - cbn. lia.
  - unfold Sample.star_no_band. rewrite (sample_recorded 10 2e9 He). discriminate.
  - intros chi2_min prior_max. eexists. apply deposit_all_outside.
    unfold Sample.star_no_band. rewrite (sample_recorded 10 2e9 He).
    intros c [<-|[]]. apply (sample_cell_outside Sample.grid 10 5); [reflexivity|lra].
  - exact HK.
  - split; [exact Hcount|]. exists stack', mn. exact Hret.
Defined.

(** C7.  The code on a star seen without noise in two bands, whose only
    recorded cell is beyond the far edge of the grid.  With [verbosity = 1]
    the call returns a finite chi-square per passband and a surface that is
    zero everywhere.  With [verbosity = 0] it does not: [verbosity] is passed
    to [gaussian_filter] where the sub-sampling factor is expected, and with
    a factor of zero the sub-sampled image of the kernel has no row and no
    column; the call does not return a surface that is zero everywhere. *)
Theorem verbosity_is_passed_as_subsample :
  (forall c,
     In c (recorded_cells 2 Sample.stellar_model Sample.los_model Sample.star_exact
             Sample.ext_model
             (Fin (2 * (1 / (1 * 1)))) (Fin (3 * (1 / (1 * 1))))
             (Fin (5 * (1 / (1 * 1)))) false false Sample.RV) ->
     Sample.get_interpolant Sample.grid (rc_E c) (rc_mu c) = None)
  /\ count_passbands 2 Sample.star_exact = 2%Z
  /\ (exists stack' surface x,
        integrate_ML_solution 2 Sample.borderInterpolate Sample.get_interpolant
          Sample.stellar_model Sample.los_model Sample.star_exact Sample.ext_model
          Sample.img_stack 0 false false Sample.RV 1
        = Returns (stack', Fin x)
        /\ nth_error (img stack') 0 = Some surface
        /\ forall i j, at_ surface i j = Fin 0)
  /\ (forall (inv_cov_00 inv_cov_01 inv_cov_11 : double) (grid : TRect) (w h : Z)
             (w0 h0 : double),
        rows (filter_sub_image inv_cov_00 inv_cov_01 inv_cov_11 grid 0 h
                (0 * w) (0 * h) w0 h0) = 0%Z
        /\ cols (filter_sub_image inv_cov_00 inv_cov_01 inv_cov_11 grid 0 h
                   (0 * w) (0 * h) w0 h0) = 0%Z)
  /\ ~ (exists stack' surface x,
          integrate_ML_solution 2 Sample.borderInterpolate Sample.get_interpolant
            Sample.stellar_model Sample.los_model Sample.star_exact Sample.ext_model
            Sample.img_stack 0 false false Sample.RV 0
          = Returns (stack', Fin x)
          /\ nth_error (img stack') 0 = Some surface
          /\ forall i j, at_ surface i j = Fin 0).
Proof.
  assert (He : (0 < 1)%R) by lra.
  destruct (sample_determinant 1 He) as [H00 [H11 Hdet]].
  assert (Hout : forall c,
            In c (recorded_cells 2 Sample.stellar_model Sample.los_model Sample.star_exact
                    Sample.ext_model
                    (Fin (2 * (1 / (1 * 1)))) (Fin (3 * (1 / (1 * 1))))
                    (Fin (5 * (1 / (1 * 1)))) false false Sample.RV) ->
            in_grid Sample.get_interpolant Sample.grid c = false).
  { unfold Sample.star_exact. rewrite (sample_recorded 10 1 He).
    intros c [<-|[]]. apply (sample_cell_outside Sample.grid 10 5); [reflexivity|lra]. }
  assert (Hne : recorded_cells 2 Sample.stellar_model Sample.los_model Sample.star_exact
                  Sample.ext_model
                  (Fin (2 * (1 / (1 * 1)))) (Fin (3 * (1 / (1 * 1))))
                  (Fin (5 * (1 / (1 * 1)))) false false Sample.RV <> []).
  { unfold Sample.star_exact. rewrite (sample_recorded 10 1 He). discriminate. }
  assert (Hfin : forall c,
            In c (recorded_cells 2 Sample.stellar_model Sample.los_model Sample.star_exact
                    Sample.ext_model
                    (Fin (2 * (1 / (1 * 1)))) (Fin (3 * (1 / (1 * 1))))
                    (Fin (5 * (1 / (1 * 1)))) false false Sample.RV) ->
            is_finite (rc_chi2 c)).
  { unfold Sample.star_exact. rewrite (sample_recorded 10 1 He).
    intros c [<-|[]]. exact I. }
  split; [|split; [exact sample_two_passbands|split; [|split]]].
  - intros c Hc. specialize (Hout c Hc). unfold in_grid in Hout.
    destruct (Sample.get_interpolant Sample.grid (rc_E c) (rc_mu c));
      [discriminate|reflexivity].
  - destruct (all_cells_outside 2 Sample.borderInterpolate Sample.get_interpolant
                Sample.stellar_model Sample.los_model Sample.star_exact Sample.ext_model
                Sample.img_stack 0 false false Sample.RV 1 1582 _ _ _ 1 1
                (sample_covariance 10 1 ltac:(lra)) H00 H11 Hdet)
      as [stack' [surface [x [Hret [Hnth [_ [_ Hzero]]]]]]];
      try reflexivity; try lra; try lia; try assumption.
    + unfold INT_MAX. lia.
    + rewrite sample_two_passbands. lia.
    + cbn. lia.
    + exists stack', surface, x. repeat split; assumption.
  - intros inv_cov_00 inv_cov_01 inv_cov_11 grid w h w0 h0. split; reflexivity.
  - intros [stack2 [surface2 [x2 [Hret2 [Hnth2 Hzero2]]]]].
    destruct (all_cells_outside_quiet 2 Sample.borderInterpolate Sample.get_interpolant
                Sample.stellar_model Sample.los_model Sample.star_exact Sample.ext_model
                Sample.img_stack 0 false false Sample.RV 1582 _ _ _ 1 1
                (sample_covariance 10 1 ltac:(lra)) H00 H11 Hdet)
      as [stack' [surface [x [Hret [Hnth [_ [_ HNaN]]]]]]];
      try reflexivity; try lra; try lia; try assumption.
    + unfold INT_MAX. lia.
    + rewrite sample_two_passbands. lia.
    + cbn. lia.
    + rewrite Hret in Hret2. injection Hret2 as <- _.
      rewrite Hnth in Hnth2. injection Hnth2 as <-.
      specialize (HNaN 0%Z 0%Z). rewrite Hzero2 in HNaN. discriminate HNaN.
Qed.

(** The bins of the sample grid around the point [(E, mu) = (2, 3)]. *)
Lemma sample_interpolant :
  Sample.get_interpolant Sample.grid (Fin 2) (Fin 3)
  = Some (2%Z, 3%Z, Fin (2 - 2), Fin (3 - 3)).
Proof.
  unfold Sample.get_interpolant. cbn [Sample.grid rect_min rect_max dx].
  rewrite !dlt_Fin_false, !dge_Fin_false by lra. cbn [orb].
  cbv zeta. rewrite !dsub_Fin, !ddiv_Fin by lra.
  replace ((2 - 0) / 1)%R with (IZR 2) by lra.
  replace ((3 - 0) / 1)%R with (IZR 3) by lra.
  cbn [to_int]. rewrite !Ztrunc_IZR.
  rewrite !int_in by (unfold INT_MIN, INT_MAX; lia).
  unfold of_int. rewrite !dsub_Fin. reflexivity.
Qed.

Lemma integrate_ML_solution_two_pass_witness :
  exists image' : Mat,
    deposit_cell Sample.get_interpolant Sample.grid
      (sweep 2 Sample.stellar_model Sample.los_model (Sample.star_at 3 1) Sample.ext_model
         (fst (fst (star_covariance 2 (Sample.star_at 3 1) Sample.ext_model Sample.RV)))
         (snd (fst (star_covariance 2 (Sample.star_at 3 1) Sample.ext_model Sample.RV)))
         (snd (star_covariance 2 (Sample.star_at 3 1) Sample.ext_model Sample.RV))
         false false Sample.RV)
      (Fin 0) (Fin 0) (Returns (zeros 5 5)) 0
    = Returns image'
    /\ at_ image' 2 3 = (Fin 0 + Fin ((1 - (2 - 2)) * (1 - (3 - 3)) * 1))%dbl
    /\ at_ image' 0 0 = Fin 0.
Proof.
  destruct (integrate_ML_solution_two_pass 2 Sample.borderInterpolate
              Sample.get_interpolant Sample.stellar_model Sample.los_model
              (Sample.star_at 3 1) Sample.ext_model Sample.img_stack 0
              false false Sample.RV 1) as [_ [_ [_ H]]].
  destruct (H 0%nat (Sample.cell 3) (Fin 0) (Fin 0) (zeros 5 5) 2%Z 3%Z
              (2 - 2)%R (3 - 3)%R 1%R)
    as [image' [Hret [_ [_ [H23 [_ [_ [_ [Hrest _]]]]]]]]].
  - rewrite (sample_covariance 3 1) by lra. cbn [fst snd].
    rewrite (sample_recorded 3 1) by lra. reflexivity.
  - exact sample_interpolant.
  - cbn [Sample.cell rc_chi2 rc_prior].
    rewrite !dsub_Fin, dmul_Fin, dadd_Fin.
    replace (-0.5 * (0 - 0) + (0 - 0))%R with 0%R by lra. apply dexp_0.
  - reflexivity.
  - reflexivity.
  - exists image'. split; [exact Hret|]. split; [exact H23|].
    rewrite Hrest by lia. reflexivity.
Defined.

Lemma integrate_ML_solution_needs_a_sed_witness :
  integrate_ML_solution 2 Sample.borderInterpolate Sample.get_interpolant
    Sample.empty_library Sample.los_model Sample.star_exact Sample.ext_model
    Sample.img_stack 0 false false Sample.RV 1
  = Undefined.
Proof.
  apply (proj1 (integrate_ML_solution_needs_a_sed 2 Sample.borderInterpolate
                  Sample.get_interpolant Sample.empty_library Sample.los_model
                  Sample.star_exact Sample.ext_model Sample.img_stack 0
                  false false Sample.RV 1)).
  intros Mr_idx FeH_idx _ _. reflexivity.
Defined.

(** ** The sample pixel through [grid_eval_stars] *)

Lemma stellar_pdf_rect_dx :
  dx stellar_pdf_rect 0 = Fin ((7.2 - -0.2) / 740)
  /\ dx stellar_pdf_rect 1 = Fin ((19.25 - 3.75) / 124).
Proof.
  unfold stellar_pdf_rect, TRect_new, of_int. cbn [dx].
  rewrite !dsub_Fin, !ddiv_Fin by lra. split; reflexivity.
Qed.

Lemma sample_pixel_stars :
  exists stack1 : TImgStack,
    eval_all_stars 2 Sample.borderInterpolate Sample.get_interpolant
      Sample.los_model Sample.ext_model Sample.stellar_model Sample.stellar_data
      (set_rect Sample.img_stack stellar_pdf_rect) [] false false Sample.RV 1
    = Returns (stack1, [Fin (0 / 2)]).
Proof.
  assert (He : (0 < 1)%R) by lra.
  destruct stellar_pdf_rect_dx as [Hdx0 Hdx1].
  destruct (sample_kernel stellar_pdf_rect 1265600 1 _ _ He Hdx0 Hdx1
              ltac:(lra) ltac:(lra) ltac:(lia) ltac:(lra) ltac:(unfold INT_MAX; lia))
    as [K HK].
  destruct (integrate_ML_solution_returns 2 Sample.borderInterpolate Sample.get_interpolant
              Sample.stellar_model Sample.los_model Sample.star_far Sample.ext_model
              (set_rect Sample.img_stack stellar_pdf_rect) 0 false false Sample.RV 1
              _ _ _ K (sample_covariance 25 1 ltac:(lra)))
    as [mn [mx [image [_ [Hin [_ Hret]]]]]].
  - cbn. lia.
  - unfold Sample.star_far. rewrite (sample_recorded 25 1 He). discriminate.
  - intros chi2_min prior_max. eexists. apply deposit_all_outside.
    unfold Sample.star_far. rewrite (sample_recorded 25 1 He).
    intros c [<-|[]].
    apply (sample_cell_outside _ 25 19.25); [reflexivity|lra].
  - exact HK.
  - unfold Sample.star_far in Hin. rewrite (sample_recorded 25 1 He) in Hin.
    destruct Hin as [<-|[]].
    assert (Hcount : count_passbands 2 Sample.star_far = 2%Z).
    { unfold count_passbands.
      cbn [seq fold_left Sample.star_far Sample.star_at err isnan isinf orb].
      unfold dgt. rewrite dlt_Fin_false by lra. reflexivity. }
    rewrite Hcount in Hret. cbn [Sample.cell rc_chi2] in Hret.
    unfold of_int in Hret. rewrite ddiv_Fin in Hret by lra.
    eexists. unfold eval_all_stars.
    cbn [Sample.stellar_data star length seq fold_left bind vector_at nth_error].
    rewrite Hret. reflexivity.
Qed.

Lemma second_pass_scales_width_by_bin_index_witness :
  exists stack1 sigma_pix report,
    grid_eval_stars 2 Sample.borderInterpolate Sample.get_interpolant
      Sample.crop Sample.smooth (fun _ => Fin 0)
      Sample.los_model Sample.ext_model Sample.stellar_model Sample.stellar_data
      Sample.EBV_smoothing Sample.img_stack [] false false Sample.RV 1
    = Returns (Sample.smooth (Sample.crop stack1 (Fin 0) (Fin 7) (Fin 4) (Fin 19)) sigma_pix,
               [Fin (0 / 2)], report)
    /\ nth_error sigma_pix 0 = Some (Fin 0)
    /\ nth_error sigma_pix 2 = Some (Fin 0.1 * of_int 2)%dbl.
Proof.
  destruct sample_pixel_stars as [stack1 Hloop].
  destruct (second_pass_scales_width_by_bin_index 2 Sample.borderInterpolate
              Sample.get_interpolant Sample.crop Sample.smooth (fun _ => Fin 0)
              Sample.los_model Sample.ext_model Sample.stellar_model
              Sample.stellar_data Sample.EBV_smoothing Sample.img_stack []
              false false Sample.RV 1 stack1 [Fin (0 / 2)])
    as [sigma_pix [report [Hrun [_ [Hnth Hzero]]]]].
  - apply dlt_Fin_true. lra.
  - exact Hloop.
  - exists stack1, sigma_pix, report. split; [exact Hrun|]. split.
    + apply (Hzero 0.1%R). reflexivity.
    + apply (Hnth 2%nat (Fin 0.1)). reflexivity.
Defined.

Lemma grid_eval_stars_deterministic_witness :
  results
    (grid_eval_stars 2 Sample.borderInterpolate Sample.get_interpolant
       Sample.crop Sample.smooth (fun _ => Fin 0)
       Sample.los_model Sample.ext_model Sample.stellar_model Sample.stellar_data
       Sample.EBV_smoothing Sample.img_stack [] false false Sample.RV 1)
  = results
      (grid_eval_stars 2 Sample.borderInterpolate Sample.get_interpolant
         Sample.crop Sample.smooth (fun k => Fin (INR k))
         Sample.los_model Sample.ext_model Sample.stellar_model Sample.stellar_data
         Sample.EBV_smoothing {| img := [zeros 3 3]; rect := Sample.grid |} [Fin 7]
         false false Sample.RV 1).
Proof.
  apply grid_eval_stars_deterministic; reflexivity.
Defined.

(** ** The further properties on the sample star *)

Lemma finite_on_star_exact :
  finite_on (seq 0 2) Sample.star_exact Sample.sed Sample.ext_model Sample.RV
    (fun _ => 1)
    (fun i => match i with O => 4 + 10 + 2 * 1 | _ => 5 + 10 + 2 * 2 end)
    (fun i => match i with O => 4 | _ => 5 end)
    (fun i => match i with O => 1 | _ => 2 end).
Proof.
  split; intros i Hi; simpl in Hi; destruct Hi as [<-|[<-|[]]];
    try reflexivity; lra.
Qed.

Lemma sample_params_inv_cov :
  let p := star_max_likelihood_params 2 Sample.sed Sample.star_exact Sample.ext_model
             Sample.RV in
  LinearFitParams.inv_cov p 0 0 = Fin (2 * (1 / (1 * 1)))
  /\ LinearFitParams.inv_cov p 0 1 = Fin (3 * (1 / (1 * 1)))
  /\ LinearFitParams.inv_cov p 1 0 = Fin (3 * (1 / (1 * 1)))
  /\ LinearFitParams.inv_cov p 1 1 = Fin (5 * (1 / (1 * 1))).
Proof.
  intros p.
  pose proof (star_max_likelihood_params_inv_cov 2 Sample.sed Sample.star_exact
                Sample.ext_model Sample.RV) as H.
  cbv zeta in H. unfold Sample.star_exact in H.
  rewrite (sample_covariance 10 1) in H by lra. exact H.
Qed.

Lemma star_max_likelihood_minimises_chi2_witness :
  exists mu E chi2 : R,
    star_max_likelihood 2 Sample.sed Sample.star_exact Sample.ext_model
      (Fin (2 * (1 / (1 * 1)))) (Fin (3 * (1 / (1 * 1)))) (Fin (5 * (1 / (1 * 1))))
      Sample.RV
    = (Fin mu, Fin E, Fin chi2)
    /\ (0 <= chi2)%R
    /\ exists chi2' : R,
         calc_star_chi2 2 Sample.star_exact Sample.ext_model Sample.sed
           (Fin 0) (Fin 0) Sample.RV = Fin chi2'
         /\ (chi2 <= chi2')%R.
Proof.
  destruct (star_max_likelihood_minimises_chi2 2 Sample.star_exact Sample.sed
              Sample.ext_model Sample.RV _ _ _ _ _ _ _ finite_on_star_exact
              (sample_covariance 10 1 ltac:(lra)))
    as [mu [E [chi2 [Hml [_ [Hpos Hmin]]]]]].
  - destruct (sample_determinant 1 ltac:(lra)) as [_ [_ H]]. lra.
  - exists mu, E, chi2. split; [exact Hml|]. split; [exact Hpos|].
    destruct (Hmin 0%R 0%R) as [chi2' [Hc [Hle _]]].
    exists chi2'. split; assumption.
Defined.


Lemma gaussian_filter_overloads_agree_witness :
  match gaussian_filter_params
          (star_max_likelihood_params 2 Sample.sed Sample.star_exact Sample.ext_model
             Sample.RV)
          Sample.grid (Fin 5) 2,
        gaussian_filter (Fin (2 * (1 / (1 * 1)))) (Fin (3 * (1 / (1 * 1))))
          (Fin (5 * (1 / (1 * 1)))) Sample.grid (Fin 1) 2 (Fin (-1)) 1 with
  | Returns K, Returns K' =>
      rows K = rows K' /\ cols K = cols K' /\ forall i j, at_ K i j = at_ K' i j
  | Throws, Throws => True
  | Undefined, Undefined => True
  | _, _ => False
  end.
Proof.
  destruct sample_params_inv_cov as [H00 [H01 [H10 H11]]].
  apply (gaussian_filter_overloads_agree
           (star_max_likelihood_params 2 Sample.sed Sample.star_exact
              Sample.ext_model Sample.RV)
           Sample.grid (Fin 5) (Fin (-1)) 2 (2 * (1 / (1 * 1)))%R (3 * (1 / (1 * 1)))%R (5 * (1 / (1 * 1)))%R
           1 1 H00 H01 H10 H11 eq_refl eq_refl).
  - lia.
  - unfold dgt. apply dlt_Fin_false. lra.
Defined.


Lemma grid_eval_stars_evaluates_each_star_witness :
  exists s c report,
    grid_eval_stars 2 Sample.borderInterpolate Sample.get_interpolant
      Sample.crop Sample.smooth (fun _ => Fin 0)
      Sample.los_model Sample.ext_model Sample.stellar_model Sample.stellar_data
      Sample.EBV_smoothing Sample.img_stack [Fin 7] false false Sample.RV 1
    = Returns (smooth_EBV Sample.smooth Sample.EBV_smoothing Sample.stellar_data
                 (Sample.crop s (Fin 0) (Fin 7) (Fin 4) (Fin 19)), c, report)
    /\ length c = 1%nat.
Proof.
  destruct (proj1 (grid_eval_stars_evaluates_each_star 2 Sample.borderInterpolate
                     Sample.get_interpolant Sample.crop Sample.smooth (fun _ => Fin 0)
                     Sample.los_model Sample.ext_model Sample.stellar_model
                     Sample.stellar_data Sample.EBV_smoothing Sample.img_stack [Fin 7]
                     false false Sample.RV 1 eq_refl))
    as [s [c [report [Hrun [_ [_ [Hc _]]]]]]].
  - destruct sample_pixel_stars as [stack1 Hloop].
    exact (eval_all_stars_returns 2 Sample.borderInterpolate Sample.get_interpolant
             Sample.los_model Sample.ext_model Sample.stellar_model Sample.stellar_data
             false false Sample.RV 1 (set_rect Sample.img_stack stellar_pdf_rect) []
             _ eq_refl Hloop).
  - exists s, c, report. split; [exact Hrun|exact Hc].
Defined.

Lemma TMagnitudes_new_skips_missing_bands_witness :
  set_lnL_norm
    (TMagnitudes_new 2 (fun _ => Fin 20)
       (fun i => match i with O => Fin 2e9 | _ => PInf end))
  = Fin (Rsum (fun i => if match i with O => true | _ => false end
                        then 0.9189385332 + ln 2e9 else 0) [0; 1]%nat)
  /\ count_passbands 2
       {| pi := Fin 0; pierr := Fin 1;
          m := set_m (TMagnitudes_new 2 (fun _ => Fin 20)
                        (fun i => match i with O => Fin 2e9 | _ => PInf end));
          err := set_err (TMagnitudes_new 2 (fun _ => Fin 20)
                            (fun i => match i with O => Fin 2e9 | _ => PInf end)) |}
     = 0%Z.
Proof.
  destruct (TMagnitudes_new_skips_missing_bands 2 (fun _ => Fin 20)
              (fun i => match i with O => Fin 2e9 | _ => PInf end)
              (fun _ => 2e9%R)
              (fun i => match i with O => true | _ => false end))
    as [Hnorm Hcount].
  - intros i _. destruct i; [split; [reflexivity|lra]|reflexivity].
  - split; [exact Hnorm|]. apply Hcount. intros i _ _. lra.
Defined.

Lemma star_max_likelihood_follows_shift_witness :
  exists mu E chi2 : R,
    star_max_likelihood 2 Sample.sed Sample.star_exact Sample.ext_model
      (Fin (2 * (1 / (1 * 1)))) (Fin (3 * (1 / (1 * 1)))) (Fin (5 * (1 / (1 * 1))))
      Sample.RV
    = (Fin mu, Fin E, Fin chi2)
    /\ star_max_likelihood 2 Sample.sed
         {| pi := Fin 0; pierr := Fin 1;
            m := fun i =>
                   Fin (match i with O => 4 + 10 + 2 * 1 | _ => 5 + 10 + 2 * 2 end
                        + 3 + 0.5 * match i with O => 1 | _ => 2 end);
            err := fun _ => Fin 1 |}
         Sample.ext_model
         (Fin (2 * (1 / (1 * 1)))) (Fin (3 * (1 / (1 * 1)))) (Fin (5 * (1 / (1 * 1))))
         Sample.RV
       = (Fin (mu + 3), Fin (E + 0.5), Fin chi2).
Proof.
  destruct (star_max_likelihood_follows_shift 2 Sample.star_exact
              {| pi := Fin 0; pierr := Fin 1;
                 m := fun i =>
                        Fin (match i with O => 4 + 10 + 2 * 1 | _ => 5 + 10 + 2 * 2 end
                             + 3 + 0.5 * match i with O => 1 | _ => 2 end);
                 err := fun _ => Fin 1 |}
              Sample.sed Sample.ext_model Sample.RV _ _ _ _ 3 0.5
              (2 * (1 / (1 * 1)))%R (3 * (1 / (1 * 1)))%R (5 * (1 / (1 * 1)))%R
              finite_on_star_exact)
    as [_ H].
  - intros i _. split; reflexivity.
  - exact (sample_covariance 10 1 ltac:(lra)).
  - destruct (sample_determinant 1 ltac:(lra)) as [_ [_ H]]. lra.
  - exact H.
Defined.

Lemma star_max_likelihood_error_scale_witness :
  exists mu E chi2 : R,
    star_max_likelihood 2 Sample.sed Sample.star_exact Sample.ext_model
      (Fin (2 * (1 / (1 * 1)))) (Fin (3 * (1 / (1 * 1)))) (Fin (5 * (1 / (1 * 1))))
      Sample.RV
    = (Fin mu, Fin E, Fin chi2)
    /\ star_max_likelihood 2 Sample.sed
         {| pi := Fin 0; pierr := Fin 1;
            m := m Sample.star_exact; err := fun _ => Fin (2 * 1) |}
         Sample.ext_model
         (Fin (2 * (1 / (1 * 1)) / (2 * 2))) (Fin (3 * (1 / (1 * 1)) / (2 * 2)))
         (Fin (5 * (1 / (1 * 1)) / (2 * 2))) Sample.RV
       = (Fin mu, Fin E, Fin (chi2 / (2 * 2))).
Proof.
  destruct (star_max_likelihood_error_scale 2 Sample.star_exact
              {| pi := Fin 0; pierr := Fin 1;
                 m := m Sample.star_exact; err := fun _ => Fin (2 * 1) |}
              Sample.sed Sample.ext_model Sample.RV _ _ _ _ 2
              (2 * (1 / (1 * 1)))%R (3 * (1 / (1 * 1)))%R (5 * (1 / (1 * 1)))%R
              finite_on_star_exact)
    as [_ H].
  - lra.
  - intros i _. split; reflexivity.
  - exact (sample_covariance 10 1 ltac:(lra)).
  - destruct (sample_determinant 1 ltac:(lra)) as [_ [_ H]]. lra.
  - exact H.
Defined.
